(** * Maestral command line interface: table layout and daemon control

    A shallow embedding of [maestral/cli.py]: the table formatter
    [format_table] with the Python primitives it relies on (integer true
    division, [round], [textwrap.wrap], [str.ljust] and friends), and the
    daemon life-cycle commands ([start], [stop], [restart], the strict-mode
    proxy commands and the curses loop of [activity]). *)

From Stdlib Require Import ZArith Lia Ascii String List Bool DecimalString Sorted.
From stdpp Require Import base gmap strings list fin_maps.

Local Open Scope Z_scope.

(** ** Python values and exceptions *)

(** A Python [str] is modelled as the list of its characters. *)
Definition pystr : Type := list ascii.

Definition str_of (s : string) : pystr := list_ascii_of_string s.

(** The exceptions that [format_table] and the commands can raise. A
    [ValueError] carries its message, so that the three errors raised by
    [format_table] itself can be told apart from those of builtins.
    [CommunicationError] is the error of the transport layer
    ([Pyro5.errors.CommunicationError]), [MaestralApiError] an error reported
    by the sync engine, [ClickException] and [Abort] the two ways a command
    ends with a message for the user. *)
Inductive exn : Type :=
| ValueError (msg : string)
| IndexError
| ZeroDivisionError
| OverflowError
| CommunicationError
| MaestralApiError (title message : string)
| ConnectionError
| ClickException (msg : string)
| Abort.

Inductive result (A : Type) : Type :=
| Ok (a : A)
| Raise (e : exn).
Arguments Ok {A} a.
Arguments Raise {A} e.

Definition bind {A B} (r : result A) (k : A -> result B) : result B :=
  match r with
  | Ok a => k a
  | Raise e => Raise e
  end.

Notation "'let*' x ':=' r 'in' k" := (bind r (fun x => k))
  (at level 10, x name, r at level 100, k at level 200).

(** [[f(x) for x in l]], stopping at the first exception. *)
Fixpoint mapM {A B} (f : A -> result B) (l : list A) : result (list B) :=
  match l with
  | [] => Ok []
  | x :: l' => let* y := f x in let* ys := mapM f l' in Ok (y :: ys)
  end.

Definition len {A} (l : list A) : Z := Z.of_nat (length l).

(** ** Double precision arithmetic

    Every finite binary64 number is an integral multiple of [2^-1074], so a
    finite float is represented by that multiple (its number of [units]).
    The representable numbers are those whose multiple fits in 53 significant
    bits; each operation returns the representable number nearest to the
    exact result, ties going to the even significand, and overflows when that
    number reaches [2^1024]. *)

Definition units_per_one : Z := 2 ^ 1074.
Definition overflow_threshold : Z := 2 ^ 1024 * units_per_one.

Inductive float : Type :=
| Finite (units : Z)
| Infinite.

(** [n / d] rounded to the nearest integer, ties to even ([0 < d]). *)
Definition rne_div (n d : Z) : Z :=
  let q := n / d in
  let r := n mod d in
  if 2 * r <? d then q
  else if d <? 2 * r then q + 1
  else if Z.even q then q else q + 1.

(** The binary64 number nearest to [t / d] units ([0 < d]): the quotient is
    rounded at the position [s] of the last of its 53 leading bits. *)
Definition round_units (t d : Z) : Z :=
  let s := Z.max (Z.log2 (Z.abs t / d) - 52) 0 in
  rne_div t (d * 2 ^ s) * 2 ^ s.

Definition check_overflow (u : Z) : float :=
  if overflow_threshold <=? Z.abs u then Infinite else Finite u.

(** [a / b] on Python integers: the correctly rounded quotient. *)
Definition int_true_div (a b : Z) : result float :=
  if b =? 0 then Raise ZeroDivisionError
  else
    let u := if 0 <? b then round_units (a * units_per_one) b
             else round_units (- a * units_per_one) (- b) in
    match check_overflow u with
    | Finite u => Ok (Finite u)
    | Infinite => Raise OverflowError
    end.

(** Conversion of an integer operand to float. *)
Definition float_of_int (w : Z) : result float :=
  match check_overflow (round_units (w * units_per_one) 1) with
  | Finite u => Ok (Finite u)
  | Infinite => Raise OverflowError
  end.

Definition float_sub (x y : float) : float :=
  match x, y with
  | Finite a, Finite b => check_overflow (round_units (a - b) 1)
  | _, _ => Infinite
  end.

(** [round(x)] without [ndigits]: nearest integer, ties to even. *)
Definition py_round (x : float) : result Z :=
  match x with
  | Finite u => Ok (rne_div u units_per_one)
  | Infinite => Raise OverflowError
  end.

(** [w - a / b] for integers [w], [a], [b], as Python evaluates it. *)
Definition int_minus_quotient (w a b : Z) : result float :=
  let* q := int_true_div a b in
  let* wf := float_of_int w in
  Ok (float_sub wf q).

(** ** Builtins on sequences and strings *)

(** [max(xs)] over integers; Python raises [ValueError] on an empty
    sequence. *)
Definition py_max (xs : list Z) : result Z :=
  match xs with
  | [] => Raise (ValueError "max() arg is an empty sequence")
  | x :: xs' => Ok (fold_left Z.max xs' x)
  end.

Definition py_sum (xs : list Z) : Z := fold_right Z.add 0 xs.

(** A space repeated [n] times: empty when [n <= 0]. *)
Definition spaces (n : Z) : pystr := replicate (Z.to_nat n) " "%char.

Definition ljust (s : pystr) (width : Z) : pystr := s ++ spaces (width - len s).

Definition rjust (s : pystr) (width : Z) : pystr := spaces (width - len s) ++ s.

(** [str.center]: the odd space goes to the left when the width is odd. *)
Definition center (s : pystr) (width : Z) : pystr :=
  let marg := width - len s in
  if marg <=? 0 then s
  else
    let left := marg / 2 + Z.land (Z.land marg width) 1 in
    spaces left ++ s ++ spaces (marg - left).

(** [sep.join(parts)]. *)
Fixpoint join (sep : pystr) (parts : list pystr) : pystr :=
  match parts with
  | [] => []
  | [p] => p
  | p :: ps => p ++ sep ++ join sep ps
  end.

(** One step of [zip] over the lists of [ll]: the heads and the tails, unless
    some list is exhausted. *)
Fixpoint zip_heads {T} (ll : list (list T)) : option (list T * list (list T)) :=
  match ll with
  | [] => Some ([], [])
  | l :: ll' =>
      match l, zip_heads ll' with
      | x :: l', Some (hs, ts) => Some (x :: hs, l' :: ts)
      | _, _ => None
      end
  end.

Fixpoint transpose_n {T} (n : nat) (ll : list (list T)) : list (list T) :=
  match n with
  | O => []
  | S n' =>
      match zip_heads ll with
      | Some (hs, ts) => hs :: transpose_n n' ts
      | None => []
      end
  end.

(** The transposition [list(map(list, zip( *ll)))]: stops at the shortest
    list. *)
Definition _transpose {T} (ll : list (list T)) : list (list T) :=
  match ll with
  | [] => []
  | l :: _ => transpose_n (length l) ll
  end.

(** ** Character classes (code points 0 to 255) *)

Definition code (c : ascii) : N := N_of_ascii c.

Definition in_ranges (rs : list (N * N)) (c : ascii) : bool :=
  existsb (fun r => (fst r <=? code c)%N && (code c <=? snd r)%N) rs.

(** [textwrap._whitespace], the characters the wrapper splits on. *)
Definition is_tw_space : ascii -> bool := in_ranges [(9, 13); (32, 32)]%N.

(** [str.isspace], which [str.strip] uses. *)
Definition is_py_space : ascii -> bool :=
  in_ranges [(9, 13); (28, 32); (133, 133); (160, 160)]%N.

(** The regular expression classes of [wordsep_re]: letters (word
    characters that are not digits), word characters, and word characters
    with the punctuation that may precede an em-dash. *)
Definition letter_ranges : list (N * N) :=
  [(65, 90); (95, 95); (97, 122); (170, 170); (178, 179); (181, 181);
   (185, 186); (188, 190); (192, 214); (216, 246); (248, 255)]%N.

Definition is_letter : ascii -> bool := in_ranges letter_ranges.

Definition is_word_char : ascii -> bool := in_ranges ((48, 57)%N :: letter_ranges).

Definition is_word_punct (c : ascii) : bool :=
  is_word_char c || in_ranges [(33, 34); (38, 39); (44, 44); (46, 46); (63, 63)]%N c.

Definition is_dash (c : ascii) : bool := (code c =? 45)%N.

(** The chunk is blank: [chunk.strip()] is empty. *)
Definition all_space (chunk : pystr) : bool := forallb is_py_space chunk.

(** ** textwrap.wrap with the default options

    [expand_tabs], [replace_whitespace], [drop_whitespace],
    [break_long_words] and [break_on_hyphens] are on, the indents are empty
    and [max_lines] is unset. *)

(** [str.expandtabs(8)]. *)
Fixpoint expandtabs (col : nat) (s : pystr) : pystr :=
  match s with
  | [] => []
  | c :: s' =>
      if (code c =? 9)%N then
        let incr := (8 - col mod 8)%nat in
        replicate incr " "%char ++ expandtabs (col + incr) s'
      else if (code c =? 10)%N || (code c =? 13)%N then c :: expandtabs 0 s'
      else c :: expandtabs (S col) s'
  end.

Definition _munge_whitespace (text : pystr) : pystr :=
  map (fun c => if is_tw_space c then " "%char else c) (expandtabs 0 text).

(** Two dashes or more and then a word character at the head of [s], [n]
    dashes having been read. *)
Fixpoint dashes_then_word (n : nat) (s : pystr) : bool :=
  match s with
  | [] => false
  | c :: s' =>
      if is_dash c then dashes_then_word (S n) s'
      else (2 <=? n)%nat && is_word_char c
  end.

(** An em-dash starts here: word punctuation behind (in [ctx_rev], nearest
    character first), dashes and a word character ahead. *)
Definition emdash_here (ctx_rev s : pystr) : bool :=
  match ctx_rev with
  | p :: _ => is_word_punct p && dashes_then_word 0 s
  | [] => false
  end.

(** The hyphen of a hyphenated word: two letters, or letter, dash, letter
    behind it; letter, optional dash, letter ahead. *)
Definition hyphen_break (ctx_rev rest : pystr) : bool :=
  let behind :=
    match ctx_rev with
    | x1 :: x2 :: more =>
        is_letter x1 &&
        (is_letter x2 ||
         (is_dash x2 && match more with x3 :: _ => is_letter x3 | [] => false end))
    | _ => false
    end in
  let ahead :=
    match rest with
    | y1 :: y2 :: more =>
        is_letter y1 &&
        (is_letter y2 ||
         (is_dash y2 && match more with y3 :: _ => is_letter y3 | [] => false end))
    | _ => false
    end in
  behind && ahead.

Inductive chunk_kind : Type := KSpace | KDash | KWord.

(** Which alternative of [wordsep_re] matches at the start of a chunk. *)
Definition begin_kind (ctx_rev : pystr) (c : ascii) (rest : pystr) : chunk_kind :=
  if is_tw_space c then KSpace
  else if emdash_here ctx_rev (c :: rest) then KDash
  else KWord.

(** What [wordsep_re] does with the character [c] that follows a chunk
    under way: the chunk goes on, ends before [c], or ends with the hyphen
    [c]. *)
Inductive split_action : Type := Continue | Restart | BreakAfter.

Definition split_action_at (kind : chunk_kind) (ctx_rev : pystr) (c : ascii)
    (rest : pystr) : split_action :=
  match kind with
  | KSpace => if is_tw_space c then Continue else Restart
  | KDash => if is_dash c then Continue else Restart
  | KWord =>
      if is_dash c && hyphen_break ctx_rev rest then BreakAfter
      else if is_tw_space c || emdash_here ctx_rev (c :: rest) then Restart
      else Continue
  end.

(** [wordsep_re.split]: [cur_rev] is the chunk being read (empty at the
    start of a chunk), [ctx_rev] everything read so far. *)
Fixpoint split_loop (kind : chunk_kind) (ctx_rev cur_rev s : pystr) : list pystr :=
  match s with
  | [] => match cur_rev with [] => [] | _ => [rev cur_rev] end
  | c :: rest =>
      match cur_rev with
      | [] => split_loop (begin_kind ctx_rev c rest) (c :: ctx_rev) [c] rest
      | _ =>
          match split_action_at kind ctx_rev c rest with
          | Continue => split_loop kind (c :: ctx_rev) (c :: cur_rev) rest
          | Restart =>
              rev cur_rev ::
              split_loop (begin_kind ctx_rev c rest) (c :: ctx_rev) [c] rest
          | BreakAfter =>
              rev (c :: cur_rev) :: split_loop KWord (c :: ctx_rev) [] rest
          end
      end
  end.

Definition _split (text : pystr) : list pystr := split_loop KWord [] [] text.

Definition _split_chunks (text : pystr) : list pystr :=
  _split (_munge_whitespace text).

(** The inner loop of [_wrap_chunks]: pop the chunks that fit. *)
Fixpoint take_fitting (width cur_len : nat) (chunks : list pystr)
  : list pystr * nat * list pystr :=
  match chunks with
  | [] => ([], cur_len, [])
  | c :: rest =>
      if (cur_len + length c <=? width)%nat then
        let '(line, n, r) := take_fitting width (cur_len + length c) rest in
        (c :: line, n, r)
      else ([], cur_len, chunks)
  end.

(** [chunk.rfind] of a dash between 0 and [stop]. *)
Fixpoint rfind_dash (chunk : pystr) (stop : nat) : option nat :=
  match stop, chunk with
  | S stop', c :: chunk' =>
      match rfind_dash chunk' stop' with
      | Some i => Some (S i)
      | None => if is_dash c then Some O else None
      end
  | _, _ => None
  end.

(** Where [_handle_long_word] cuts the chunk. *)
Definition break_point (chunk : pystr) (space_left : nat) : nat :=
  if (space_left <? length chunk)%nat then
    match rfind_dash chunk space_left with
    | Some hyphen =>
        if (0 <? hyphen)%nat && existsb (fun c => negb (is_dash c)) (take hyphen chunk)
        then S hyphen else space_left
    | None => space_left
    end
  else space_left.

(** Drop the last chunk of the line when it is blank. *)
Definition drop_trailing_blank (cur_line : list pystr) : list pystr :=
  match last cur_line with
  | Some c => if all_space c then removelast cur_line else cur_line
  | None => cur_line
  end.

(** One line of [_wrap_chunks] ([1 <= width]): the chunks of the line and
    the chunks left. *)
Definition wrap_line (width : nat) (started : bool) (chunks : list pystr)
  : list pystr * list pystr :=
  let chunks1 :=
    match chunks with
    | c :: rest => if all_space c && started then rest else chunks
    | [] => []
    end in
  let '(cur_line, cur_len, chunks2) := take_fitting width 0 chunks1 in
  let '(cur_line, chunks3) :=
    match chunks2 with
    | c :: rest =>
        if (width <? length c)%nat then
          let e := break_point c (width - cur_len) in
          (cur_line ++ [take e c], drop e c :: rest)
        else (cur_line, chunks2)
    | [] => (cur_line, [])
    end in
  (drop_trailing_blank cur_line, chunks3).

(** Number of iterations that surely exhaust the chunks: every line
    consumes a chunk or a character. *)
Definition chunks_measure (chunks : list pystr) : nat :=
  fold_right (fun c n => S (length c + n)) O chunks.

Fixpoint wrap_loop (fuel width : nat) (started : bool) (chunks : list pystr)
  : list pystr :=
  match fuel with
  | O => []
  | S fuel' =>
      match chunks with
      | [] => []
      | _ =>
          let '(cur_line, chunks') := wrap_line width started chunks in
          match cur_line with
          | [] => wrap_loop fuel' width started chunks'
          | _ => concat cur_line :: wrap_loop fuel' width true chunks'
          end
      end
  end.

Definition show_int (z : Z) : string := NilEmpty.string_of_int (Z.to_int z).

Definition _wrap_chunks (width : Z) (chunks : list pystr) : result (list pystr) :=
  if width <=? 0 then
    Raise (ValueError ("invalid width " ++ show_int width ++ " (must be > 0)"))
  else Ok (wrap_loop (chunks_measure chunks) (Z.to_nat width) false chunks).

Definition textwrap_wrap (text : pystr) (width : Z) : result (list pystr) :=
  _wrap_chunks width (_split_chunks text).

(** ** format_table *)

Definition LEFT : Z := 0.
Definition CENTER : Z := 1.
Definition RIGHT : Z := 2.

(** The caller's lists live in a store of list objects; [rows] and [columns]
    are lists of references into it, so that the insertion of the headers
    into the caller's columns, and aliasing between them, is visible. *)
Definition loc : Type := positive.

Abbreviation store := (gmap positive (list pystr)).

(** The argument [alignment]: [None], an integer, or a list of integers. *)
Inductive alignment_arg : Type :=
| AlignNone
| AlignInt (a : Z)
| AlignList (l : list Z).

(** Truth value of an optional list argument: [None] and [[]] are false. *)
Definition truthy {A} (o : option (list A)) : bool :=
  match o with
  | Some (_ :: _) => true
  | _ => false
  end.

(** [for i, col in enumerate(columns): col.insert(0, headers[i])] on the
    caller's list objects, from index [i] on. *)
Fixpoint insert_headers (i : nat) (columns : list loc) (headers : list pystr)
    (σ : store) : store * result unit :=
  match columns with
  | [] => (σ, Ok tt)
  | col :: columns' =>
      match headers !! i with
      | Some h => insert_headers (S i) columns' headers (<[col := h :: σ !!! col]> σ)
      | None => (σ, Raise IndexError)
      end
  end.

(** The same loop on the fresh lists built by [_transpose]. *)
Fixpoint insert_headers_fresh (i : nat) (columns : list (list pystr))
    (headers : list pystr) : result (list (list pystr)) :=
  match columns with
  | [] => Ok []
  | col :: columns' =>
      match headers !! i with
      | Some h =>
          let* cols := insert_headers_fresh (S i) columns' headers in
          Ok ((h :: col) :: cols)
      | None => Raise IndexError
      end
  end.

(** The default, broadcast or checked alignment list. *)
Definition resolve_alignment (alignment : alignment_arg) (ncols : nat)
  : result (list Z) :=
  match alignment with
  | AlignNone => Ok (replicate ncols LEFT)
  | AlignInt a => if a =? 0 then Ok (replicate ncols LEFT) else Ok (replicate ncols a)
  | AlignList [] => Ok (replicate ncols LEFT)
  | AlignList l =>
      if negb (len l =? Z.of_nat ncols) then
        Raise (ValueError "Must give an alignment for every column.")
      else Ok l
  end.

(** The natural widths: the longest cell of each column. *)
Definition natural_widths (columns : list (list pystr)) : result (list Z) :=
  mapM (fun col => py_max (map len col)) columns.

(** The widths when [wrap] is set: the excess over the available width is
    taken from the columns in proportion to the cubes of their widths. *)
Definition shrink_widths (terminal_width padding : Z) (ncols : nat)
    (col_widths : list Z) : result (list Z) :=
  let available_width := terminal_width - padding * Z.of_nat ncols in
  let n := 3 in
  let sum_widths := py_sum (map (fun w => w ^ n) col_widths) in
  let subtract := Z.max (py_sum col_widths - available_width) 0 in
  mapM (fun w =>
          let* x := int_minus_quotient w (subtract * w ^ n) sum_widths in
          py_round x)
       col_widths.

Definition column_widths (terminal_width padding : Z) (wrap : bool)
    (columns : list (list pystr)) : result (list Z) :=
  let* col_widths := natural_widths columns in
  if wrap then shrink_widths terminal_width padding (length columns) col_widths
  else Ok col_widths.

(** [for column, width in zip(columns, col_widths)]: every cell wrapped to
    the width of its column. *)
Fixpoint wrap_columns (columns : list (list pystr)) (col_widths : list Z)
  : result (list (list (list pystr))) :=
  match columns, col_widths with
  | column :: columns', width :: col_widths' =>
      let* wrapped := mapM (fun cell => textwrap_wrap cell width) column in
      let* rest := wrap_columns columns' col_widths' in
      Ok (wrapped :: rest)
  | _, _ => Ok []
  end.

Definition justify (align : Z) (s : pystr) (width : Z) : result pystr :=
  if align =? LEFT then Ok (ljust s width)
  else if align =? RIGHT then Ok (rjust s width)
  else if align =? CENTER then Ok (center s width)
  else Raise (ValueError "Alignment must be LEFT = 0, CENTER = 1, RIGHT = 2").

(** Line [i] of a row: [for cell, width, align in zip(row, col_widths,
    alignment)]. *)
Fixpoint build_line (padding : Z) (i : nat) (row : list (list pystr))
    (col_widths alignment : list Z) (line : pystr) : result pystr :=
  match row, col_widths, alignment with
  | cell :: row', width :: col_widths', align :: alignment' =>
      let* j := justify align (nth i cell []) width in
      build_line padding i row' col_widths' alignment' (line ++ j ++ spaces padding)
  | _, _, _ => Ok line
  end.

(** The lines of one row of wrapped cells, the shorter cells being filled
    with empty lines. *)
Definition row_lines (padding : Z) (col_widths alignment : list Z)
    (row : list (list pystr)) : result (list pystr) :=
  let* n_lines := py_max (map len row) in
  let row := map (fun cell => cell ++ replicate (Z.to_nat (n_lines - len cell)) []) row in
  mapM (fun i => build_line padding i row col_widths alignment [])
       (seq 0 (Z.to_nat n_lines)).

Definition newline : pystr := [ascii_of_N 10].

(** [format_table] once the columns are known and carry their headers. *)
Definition render_table (terminal_width : Z) (columns : list (list pystr))
    (padding : Z) (alignment : alignment_arg) (wrap : bool) : result pystr :=
  if forallb (fun col => len col =? 0) columns then Ok []
  else
    let* alignment := resolve_alignment alignment (length columns) in
    let* col_widths := column_widths terminal_width padding wrap columns in
    let* wrapped_columns := wrap_columns columns col_widths in
    let wrapped_rows := _transpose wrapped_columns in
    let* lines := mapM (row_lines padding col_widths alignment) wrapped_rows in
    Ok (join newline (concat lines)).

(** The head of [format_table]: the two tests on [rows] and [columns], the
    transposition of the rows and the insertion of the headers. It leaves the
    store of the caller's lists and the columns to lay out. *)
Definition table_columns (rows columns : option (list loc))
    (headers : option (list pystr)) (σ : store)
  : store * result (list (list pystr)) :=
  if truthy rows && truthy columns then
    (σ, Raise (ValueError "Cannot give both rows and columns as input."))
  else
    match columns, rows with
    | Some (c :: cs), _ =>
        let columns := c :: cs in
        let '(σ', r) :=
          if truthy headers then insert_headers 0 columns (default [] headers) σ
          else (σ, Ok tt) in
        (σ', let* _ := r in Ok (map (fun col => σ' !!! col) columns))
    | _, Some (r :: rs) =>
        let columns := _transpose (map (fun row => σ !!! row) (r :: rs)) in
        (σ,
         if truthy headers then insert_headers_fresh 0 columns (default [] headers)
         else Ok columns)
    | _, _ => (σ, Raise (ValueError "Must give either rows or columns as input."))
    end.

(** [format_table(rows, columns, headers, padding, alignment, wrap)] in a
    terminal of [terminal_width] columns, from the store [σ] of the caller's
    lists: the store it leaves and its result. *)
Definition format_table (terminal_width : Z) (rows columns : option (list loc))
    (headers : option (list pystr)) (padding : Z) (alignment : alignment_arg)
    (wrap : bool) (σ : store) : store * result pystr :=
  let '(σ', r) := table_columns rows columns headers σ in
  (σ',
   let* columns := r in
   render_table terminal_width columns padding alignment wrap).

(** ** The daemon and its proxy *)

Module Start.
Inductive t : Type := Ok | AlreadyRunning | Failed.
End Start.

Module Stop.
Inductive t : Type := Ok | NotRunning | Killed.
End Stop.

Inductive LifecycleState : Type :=
| NotRunning | Starting | Running | Stopping | Killed.

Abbreviation daemon_table := (gmap string LifecycleState).

(** The liveness check: a daemon that was never started, or was stopped or
    killed, is not running. *)
Definition is_running (daemons : daemon_table) (config_name : string) : bool :=
  match daemons !! config_name with
  | Some Running => true
  | _ => false
  end.

(** Modelled from the spec: [stop_maestral_daemon_process] of
    [maestral.daemon], which is not among the sources. From [Running] it
    requests a graceful shutdown and reports [Ok], or, when the daemon does
    not exit within the grace period, terminates it and reports [Killed];
    otherwise it reports [NotRunning] and changes nothing. *)
Definition stop_maestral_daemon_process (exits_gracefully : bool)
    (config_name : string) (daemons : daemon_table) : Stop.t * daemon_table :=
  if is_running daemons config_name then
    if exits_gracefully then (Stop.Ok, <[config_name := NotRunning]> daemons)
    else (Stop.Killed, <[config_name := Killed]> daemons)
  else (Stop.NotRunning, daemons).

(** Modelled from the spec: [start_maestral_daemon_process] and
    [start_maestral_daemon_thread] of [maestral.daemon], which are not among
    the sources. A running daemon is reported as [AlreadyRunning] and left
    alone; otherwise the launch makes it [Running] and reports [Ok], or fails,
    leaves it [NotRunning] and reports [Failed]. *)
Definition start_maestral_daemon (launch_succeeds : bool)
    (config_name : string) (daemons : daemon_table) : Start.t * daemon_table :=
  if is_running daemons config_name then (Start.AlreadyRunning, daemons)
  else if launch_succeeds then (Start.Ok, <[config_name := Running]> daemons)
  else (Start.Failed, <[config_name := NotRunning]> daemons).

(** The operations of the proxy that the commands below call. *)
Inductive proxy_op : Type :=
| GetAuthUrl
| Link (code : string)
| PendingLink
| PendingDropboxFolder
| CreateDropboxDirectory (path : string)
| ListFolder (path : string)
| SetExcludedItems (items : list string)
| SetLogToStdout (verbose : bool)
| StartSync
| PauseSync
| ResumeSync
| RebuildIndex
| GetStatus
| GetRunning
| GetSyncErrors
| GetFatalErrors
| GetState (section key : string)
| GetFileStatus (local_path : string)
| GetActivity
| IncludeItem (dropbox_path : string)
| SetNotificationSnooze (minutes : Z).

Inductive curses_op : Type :=
| UseDefaultColors
| NoDelay
| Clear
| AddStr (text : string)
| Refresh
| GetCh (key : Z).

(** What a command does, as seen from outside, in order. *)
Inductive event : Type :=
| Echo (message : string) (nl : bool)
| StopDaemonProcess (config_name : string) (res : Stop.t)
| StartDaemonProcess (config_name : string) (res : Start.t)
| StartDaemonThread (config_name : string) (res : Start.t)
| ProxyAcquired (config_name : string)
| ProxyCall (config_name : string) (op : proxy_op)
| Prompt (text : string)
| Confirm (text : string)
| SelectDbxPathDialog (config_name : string) (allow_merge : bool)
| JoinThread (config_name : string)
| Curses (op : curses_op)
| Sleep (seconds : Z).

(** What the daemon answers through the proxy during a command. *)
Record daemon_view : Type := {
  v_auth_url : string;
  v_pending_link : bool;
  v_pending_dropbox_folder : bool;
  v_folders : list (string * string * string); (* tag, path_display, path_lower *)
  v_fatal_errors : list (string * string);     (* title, message *)
  v_sync_errors : list (string * string * string); (* dbx_path, title, message *)
  v_status : string;
  v_running : bool;
  v_email : string;
  v_usage : string;
  v_file_status : string
}.

(** One tick of the activity view: what the daemon reports and the key that
    [getch] finds (negative when no key is pressed). *)
Record tick : Type := {
  t_uploading : list (string * string);   (* dbx_path, status *)
  t_downloading : list (string * string);
  t_status : string;
  t_sync_errors : nat;
  t_key : Z
}.

(** The world a command runs in: the daemons, the trace of what the command
    has done, and what the outside will answer. [fault] makes the proxy call
    after the next [n] raise the given exception (a severed transport or an
    error of the sync engine). *)
Record world : Type := {
  daemons : daemon_table;
  trace : list event;
  exits_gracefully : bool;
  launch_succeeds : bool;
  fault : option (nat * exn);
  view : daemon_view;
  link_results : list Z;
  confirms : list bool;
  prompts : list string;
  chosen_path : string;
  terminal_width : Z;
  ticks : list tick
}.

Definition set_daemons (d : daemon_table) (w : world) : world :=
  {| daemons := d; trace := trace w; exits_gracefully := exits_gracefully w;
     launch_succeeds := launch_succeeds w; fault := fault w; view := view w;
     link_results := link_results w; confirms := confirms w;
     prompts := prompts w; chosen_path := chosen_path w;
     terminal_width := terminal_width w; ticks := ticks w |}.

Definition set_trace (t : list event) (w : world) : world :=
  {| daemons := daemons w; trace := t; exits_gracefully := exits_gracefully w;
     launch_succeeds := launch_succeeds w; fault := fault w; view := view w;
     link_results := link_results w; confirms := confirms w;
     prompts := prompts w; chosen_path := chosen_path w;
     terminal_width := terminal_width w; ticks := ticks w |}.

Definition set_fault (f : option (nat * exn)) (w : world) : world :=
  {| daemons := daemons w; trace := trace w; exits_gracefully := exits_gracefully w;
     launch_succeeds := launch_succeeds w; fault := f; view := view w;
     link_results := link_results w; confirms := confirms w;
     prompts := prompts w; chosen_path := chosen_path w;
     terminal_width := terminal_width w; ticks := ticks w |}.

Definition set_link_results (l : list Z) (w : world) : world :=
  {| daemons := daemons w; trace := trace w; exits_gracefully := exits_gracefully w;
     launch_succeeds := launch_succeeds w; fault := fault w; view := view w;
     link_results := l; confirms := confirms w;
     prompts := prompts w; chosen_path := chosen_path w;
     terminal_width := terminal_width w; ticks := ticks w |}.

Definition set_confirms (l : list bool) (w : world) : world :=
  {| daemons := daemons w; trace := trace w; exits_gracefully := exits_gracefully w;
     launch_succeeds := launch_succeeds w; fault := fault w; view := view w;
     link_results := link_results w; confirms := l;
     prompts := prompts w; chosen_path := chosen_path w;
     terminal_width := terminal_width w; ticks := ticks w |}.

Definition set_prompts (l : list string) (w : world) : world :=
  {| daemons := daemons w; trace := trace w; exits_gracefully := exits_gracefully w;
     launch_succeeds := launch_succeeds w; fault := fault w; view := view w;
     link_results := link_results w; confirms := confirms w;
     prompts := l; chosen_path := chosen_path w;
     terminal_width := terminal_width w; ticks := ticks w |}.

(** ** Commands as state transformers that may raise *)

Definition cli (A : Type) : Type := world -> world * result A.

Definition ret {A} (a : A) : cli A := fun w => (w, Ok a).

Definition raise {A} (e : exn) : cli A := fun w => (w, Raise e).

Definition cbind {A B} (m : cli A) (k : A -> cli B) : cli B :=
  fun w =>
    match m w with
    | (w', Ok a) => k a w'
    | (w', Raise e) => (w', Raise e)
    end.

Notation "'do' x <- m ; k" := (cbind m (fun x => k))
  (at level 10, x name, m at level 100, k at level 200,
   format "'[v' 'do'  x  <-  m ; '/' k ']'").

Notation "m ;; k" := (cbind m (fun _ => k))
  (at level 100, k at level 200, right associativity).

(** [try: m except: handler], the handler choosing the exceptions it
    catches. *)
Definition try_except {A} (m : cli A) (handler : exn -> option (cli A)) : cli A :=
  fun w =>
    match m w with
    | (w', Raise e) =>
        match handler e with
        | Some k => k w'
        | None => (w', Raise e)
        end
    | r => r
    end.

Definition emit (e : event) : cli unit :=
  fun w => (set_trace (trace w ++ [e]) w, Ok tt).

Definition ask {A} (f : world -> A) : cli A := fun w => (w, Ok (f w)).

Definition lift {A} (r : result A) : cli A := fun w => (w, r).

(** ** Output helpers *)

Definition esc : string := String (ascii_of_N 27) "".
Definition cr : string := String (ascii_of_N 13) "".
Definition nl_string : string := String (ascii_of_N 10) "".

(** [click.style(text, fg=...)] for the two colours in use. *)
Definition style_green (text : string) : string := esc ++ "[32m" ++ text ++ esc ++ "[0m".
Definition style_red (text : string) : string := esc ++ "[31m" ++ text ++ esc ++ "[0m".

Definition OK : string := style_green "[OK]".
Definition FAILED : string := style_red "[FAILED]".
Definition KILLED : string := style_red "[KILLED]".

Definition echo (message : string) : cli unit := emit (Echo message true).
Definition echo_no_nl (message : string) : cli unit := emit (Echo message false).

(** [click.confirm] and [click.prompt] read the next answer; at the end of
    the input click aborts the command. *)
Definition confirm (text : string) : cli bool :=
  emit (Confirm text) ;;
  fun w =>
    match confirms w with
    | b :: rest => (set_confirms rest w, Ok b)
    | [] => (w, Raise Abort)
    end.

Definition prompt (text : string) : cli string :=
  emit (Prompt text) ;;
  fun w =>
    match prompts w with
    | s :: rest => (set_prompts rest w, Ok s)
    | [] => (w, Raise Abort)
    end.

(** ** The proxy *)

(** Modelled from the spec: [MaestralProxy(config_name)] of
    [maestral.daemon], in strict mode (no fallback). When no daemon is
    running for the configuration the proxy cannot be reached: acquiring it
    raises the communication error that the commands catch. *)
Definition MaestralProxy (config_name : string) : cli unit :=
  fun w =>
    if is_running (daemons w) config_name then emit (ProxyAcquired config_name) w
    else (w, Raise CommunicationError).

(** A call through the proxy: it reaches the daemon unless the daemon is gone
    or the pending [fault] strikes. *)
Definition proxy_call (config_name : string) (op : proxy_op) : cli unit :=
  fun w =>
    if is_running (daemons w) config_name then
      match fault w with
      | Some (O, e) => (set_fault None w, Raise e)
      | Some (S n, e) => emit (ProxyCall config_name op) (set_fault (Some (n, e)) w)
      | None => emit (ProxyCall config_name op) w
      end
    else (w, Raise CommunicationError).

(** Reading a property or calling a method that returns a value. *)
Definition proxy_get {A} (config_name : string) (op : proxy_op)
    (f : daemon_view -> A) : cli A :=
  proxy_call config_name op ;; ask (fun w => f (view w)).

(** ** Dialogs and checks *)

(** The calls into [maestral.daemon], recorded in the trace with their
    results. *)
Definition call_stop_daemon (config_name : string) : cli Stop.t :=
  fun w =>
    let '(res, d) := stop_maestral_daemon_process
                       (exits_gracefully w) config_name (daemons w) in
    (set_trace (trace w ++ [StopDaemonProcess config_name res]) (set_daemons d w),
     Ok res).

Definition call_start_daemon (foreground : bool) (config_name : string)
  : cli Start.t :=
  fun w =>
    let '(res, d) := start_maestral_daemon
                       (launch_succeeds w) config_name (daemons w) in
    let e := if foreground then StartDaemonThread config_name res
             else StartDaemonProcess config_name res in
    (set_trace (trace w ++ [e]) (set_daemons d w), Ok res).

Definition stop_daemon_with_cli_feedback (config_name : string) : cli unit :=
  echo_no_nl "Stopping Maestral..." ;;
  do res <- call_stop_daemon config_name ;
  match res with
  | Stop.Ok => echo (cr ++ "Stopping Maestral...        " ++ OK)
  | Stop.NotRunning => echo "Maestral daemon is not running."
  | Stop.Killed => echo (cr ++ "Stopping Maestral...        " ++ KILLED)
  end.

Definition dq : string := String (ascii_of_N 34) "".

(** [str.lstrip()] and [str.strip()]. *)
Fixpoint lstrip (s : pystr) : pystr :=
  match s with
  | c :: s' => if is_py_space c then lstrip s' else s
  | [] => []
  end.

Definition strip (s : string) : string :=
  string_of_list_ascii (rev (lstrip (rev (lstrip (list_ascii_of_string s))))).

(** [m.link(auth_code)]: the next answer of Dropbox, 0 once the answers are
    used up. *)
Definition link (config_name auth_code : string) : cli Z :=
  proxy_call config_name (Link auth_code) ;;
  fun w =>
    match link_results w with
    | r :: rest => (set_link_results rest w, Ok r)
    | [] => (w, Ok 0)
    end.

(** The loop of [link_dialog]; each round reads one answer of the user, so
    one more round than there are answers ends it. *)
Fixpoint link_dialog_loop (fuel : nat) (config_name : string) : cli unit :=
  match fuel with
  | O => raise Abort
  | S fuel' =>
      do auth_code <- prompt "Enter the authorization token here" ;
      do res <- link config_name (strip auth_code) ;
      (if res =? 1 then echo (style_red "Invalid token. Please try again.")
       else if res =? 2 then
         echo (style_red "Could not connect to Dropbox. Please try again.")
       else ret tt) ;;
      if res =? 0 then ret tt else link_dialog_loop fuel' config_name
  end.

Definition link_dialog (config_name : string) : cli unit :=
  do authorize_url <- proxy_get config_name GetAuthUrl v_auth_url ;
  echo ("1. Go to: " ++ authorize_url) ;;
  echo ("2. Click " ++ dq ++ "Allow" ++ dq ++ " (you may have to log in first).") ;;
  echo "3. Copy the authorization token." ;;
  fun w => link_dialog_loop (S (length (prompts w))) config_name w.

(** [textwrap.fill]. *)
Definition textwrap_fill (text : string) (width : Z) : result string :=
  let* lines := textwrap_wrap (list_ascii_of_string text) width in
  Ok (string_of_list_ascii (join newline lines)).

Definition check_for_fatal_errors (config_name : string) : cli bool :=
  do maestral_err_list <- proxy_get config_name GetFatalErrors v_fatal_errors ;
  match maestral_err_list with
  | (err_title, err_msg) :: _ =>
      do width <- ask terminal_width ;
      do wrapped_msg <- lift (textwrap_fill err_msg width) ;
      echo "" ;;
      echo (style_red err_title) ;;
      echo (style_red wrapped_msg) ;;
      echo "" ;;
      ret true
  | [] => ret false
  end.

(** The folder dialog walks the file system until the user settles on a
    path; only its outcome matters here, and it is an input. *)
Definition select_dbx_path_dialog (config_name : string) (allow_merge : bool)
  : cli string :=
  emit (SelectDbxPathDialog config_name allow_merge) ;; ask chosen_path.

Definition catch_maestral_errors {A} (func : cli A) : cli A :=
  try_except func
    (fun e =>
       match e with
       | MaestralApiError title message =>
           Some (raise (ClickException (title ++ ": " ++ message)))
       | ConnectionError => Some (raise (ClickException "Could not connect to Dropbox."))
       | _ => None
       end).

(** ** Life-cycle commands *)

(** The questions of [start] about the top-level folders. *)
Fixpoint ask_exclusions (entries : list (string * string * string))
  : cli (list string) :=
  match entries with
  | [] => ret []
  | (tag, path_display, path_lower) :: entries' =>
      if String.eqb tag "FolderMetadata" then
        do yes <- confirm ("Exclude " ++ dq ++ path_display ++ dq ++ " from sync?") ;
        do rest <- ask_exclusions entries' ;
        ret (if yes then path_lower :: rest else rest)
      else ask_exclusions entries'
  end.

(** What [start] does once the daemon is up. The command then waits for the
    daemon thread when it runs in the foreground; the model ends where the
    wait begins. *)
Definition start_setup (foreground verbose : bool) (config_name : string)
  : cli unit :=
  MaestralProxy config_name ;;
  do pending_link <- proxy_get config_name PendingLink v_pending_link ;
  (if pending_link then link_dialog config_name else ret tt) ;;
  do pending_folder <-
    proxy_get config_name PendingDropboxFolder v_pending_dropbox_folder ;
  (if pending_folder then
     do path <- select_dbx_path_dialog config_name true ;
     proxy_call config_name (CreateDropboxDirectory path) ;;
     do exclude_folders_q <-
       confirm "Would you like to exclude any folders from syncing?" ;
     if exclude_folders_q then
       echo ("Please choose which top-level folders to exclude. You can exclude"
             ++ nl_string ++
             "individual files or subfolders later with " ++ dq ++
             "maestral excluded add" ++ dq ++ "." ++ nl_string) ;;
       do entries <- proxy_get config_name (ListFolder "/") v_folders ;
       do excluded_items <- ask_exclusions entries ;
       proxy_call config_name (SetExcludedItems excluded_items)
     else ret tt
   else ret tt) ;;
  proxy_call config_name (SetLogToStdout verbose) ;;
  proxy_call config_name StartSync ;;
  if foreground then emit (JoinThread config_name) else ret tt.

Definition start (foreground verbose : bool) (config_name : string) : cli unit :=
  catch_maestral_errors
    (echo_no_nl "Starting Maestral..." ;;
     do res <- call_start_daemon foreground config_name ;
     match res with
     | Start.Ok =>
         echo (cr ++ "Starting Maestral...        " ++ OK) ;;
         start_setup foreground verbose config_name
     | Start.AlreadyRunning =>
         echo (cr ++ "Starting Maestral...        Already running.")
     | Start.Failed =>
         echo (cr ++ "Starting Maestral...        " ++ FAILED) ;;
         echo "Please check logs for more information."
     end).

Definition stop (config_name : string) : cli unit :=
  stop_daemon_with_cli_feedback config_name.

(** [ctx.forward(start)] calls [start] with the parameters of [restart]. *)
Definition restart (foreground verbose : bool) (config_name : string) : cli unit :=
  stop_daemon_with_cli_feedback config_name ;;
  start foreground verbose config_name.

(** ** Commands that need a running daemon (strict proxy) *)

Definition except_not_running {A} (body : cli A) (handler : cli A) : cli A :=
  try_except body
    (fun e => match e with CommunicationError => Some handler | _ => None end).

Definition pause (config_name : string) : cli unit :=
  except_not_running
    (MaestralProxy config_name ;;
     proxy_call config_name PauseSync ;;
     echo "Syncing paused.")
    (echo "Maestral daemon is not running.").

Definition resume (config_name : string) : cli unit :=
  except_not_running
    (MaestralProxy config_name ;;
     do fatal <- check_for_fatal_errors config_name ;
     if fatal then ret tt
     else proxy_call config_name ResumeSync ;; echo "Syncing resumed.")
    (echo "Maestral daemon is not running.").

Definition status (config_name : string) : cli unit :=
  catch_maestral_errors
    (except_not_running
       (MaestralProxy config_name ;;
        do errs <- proxy_get config_name GetSyncErrors v_sync_errors ;
        let n_errors := len errs in
        let n_errors_str :=
          if 0 <? n_errors then style_red (show_int n_errors)
          else style_green (show_int n_errors) in
        echo "" ;;
        do email <- proxy_get config_name (GetState "account" "email") v_email ;
        echo ("Account:      " ++ email) ;;
        do usage <- proxy_get config_name (GetState "account" "usage") v_usage ;
        echo ("Usage:        " ++ usage) ;;
        do st <- proxy_get config_name GetStatus v_status ;
        echo ("Status:       " ++ st) ;;
        do running <- proxy_get config_name GetRunning v_running ;
        echo ("Sync threads: " ++ (if running : bool then "Running" else "Stopped")) ;;
        echo ("Sync errors:  " ++ n_errors_str) ;;
        echo "" ;;
        check_for_fatal_errors config_name ;;
        do sync_err_list <- proxy_get config_name GetSyncErrors v_sync_errors ;
        if 0 <? len sync_err_list then
          let headers := [str_of "PATH"; str_of "ERROR"] in
          let col0 := map (fun err => str_of ("'" ++ err.1.1 ++ "'")) sync_err_list in
          let col1 := map (fun err => str_of (err.1.2 ++ ". " ++ err.2)) sync_err_list in
          do width <- ask terminal_width ;
          do table <-
            lift (format_table width None (Some [1%positive; 2%positive])
                    (Some headers) 2 AlignNone true
                    (<[1%positive := col0]> (<[2%positive := col1]> ∅))).2 ;
          echo (string_of_list_ascii table) ;;
          echo ""
        else ret tt)
       (echo "Maestral daemon is not running.")).

Definition file_status (local_path config_name : string) : cli unit :=
  except_not_running
    (MaestralProxy config_name ;;
     do fatal <- check_for_fatal_errors config_name ;
     if fatal then ret tt
     else
       do stat <- proxy_get config_name (GetFileStatus local_path) v_file_status ;
       echo stat)
    (echo "unwatched").

Definition rebuild_index (config_name : string) : cli unit :=
  catch_maestral_errors
    (except_not_running
       (MaestralProxy config_name ;;
        do width <- ask terminal_width ;
        do msg <-
          lift (textwrap_fill
                  ("Rebuilding the index may take several minutes, depending on the size of "
                   ++ "your Dropbox. Any changes to local files will be synced once rebuilding "
                   ++ "has completed. If you stop the daemon during the process, rebuilding "
                   ++ "will start again on the next launch.")
                  width) ;
        echo (msg ++ nl_string) ;;
        do go <- confirm "Do you want to continue?" ;
        if go then proxy_call config_name RebuildIndex else raise Abort)
       (echo "Maestral daemon is not running.")).

(** The path with a leading slash, as the commands on Dropbox paths make
    it. *)
Definition with_leading_slash (dropbox_path : string) : string :=
  if String.prefix "/" dropbox_path then dropbox_path
  else ("/" ++ dropbox_path)%string.

Definition excluded_remove (dropbox_path config_name : string) : cli unit :=
  catch_maestral_errors
    (let dropbox_path := with_leading_slash dropbox_path in
     if String.eqb dropbox_path "/" then
       echo (style_red "The root directory is always included.")
     else
       except_not_running
         (MaestralProxy config_name ;;
          do fatal <- check_for_fatal_errors config_name ;
          if fatal then ret tt
          else
            proxy_call config_name (IncludeItem dropbox_path) ;;
            echo ("Included '" ++ dropbox_path ++ "'. Now downloading..."))
         (raise (ClickException "Maestral daemon must be running to download folders."))).

(** [try ... except ... else]: the [else] branch runs when the body raised
    nothing. *)
Definition notify_snooze (minutes : Z) (config_name : string) : cli unit :=
  do reached <-
    except_not_running
      (MaestralProxy config_name ;;
       proxy_call config_name (SetNotificationSnooze minutes) ;;
       ret true)
      (echo "Maestral daemon is not running." ;; ret false) ;
  if reached : bool then
    if 0 <? minutes then
      echo ("Notifications snoozed for " ++ show_int minutes ++ " min. "
            ++ "Set snooze to 0 to reset.")
    else echo "Notifications enabled."
  else ret tt.

(** ** The activity view *)

(** [os.path.basename]: what follows the last slash. *)
Fixpoint basename_chars (s : pystr) : pystr :=
  match s with
  | [] => []
  | c :: s' =>
      if existsb (fun x => (code x =? 47)%N) s' then basename_chars s'
      else if (code c =? 47)%N then s' else s
  end.

Definition basename (p : string) : string :=
  string_of_list_ascii (basename_chars (list_ascii_of_string p)).

Definition ljust_string (s : string) (width : Z) : string :=
  string_of_list_ascii (ljust (list_ascii_of_string s) width).

Inductive loop_end : Type :=
| QuitKey          (* the loop was left through [break] *)
| StillLooping.    (* the ticks given are used up and the loop goes on *)

(** The text that one tick puts on the screen. *)
Definition activity_lines (t : tick) : list string :=
  let up := t_uploading t in
  let down := t_downloading t in
  let lines :=
    [("Status: " ++ t_status t ++ ", Sync errors: "
      ++ show_int (Z.of_nat (t_sync_errors t)))%string;
     ("Uploading: " ++ show_int (len up) ++ ", Downloading: "
      ++ show_int (len down))%string;
     ""] in
  let up := ("UPLOADING", "STATUS") :: up ++ [("", "")] in
  let down := ("DOWNLOADING", "STATUS") :: down in
  let file_names := map (fun entry => basename entry.1) (up ++ down) in
  let states := map snd (up ++ down) in
  let col_len := fold_left (fun n fn => Z.max (Z.of_nat (String.length fn)) n) file_names 0 in
  lines ++ map (fun '(fn, s) => (ljust_string fn (col_len + 2) ++ s)%string)
               (zip file_names states).

(** One round of the [while True] loop of [curses_loop]; [true] when the loop
    goes round again. An error of [addstr] is swallowed by the source, so the
    round goes on either way. *)
Definition curses_iteration (config_name : string) (t : tick) : cli bool :=
  proxy_call config_name GetActivity ;;
  proxy_call config_name GetStatus ;;
  proxy_call config_name GetSyncErrors ;;
  emit (Curses Clear) ;;
  emit (Curses (AddStr (String.concat nl_string (activity_lines t)))) ;;
  emit (Curses Refresh) ;;
  let key := t_key t in
  emit (Curses (GetCh key)) ;;
  if key =? 113 then ret false
  else if key <? 0 then emit (Sleep 1) ;; ret true
  else ret true.

Fixpoint curses_iterations (config_name : string) (ts : list tick) : cli loop_end :=
  match ts with
  | [] => ret StillLooping
  | t :: ts' =>
      do again <- curses_iteration config_name t ;
      if again : bool then curses_iterations config_name ts' else ret QuitKey
  end.

Definition curses_loop (config_name : string) : cli loop_end :=
  emit (Curses UseDefaultColors) ;;
  emit (Curses NoDelay) ;;
  fun w => curses_iterations config_name (ticks w) w.

Definition activity (config_name : string) : cli unit :=
  except_not_running
    (MaestralProxy config_name ;;
     do fatal <- check_for_fatal_errors config_name ;
     if fatal then ret tt
     else curses_loop config_name ;; ret tt)
    (echo "Maestral daemon is not running.").

(** ** The caller errors in the words of the specification *)

Definition supplied {A} (o : option A) : bool :=
  match o with Some _ => true | None => false end.

Definition known_tag (a : Z) : bool := (a =? LEFT) || (a =? CENTER) || (a =? RIGHT).

(** The malformed inputs of the specification: both or neither of rows and
    columns supplied, an alignment sequence whose length is not the number of
    columns, or an alignment tag other than the three known ones. *)
Definition spec_caller_error (rows columns : option (list loc))
    (alignment : alignment_arg) (ncols : nat) : bool :=
  (supplied rows && supplied columns)
  || (negb (supplied rows) && negb (supplied columns))
  || match alignment with
     | AlignNone => false
     | AlignInt a => negb (known_tag a)
     | AlignList l => negb (length l =? ncols)%nat || negb (forallb known_tag l)
     end.

Definition is_value_error {A} (r : result A) : bool :=
  match r with Raise (ValueError _) => true | _ => false end.

(** The four errors that [format_table] raises itself. *)
Definition both_error : exn := ValueError "Cannot give both rows and columns as input.".
Definition neither_error : exn := ValueError "Must give either rows or columns as input.".
Definition count_error : exn := ValueError "Must give an alignment for every column.".
Definition tag_error : exn :=
  ValueError "Alignment must be LEFT = 0, CENTER = 1, RIGHT = 2".

(** The errors that the layout of the columns can raise besides the two
    alignment errors of [format_table]: those of [max], of [textwrap.wrap]
    and of the arithmetic on the widths. *)
Definition layout_error (e : exn) : Prop :=
  e = ValueError "max() arg is an empty sequence" \/
  (exists w, e = ValueError ("invalid width " ++ show_int w ++ " (must be > 0)")) \/
  e = ZeroDivisionError \/ e = OverflowError.

(** ** Wrapping in the words of the specification *)

(** [str.split()] without argument: the words between runs of white space;
    [cur_rev] is the word being read. *)
Fixpoint words_from (cur_rev s : pystr) : list pystr :=
  match s with
  | [] => match cur_rev with [] => [] | _ => [rev cur_rev] end
  | c :: s' =>
      if is_py_space c then
        match cur_rev with
        | [] => words_from [] s'
        | _ => rev cur_rev :: words_from [] s'
        end
      else words_from (c :: cur_rev) s'
  end.

Definition py_split (s : pystr) : list pystr := words_from [] s.

Definition space : pystr := [" "%char].

(** Collapsing the white space of a text: its words joined by single
    spaces. *)
Definition collapse (s : pystr) : pystr := join space (py_split s).

(** A character that the wrapper treats in the simple way: not a dash, which
    may break a word in two, and white space for [str.strip] only if it is
    white space for the wrapper. *)
Definition plain_char (c : ascii) : bool :=
  negb (is_dash c) && Bool.eqb (is_py_space c) (is_tw_space c).

(** The chunks that are words. *)
Definition words_of (chunks : list pystr) : list pystr :=
  filter (fun c => all_space c = false) chunks.

Definition no_space (chunk : pystr) : bool :=
  forallb (fun c => negb (is_py_space c)) chunk.

(** What the chunks of a text without dashes look like: none is empty, each
    is blank or free of white space, and no two words are adjacent. *)
Definition chunk_ok (c : pystr) : Prop :=
  c <> [] /\ (all_space c = true \/ no_space c = true).

Fixpoint separated (chunks : list pystr) : Prop :=
  match chunks with
  | a :: (b :: _) as rest => (all_space a = true \/ all_space b = true) /\ separated rest
  | _ => True
  end.

(** A character of a text without dashes, once its white space is munged: a
    space, or neither white space nor a dash. *)
Definition simple_char (c : ascii) : Prop :=
  c = " "%char \/ (is_py_space c = false /\ is_dash c = false).

(** ** Notions used in the proofs about wrapping *)

Definition total_length (chunks : list pystr) : nat := length (concat chunks).

Definition flush (cur_rev : pystr) (words : list pystr) : list pystr :=
  match cur_rev with
  | [] => words
  | _ => rev cur_rev :: words
  end.

(** The chunks of a text whose words fit the width. *)
Definition fits (width : nat) (c : pystr) : Prop :=
  all_space c = false -> (length c <= width)%nat.

Definition wrappable (width : nat) (chunks : list pystr) : Prop :=
  Forall chunk_ok chunks /\ separated chunks /\ Forall (fits width) chunks.

Definition munge_char (c : ascii) : ascii := if is_tw_space c then " "%char else c.

(** The state of [split_loop] on a text without dashes: in a run of spaces
    or in a run of other characters. *)
Definition split_state_ok (kind : chunk_kind) (cur : pystr) : Prop :=
  cur = [] \/
  (kind = KSpace /\ all_space cur = true) \/
  (kind = KWord /\ no_space cur = true).

(** ** Life-cycle commands in the words of the specification *)

(** The message that reports the outcome of a stop. *)
Definition stop_feedback (res : Stop.t) : string :=
  match res with
  | Stop.Ok => cr ++ "Stopping Maestral...        " ++ OK
  | Stop.NotRunning => "Maestral daemon is not running."
  | Stop.Killed => cr ++ "Stopping Maestral...        " ++ KILLED
  end.

(** A command that leaves the daemons as they are and only adds to the
    trace. *)
Definition keeps_daemons {A} (m : cli A) : Prop :=
  forall w, daemons (m w).1 = daemons w /\ exists rest, trace (m w).1 = trace w ++ rest.

(** A command from which no error of the transport layer escapes. *)
Definition never_communication_error {A} (m : cli A) : Prop :=
  forall w, (m w).2 <> Raise CommunicationError.

(** ** The commands that take the proxy without fallback *)

Inductive strict_command : Type :=
| CmdPause
| CmdResume
| CmdStatus
| CmdFileStatus (local_path : string)
| CmdActivity
| CmdRebuildIndex
| CmdExcludedRemove (dropbox_path : string)
| CmdNotifySnooze (minutes : Z).

Definition run_strict (cmd : strict_command) (config_name : string) : cli unit :=
  match cmd with
  | CmdPause => pause config_name
  | CmdResume => resume config_name
  | CmdStatus => status config_name
  | CmdFileStatus local_path => file_status local_path config_name
  | CmdActivity => activity config_name
  | CmdRebuildIndex => rebuild_index config_name
  | CmdExcludedRemove dropbox_path => excluded_remove dropbox_path config_name
  | CmdNotifySnooze minutes => notify_snooze minutes config_name
  end.

(** The outcome that the specification promises for such a command when the
    daemon is not running: a normal return after one plain message, the
    not-running message or the degraded value of [file_status]. *)
Definition plain_not_running_outcome (w : world) (out : world * result unit) : Prop :=
  out.2 = Ok tt /\
  exists message,
    trace out.1 = trace w ++ [Echo message true] /\
    (message = "Maestral daemon is not running." \/ message = "unwatched").

(** ** The activity loop in the words of the specification *)

(** What one tick does: the three reads from the daemon, the redraw, one
    poll of the keyboard, and a sleep of one second when no key was found. *)
Definition iteration_events (config_name : string) (t : tick) : list event :=
  [ProxyCall config_name GetActivity;
   ProxyCall config_name GetStatus;
   ProxyCall config_name GetSyncErrors;
   Curses Clear;
   Curses (AddStr (String.concat nl_string (activity_lines t)));
   Curses Refresh;
   Curses (GetCh (t_key t))]
  ++ (if t_key t <? 0 then [Sleep 1] else []).

Definition is_quit (t : tick) : bool := t_key t =? 113.

(** The ticks that run: all of them up to the first quit key, included. *)
Fixpoint ticks_run (ts : list tick) : list tick :=
  match ts with
  | [] => []
  | t :: ts' => if is_quit t then [t] else t :: ticks_run ts'
  end.

Definition is_getch (e : event) : bool :=
  match e with Curses (GetCh _) => true | _ => false end.

Definition is_sleep (e : event) : bool :=
  match e with Sleep _ => true | _ => false end.

(** ** Worlds for the examples *)

Definition quiet_view : daemon_view :=
  {| v_auth_url := ""; v_pending_link := false; v_pending_dropbox_folder := false;
     v_folders := []; v_fatal_errors := []; v_sync_errors := [];
     v_status := "Up to date"; v_running := true; v_email := ""; v_usage := "";
     v_file_status := "up to date" |}.

(** A world where the daemons are [d], nothing has happened yet, launches
    succeed and the daemon exits when asked to. *)
Definition world_with (d : daemon_table) (ts : list tick) : world :=
  {| daemons := d; trace := []; exits_gracefully := true; launch_succeeds := true;
     fault := None; view := quiet_view; link_results := []; confirms := [];
     prompts := []; chosen_path := ""; terminal_width := 80; ticks := ts |}.

(** Three ticks of the activity view: no key, the quit key, and a tick that
    never runs. *)
Definition three_ticks : list tick :=
  [ {| t_uploading := [("/a/photo.jpg", "uploading")]; t_downloading := [];
       t_status := "Syncing"; t_sync_errors := 0; t_key := -1 |};
    {| t_uploading := []; t_downloading := []; t_status := "Up to date";
       t_sync_errors := 0; t_key := 113 |};
    {| t_uploading := []; t_downloading := []; t_status := "Up to date";
       t_sync_errors := 0; t_key := -1 |} ].

(** ** The widths in the words of the specification *)

Definition cube (w : Z) : Z := w ^ 3.

(** The widths as the specification words them, without the clamp: the
    natural widths when they fit, and otherwise each natural width minus its
    share of the excess, the share being its cube over the sum of the cubes,
    rounded to the nearest integer (ties to even, as [round] does). *)
Definition spec_widths (terminal_width padding : Z) (natural : list Z) : list Z :=
  let available := terminal_width - padding * len natural in
  if py_sum natural <=? available then natural
  else
    let excess := py_sum natural - available in
    let cubes := py_sum (map cube natural) in
    map (fun w => rne_div (w * cubes - excess * cube w) cubes) natural.

(** ** The scenario of the specification *)

Definition alice_bob : list (list pystr) :=
  [[str_of "alice"; str_of "bob"]; [str_of "30"; str_of "7"]].

(** The store of the scenario: the two columns at the references 1 and 2. *)
Definition alice_bob_store : store :=
  <[1%positive := [str_of "alice"; str_of "bob"]]>
    (<[2%positive := [str_of "30"; str_of "7"]]> ∅).

(** ** Notions for the further properties of the table *)

(** The length of the shortest list, where [zip] stops. *)
Definition shortest {T} (ll : list (list T)) : nat :=
  match ll with
  | [] => O
  | l :: ll' => fold_right Nat.min (length l) (map length ll')
  end.

(** A cell of wrapped lines that fit the width [w]. *)
Definition cell_fits (cell : list pystr) (w : Z) : Prop :=
  0 <= w /\ Forall (fun line => len line <= w) cell.

(** An alignment that [format_table] accepts for [ncols] columns: none, a
    known tag, the empty list, or one known tag for every column. *)
Definition valid_alignment (alignment : alignment_arg) (ncols : nat) : bool :=
  match alignment with
  | AlignNone => true
  | AlignInt a => known_tag a
  | AlignList [] => true
  | AlignList l => (length l =? ncols)%nat && forallb known_tag l
  end.

(** A cell that the wrapper leaves as it is when it fits: not empty, no
    white space of the wrapper but the space itself, and no white space at
    its end. *)
Definition tidy (cell : pystr) : bool :=
  match last cell with
  | Some c => negb (is_py_space c)
  | None => false
  end
  && forallb (fun c => negb (is_tw_space c) || (code c =? 32)%N) cell.

(** A cell justified in its column, for the three known tags. *)
Definition justify_cell (align : Z) (s : pystr) (width : Z) : pystr :=
  if align =? LEFT then ljust s width
  else if align =? RIGHT then rjust s width
  else center s width.

(** One line of the plain grid: every cell justified in its column and
    followed by the padding. *)
Fixpoint grid_line (padding : Z) (row : list pystr) (col_widths alignment : list Z)
  : pystr :=
  match row, col_widths, alignment with
  | cell :: row', width :: col_widths', align :: alignment' =>
      justify_cell align cell width ++ spaces padding
      ++ grid_line padding row' col_widths' alignment'
  | _, _, _ => []
  end.

(** ** The order of the commands in the help

    [SpecialHelpOrder] keeps a help priority for every command that was
    registered through it, and lists the commands by priority, then name. *)

(** The order of Python on the tuples [(priority, command)]: by priority,
    then by name, character by character. *)
Definition key_leb (a b : Z * string) : bool :=
  (a.1 <? b.1) || ((a.1 =? b.1) && String.leb a.2 b.2).

(** [sorted] on such tuples. The order is total and two tuples that compare
    equal are the same, so the sorted list does not depend on how it is
    found; it is built by insertion here. *)
Fixpoint insert_sorted (x : Z * string) (l : list (Z * string)) : list (Z * string) :=
  match l with
  | [] => [x]
  | y :: l' => if key_leb x y then x :: l else y :: insert_sorted x l'
  end.

Definition py_sorted (l : list (Z * string)) : list (Z * string) :=
  fold_right insert_sorted [] l.

(** [help_priorities.get(command, 1)]. *)
Definition help_priority_of (help_priorities : gmap string Z) (command : string) : Z :=
  default 1 (help_priorities !! command).

(** [SpecialHelpOrder.list_commands_for_help], from the commands that
    [click.Group.list_commands] gives. *)
Definition list_commands_for_help (help_priorities : gmap string Z)
    (commands : list string) : list string :=
  map snd (py_sorted (map (fun command =>
                             (help_priority_of help_priorities command, command))
                          commands)).

(** What the decorators [command] and [group] of [SpecialHelpOrder] record
    for the command [name]: the given [help_priority], 1 when there is
    none. *)
Definition register_help_priority (name : string) (help_priority : option Z)
    (help_priorities : gmap string Z) : gmap string Z :=
  <[name := default 1 help_priority]> help_priorities.

(** ** The commands that check for fatal errors first *)

(** The commands that return as soon as [check_for_fatal_errors] finds an
    error; [excluded_remove] does so for a path that is not the root. *)
Definition checks_fatal_errors_first (cmd : strict_command) : bool :=
  match cmd with
  | CmdResume | CmdFileStatus _ | CmdActivity => true
  | CmdExcludedRemove dropbox_path =>
      negb (String.eqb (with_leading_slash dropbox_path) "/")
  | _ => false
  end.

(** What [check_for_fatal_errors] prints for an error. *)
Definition fatal_error_block (err_title wrapped_msg : string) : list event :=
  [Echo "" true; Echo (style_red err_title) true;
   Echo (style_red wrapped_msg) true; Echo "" true].

(** ** Further worlds for the examples *)

Definition set_view (v : daemon_view) (w : world) : world :=
  {| daemons := daemons w; trace := trace w; exits_gracefully := exits_gracefully w;
     launch_succeeds := launch_succeeds w; fault := fault w; view := v;
     link_results := link_results w; confirms := confirms w;
     prompts := prompts w; chosen_path := chosen_path w;
     terminal_width := terminal_width w; ticks := ticks w |}.

(** A daemon whose access to Dropbox was revoked. *)
Definition revoked_view : daemon_view :=
  {| v_auth_url := ""; v_pending_link := false; v_pending_dropbox_folder := false;
     v_folders := [];
     v_fatal_errors := [("Dropbox access revoked", "Please link Maestral again.")];
     v_sync_errors := [];
     v_status := "Paused"; v_running := false; v_email := ""; v_usage := "";
     v_file_status := "unwatched" |}.

(** ** The link dialog in closed form *)

(** What one round of [link_dialog] does for the answer [auth_code] of the
    user when [m.link] returns [res]. *)
Definition link_attempt (config_name : string) (auth_code : string) (res : Z)
  : list event :=
  [Prompt "Enter the authorization token here";
   ProxyCall config_name (Link (strip auth_code))]
  ++ (if res =? 1 then [Echo (style_red "Invalid token. Please try again.") true]
      else if res =? 2 then
        [Echo (style_red "Could not connect to Dropbox. Please try again.") true]
      else []).

(** The three instructions that [link_dialog] prints first. *)
Definition link_instructions (config_name authorize_url : string) : list event :=
  [ProxyCall config_name GetAuthUrl;
   Echo ("1. Go to: " ++ authorize_url) true;
   Echo ("2. Click " ++ dq ++ "Allow" ++ dq ++ " (you may have to log in first).") true;
   Echo "3. Copy the authorization token." true].

(** ** The questions about the folders in closed form *)

(** A listing entry is a tag, the displayed path and the path in lower
    case. *)
Definition is_folder (entry : string * string * string) : bool :=
  String.eqb entry.1.1 "FolderMetadata".

Definition exclusion_question (entry : string * string * string) : event :=
  Confirm ("Exclude " ++ dq ++ entry.1.2 ++ dq ++ " from sync?").

(** ** The table of the activity view *)

(** The rows of the table: the header of the uploads, the uploads, an empty
    row, the header of the downloads, the downloads. *)
Definition activity_rows (t : tick) : list (string * string) :=
  ("UPLOADING", "STATUS") :: (t_uploading t ++ [("", "")])
  ++ ("DOWNLOADING", "STATUS") :: t_downloading t.

(** ** The dialog for the Dropbox folder

    [select_dbx_path_dialog] with the file system in view. The operations on
    paths that it calls are not among the sources; the dialog is modelled for
    any such operations, on any kind of file system. *)

Inductive dialog_choice : Type := Replace | Merge | Cancel.

(** [osp.exists], [maestral.utils.path.delete], whose boolean tells that it
    gave an error, and [osp.expanduser]. *)
Record path_ops (FS : Type) : Type := {
  path_exists : FS -> string -> bool;
  path_delete : string -> FS -> bool * FS;
  expanduser : string -> string
}.

Arguments path_exists {FS} _ _ _.
Arguments path_delete {FS} _ _ _.
Arguments expanduser {FS} _ _.

(** The file system, what the user will answer to the three kinds of
    questions, and what the dialog has printed. *)
Record dialog_state (FS : Type) : Type := {
  d_fs : FS;
  d_paths : list string;
  d_choices : list dialog_choice;
  d_confirms : list bool;
  d_echoed : list string
}.

Arguments d_fs {FS} _.
Arguments d_paths {FS} _.
Arguments d_choices {FS} _.
Arguments d_confirms {FS} _.
Arguments d_echoed {FS} _.

(** [res.rstrip(osp.sep)]. *)
Fixpoint lstrip_sep (s : pystr) : pystr :=
  match s with
  | c :: s' => if (code c =? 47)%N then lstrip_sep s' else s
  | [] => []
  end.

Definition rstrip_sep (s : string) : string :=
  string_of_list_ascii (rev (lstrip_sep (rev (list_ascii_of_string s)))).

(** [s or default]. *)
Definition or_default (default s : string) : string :=
  if String.eqb s "" then default else s.

(** The path for an answer to the prompt: the prompt gives the default for
    an empty answer, the separators at the end are stripped, and the default
    stands in again for what is empty then. *)
Definition chosen_location {FS} (ops : path_ops FS) (default answer : string) : string :=
  expanduser ops (or_default default (rstrip_sep (or_default default answer))).

(** The question about a folder that exists: a choice when merging is
    allowed, a confirmation otherwise. At the end of the input there is no
    answer. *)
Definition next_choice {FS} (allow_merge : bool) (st : dialog_state FS)
  : option (dialog_choice * dialog_state FS) :=
  if allow_merge then
    match d_choices st with
    | c :: cs =>
        Some (c, {| d_fs := d_fs st; d_paths := d_paths st; d_choices := cs;
                    d_confirms := d_confirms st; d_echoed := d_echoed st |})
    | [] => None
    end
  else
    match d_confirms st with
    | b :: bs =>
        Some (if b then Replace else Cancel,
              {| d_fs := d_fs st; d_paths := d_paths st; d_choices := d_choices st;
                 d_confirms := bs; d_echoed := d_echoed st |})
    | [] => None
    end.

Definition no_permission_message (dropbox_path : string) : string :=
  "Could not write to location " ++ dq ++ dropbox_path ++ dq
  ++ ". Please make sure that you have sufficient permissions.".

(** The loop of the dialog; every round reads an answer to the prompt, and
    click aborts at the end of the input. *)
Fixpoint select_dbx_path_loop {FS} (ops : path_ops FS) (allow_merge : bool)
    (default : string) (fuel : nat) (st : dialog_state FS)
  : dialog_state FS * result string :=
  match fuel with
  | O => (st, Raise Abort)
  | S fuel' =>
      match d_paths st with
      | [] => (st, Raise Abort)
      | answer :: paths =>
          let st := {| d_fs := d_fs st; d_paths := paths; d_choices := d_choices st;
                       d_confirms := d_confirms st; d_echoed := d_echoed st |} in
          let dropbox_path := chosen_location ops default answer in
          if path_exists ops (d_fs st) dropbox_path then
            match next_choice allow_merge st with
            | None => (st, Raise Abort)
            | Some (Replace, st) =>
                let '(err, fs) := path_delete ops dropbox_path (d_fs st) in
                let st := {| d_fs := fs; d_paths := d_paths st;
                             d_choices := d_choices st; d_confirms := d_confirms st;
                             d_echoed := d_echoed st |} in
                if err : bool then
                  select_dbx_path_loop ops allow_merge default fuel'
                    {| d_fs := d_fs st; d_paths := d_paths st;
                       d_choices := d_choices st; d_confirms := d_confirms st;
                       d_echoed := d_echoed st ++ [no_permission_message dropbox_path] |}
                else (st, Ok dropbox_path)
            | Some (Merge, st) => (st, Ok dropbox_path)
            | Some (Cancel, st) =>
                select_dbx_path_loop ops allow_merge default fuel' st
            end
          else (st, Ok dropbox_path)
      end
  end.

(** [select_dbx_path_dialog], [default] being the folder in the home
    directory that the source offers. *)
Definition select_dbx_path_dialog_on {FS} (ops : path_ops FS) (allow_merge : bool)
    (default : string) (st : dialog_state FS) : dialog_state FS * result string :=
  select_dbx_path_loop ops allow_merge default (S (length (d_paths st))) st.

(** A file system that is the list of the paths that exist; [delete] removes
    the path and cannot fail. *)
Definition listed_paths : path_ops (list string) :=
  {| path_exists := fun fs p => existsb (String.eqb p) fs;
     path_delete := fun p fs => (false, List.filter (fun q => negb (String.eqb p q)) fs);
     expanduser := fun p => p |}.

(** ** The insertion of the headers, in the words of the specification *)



(** The wrapped columns yield a line: some cell of some row of the table
    wraps to at least one line. Only then does [format_table] look at the
    alignment tags. *)
Definition builds_a_line (wrapped_columns : list (list (list pystr))) : Prop :=
  exists row cell, row ∈ _transpose wrapped_columns /\ cell ∈ row /\ cell <> [].

(** ** Every command that takes the proxy without fallback *)

(** The commands of [cli.py] that take the proxy in strict mode: the eight
    above, which do it in a [try] block with a handler for the communication
    error, and [start] and [restart], which do it once the daemon is
    launched, through [get_maestral_proxy] and with no handler. *)
Inductive proxy_command : Type :=
| WithHandler (cmd : strict_command)
| CmdStart (foreground verbose : bool)
| CmdRestart (foreground verbose : bool).

Definition run_proxy_command (cmd : proxy_command) (config_name : string)
  : cli unit :=
  match cmd with
  | WithHandler cmd' => run_strict cmd' config_name
  | CmdStart foreground verbose => start foreground verbose config_name
  | CmdRestart foreground verbose => restart foreground verbose config_name
  end.

(** The transport holds: no pending fault of the world is a communication
    error. *)
Definition transport_holds (w : world) : Prop :=
  forall n, fault w <> Some (n, CommunicationError).

(** A command that, with the daemon running and the transport holding,
    raises no communication error and leaves both as they are. *)
Definition undisturbed (config_name : string) {A} (m : cli A) : Prop :=
  forall w, is_running (daemons w) config_name = true -> transport_holds w ->
    (m w).2 <> Raise CommunicationError /\
    daemons (m w).1 = daemons w /\
    transport_holds (m w).1.

(** A world with no daemon where the transport breaks at the first call
    through the proxy. *)
Definition severed_world : world :=
  set_fault (Some (0%nat, CommunicationError)) (world_with ∅ []).

(** * Properties *)

(** ** Rounding *)

Lemma rne_div_mul (k d : Z) : 0 < d -> rne_div (k * d) d = k.
Proof.
  intros Hd. unfold rne_div.
  rewrite Z.div_mul, Z.mod_mul by lia.
  destruct (2 * 0 <? d) eqn:E; [reflexivity|].
  apply Z.ltb_ge in E. lia.
Qed.

(** The rounded quotient is within half a unit of the exact one. *)
Lemma rne_div_err (n d : Z) : 0 < d -> 2 * Z.abs (rne_div n d * d - n) <= d.
Proof.
  intros Hd. unfold rne_div.
  pose proof (Z.div_mod n d ltac:(lia)) as Hdm.
  pose proof (Z.mod_pos_bound n d Hd) as Hr.
  destruct (2 * (n mod d) <? d) eqn:E1.
  - apply Z.ltb_lt in E1. nia.
  - apply Z.ltb_ge in E1.
    destruct (d <? 2 * (n mod d)) eqn:E2.
    + apply Z.ltb_lt in E2. nia.
    + apply Z.ltb_ge in E2. destruct (Z.even (n / d)); nia.
Qed.

Lemma rne_div_le (n d k : Z) : 0 < d -> k * d <= n -> k <= rne_div n d.
Proof.
  intros Hd Hk. unfold rne_div.
  assert (k <= n / d) by (apply Z.div_le_lower_bound; lia).
  repeat match goal with |- context [if ?b then _ else _] => destruct b end; lia.
Qed.

Lemma rne_div_ge (n d k : Z) : 0 < d -> n <= k * d -> rne_div n d <= k.
Proof.
  intros Hd Hk.
  pose proof (rne_div_err n d Hd) as He.
  destruct (Z_le_gt_dec (rne_div n d) k) as [|Hgt]; [assumption|exfalso].
  assert (d <= rne_div n d * d - k * d) by nia.
  assert (Hn : n = k * d \/ n < k * d) by lia.
  destruct Hn as [-> | Hn]; [rewrite rne_div_mul in Hgt by assumption; lia|].
  nia.
Qed.

Lemma pow2_pos (e : Z) : 0 <= e -> 0 < 2 ^ e.
Proof. intros. apply Z.pow_pos_nonneg; lia. Qed.

(** The rounding position of a number below [2^53 * 2^e] is at most [e]. *)
Lemma round_position_le (x e : Z) :
  0 <= e -> 0 <= x < 2 ^ 53 * 2 ^ e -> 0 <= Z.max (Z.log2 x - 52) 0 <= e.
Proof.
  intros He [Hx0 Hx]. split; [lia|].
  apply Z.max_lub; [|assumption].
  destruct (Z.eq_dec x 0) as [->|Hne]; [simpl; lia|].
  rewrite <- Z.pow_add_r in Hx by lia.
  apply Z.log2_lt_pow2 in Hx; lia.
Qed.

(** A multiple of [2^e] with a significand of at most 53 bits is
    representable: rounding returns it unchanged. *)
Lemma round_units_exact (m e d : Z) :
  0 < d -> 0 <= e -> Z.abs m < 2 ^ 53 ->
  round_units (m * 2 ^ e * d) d = m * 2 ^ e.
Proof.
  intros Hd He Hm. unfold round_units.
  pose proof (pow2_pos e He) as Hpe.
  assert (Habs : Z.abs (m * 2 ^ e * d) / d = Z.abs m * 2 ^ e).
  { rewrite !Z.abs_mul, (Z.abs_eq d), (Z.abs_eq (2 ^ e)) by lia.
    apply Z.div_mul. lia. }
  rewrite Habs.
  set (s := Z.max (Z.log2 (Z.abs m * 2 ^ e) - 52) 0).
  assert (Hs : 0 <= s <= e).
  { apply round_position_le; [assumption|]. split; [lia|].
    apply Z.mul_lt_mono_pos_r; lia. }
  pose proof (pow2_pos s ltac:(lia)) as Hps.
  replace (2 ^ e) with (2 ^ (e - s) * 2 ^ s)
    by (rewrite <- Z.pow_add_r by lia; f_equal; lia).
  replace (m * (2 ^ (e - s) * 2 ^ s) * d) with (m * 2 ^ (e - s) * (d * 2 ^ s)) by ring.
  rewrite rne_div_mul by lia. ring.
Qed.

(** The relative error of rounding is at most [2^-53], or half a unit for
    the smallest numbers. *)
Lemma round_units_err (t d : Z) :
  0 < d ->
  Z.abs (round_units t d * d - t) * 2 ^ 53 <= Z.max (Z.abs t) (d * 2 ^ 52).
Proof.
  intros Hd. unfold round_units.
  set (x := Z.abs t / d).
  set (s := Z.max (Z.log2 x - 52) 0).
  assert (Hs0 : 0 <= s) by (unfold s; lia).
  pose proof (pow2_pos s Hs0) as Hps.
  pose proof (rne_div_err t (d * 2 ^ s) ltac:(lia)) as He.
  replace (rne_div t (d * 2 ^ s) * 2 ^ s * d)
    with (rne_div t (d * 2 ^ s) * (d * 2 ^ s)) by ring.
  assert (Hb : d * 2 ^ s * 2 ^ 52 <= Z.max (Z.abs t) (d * 2 ^ 52)).
  { destruct (Z.eq_dec s 0) as [E|E]; [rewrite E; simpl (2 ^ 0); lia|].
    assert (Hx : 0 < x).
    { destruct (Z_lt_le_dec 0 x) as [|Hle]; [assumption|exfalso].
      assert (Hx0 : x = 0) by (unfold x in *; pose proof (Z.div_pos (Z.abs t) d); lia).
      apply E. unfold s. rewrite Hx0. reflexivity. }
    assert (Hsx : s + 52 = Z.log2 x) by (unfold s in *; lia).
    rewrite <- Z.mul_assoc, <- Z.pow_add_r, Hsx by lia.
    pose proof (Z.log2_spec x Hx) as [Hl _].
    pose proof (Z.mul_div_le (Z.abs t) d Hd). fold x in H.
    nia. }
  change (2 ^ 53) with (2 * 2 ^ 52). lia.
Qed.

Lemma units_per_one_pos : 0 < units_per_one.
Proof. unfold units_per_one. apply pow2_pos. lia. Qed.

Lemma check_overflow_finite (u : Z) :
  Z.abs u < overflow_threshold -> check_overflow u = Finite u.
Proof.
  intros H. unfold check_overflow.
  destruct (overflow_threshold <=? Z.abs u) eqn:E; [|reflexivity].
  apply Z.leb_le in E. lia.
Qed.

Lemma pow2_53_lt_1024 : 2 ^ 53 < 2 ^ 1024.
Proof. apply Z.pow_lt_mono_r; lia. Qed.

(** Integers of at most 53 bits convert to float exactly. *)
Lemma round_units_int (w : Z) :
  Z.abs w < 2 ^ 53 -> round_units (w * units_per_one) 1 = w * units_per_one.
Proof.
  intros Hw. unfold units_per_one.
  replace (w * 2 ^ 1074) with (w * 2 ^ 1074 * 1) at 1 by ring.
  apply round_units_exact; lia.
Qed.

Lemma small_int_no_overflow (w : Z) :
  Z.abs w < 2 ^ 53 -> Z.abs (w * units_per_one) < overflow_threshold.
Proof.
  intros Hw. unfold overflow_threshold.
  pose proof units_per_one_pos. pose proof pow2_53_lt_1024.
  rewrite Z.abs_mul, (Z.abs_eq units_per_one) by lia. nia.
Qed.

Lemma float_of_int_small (w : Z) :
  Z.abs w < 2 ^ 53 -> float_of_int w = Ok (Finite (w * units_per_one)).
Proof.
  intros Hw. unfold float_of_int.
  rewrite round_units_int by assumption.
  rewrite check_overflow_finite by (apply small_int_no_overflow; assumption).
  reflexivity.
Qed.

Lemma round_units_zero (d : Z) : 0 < d -> round_units 0 d = 0.
Proof.
  intros Hd. replace 0 with (0 * 2 ^ 0 * d) at 1 by ring.
  rewrite round_units_exact; lia.
Qed.

Lemma int_true_div_zero (b : Z) : b <> 0 -> int_true_div 0 b = Ok (Finite 0).
Proof.
  intros Hb. unfold int_true_div.
  destruct (b =? 0) eqn:E; [apply Z.eqb_eq in E; lia|].
  assert (Hu : (if 0 <? b then round_units (0 * units_per_one) b
                else round_units (- 0 * units_per_one) (- b)) = 0).
  { destruct (0 <? b) eqn:E'; simpl.
    - apply Z.ltb_lt in E'. apply round_units_zero. assumption.
    - apply Z.ltb_ge in E'. apply round_units_zero. lia. }
  rewrite Hu. reflexivity.
Qed.

Lemma py_round_int (w : Z) : py_round (Finite (w * units_per_one)) = Ok w.
Proof.
  simpl. f_equal. apply rne_div_mul. apply units_per_one_pos.
Qed.

(** Subtracting nothing: [round(w - 0 * w**3 / s)] is [w] for every width of
    at most 53 bits. *)
Lemma shrink_by_nothing (w sum_widths : Z) :
  Z.abs w < 2 ^ 53 -> sum_widths <> 0 ->
  (let* x := int_minus_quotient w (0 * w ^ 3) sum_widths in py_round x) = Ok w.
Proof.
  intros Hw Hs. unfold int_minus_quotient.
  rewrite Z.mul_0_l, int_true_div_zero by assumption. simpl.
  rewrite float_of_int_small by assumption. simpl.
  rewrite Z.sub_0_r, round_units_int by assumption.
  rewrite check_overflow_finite by (apply small_int_no_overflow; assumption).
  apply py_round_int.
Qed.

(** ** Sums and maxima of lengths *)

Lemma py_max_len_nonneg {A} (col : list (list A)) (w : Z) :
  py_max (map len col) = Ok w -> 0 <= w.
Proof.
  destruct col as [|c col]; simpl; [discriminate|].
  intros [= <-].
  assert (H : forall l x, 0 <= x -> 0 <= fold_left Z.max l x).
  { induction l as [|y l IH]; simpl; intros x Hx; [assumption|]. apply IH. lia. }
  apply H. unfold len. lia.
Qed.

Lemma fold_left_max_ge (l : list Z) (x : Z) : x <= fold_left Z.max l x.
Proof.
  revert x. induction l as [|y l IH]; simpl; intros x; [lia|].
  specialize (IH (Z.max x y)). lia.
Qed.

Lemma fold_left_max_elem (l : list Z) (x y : Z) :
  y ∈ l -> y <= fold_left Z.max l x.
Proof.
  revert x. induction l as [|z l IH]; simpl; intros x Hy.
  - inversion Hy.
  - apply elem_of_cons in Hy as [->|Hy].
    + pose proof (fold_left_max_ge l (Z.max x z)). lia.
    + apply IH. assumption.
Qed.

Lemma fold_left_max_in (l : list Z) (x : Z) :
  fold_left Z.max l x = x \/ fold_left Z.max l x ∈ l.
Proof.
  revert x. induction l as [|z l IH]; simpl; intros x; [left; reflexivity|].
  destruct (IH (Z.max x z)) as [H|H].
  - rewrite H. destruct (Z.max_spec x z) as [[_ ->]|[_ ->]].
    + right. apply list_elem_of_here.
    + left. reflexivity.
  - right. apply list_elem_of_further. assumption.
Qed.

(** [py_max] returns an element that bounds all the others. *)
Lemma py_max_spec (l : list Z) (m : Z) :
  py_max l = Ok m -> m ∈ l /\ forall y, y ∈ l -> y <= m.
Proof.
  destruct l as [|x l]; simpl; [discriminate|]. intros [= <-]. split.
  - destruct (fold_left_max_in l x) as [->|H].
    + apply list_elem_of_here.
    + apply list_elem_of_further. assumption.
  - intros y Hy. apply elem_of_cons in Hy as [->|Hy].
    + apply fold_left_max_ge.
    + apply fold_left_max_elem. assumption.
Qed.

Lemma mapM_length {A B} (f : A -> result B) (l : list A) (r : list B) :
  mapM f l = Ok r -> length r = length l.
Proof.
  revert r. induction l as [|x l IH]; simpl; intros r.
  - intros [= <-]. reflexivity.
  - destruct (f x); simpl; [|discriminate].
    destruct (mapM f l); simpl; [|discriminate].
    intros [= <-]. simpl. f_equal. apply IH. reflexivity.
Qed.

Lemma mapM_Forall2 {A B} (f : A -> result B) (l : list A) (r : list B) :
  mapM f l = Ok r -> Forall2 (fun x y => f x = Ok y) l r.
Proof.
  revert r. induction l as [|x l IH]; simpl; intros r.
  - intros [= <-]. constructor.
  - destruct (f x) eqn:E; simpl; [|discriminate].
    destruct (mapM f l); simpl; [|discriminate].
    intros [= <-]. constructor; [assumption|]. apply IH. reflexivity.
Qed.

Lemma Forall2_mapM {A B} (f : A -> result B) (l : list A) (r : list B) :
  Forall2 (fun x y => f x = Ok y) l r -> mapM f l = Ok r.
Proof.
  induction 1 as [|x y l r Hxy _ IH]; simpl; [reflexivity|].
  rewrite Hxy. simpl. rewrite IH. reflexivity.
Qed.

Lemma mapM_id_on {A} (f : A -> result A) (l : list A) :
  Forall (fun x => f x = Ok x) l -> mapM f l = Ok l.
Proof.
  induction 1 as [|x l Hx _ IH]; simpl; [reflexivity|].
  rewrite Hx. simpl. rewrite IH. reflexivity.
Qed.

(** ** One width, shrunk: bounds on the floating point computation *)

Lemma pow2_52_le_units : 2 ^ 52 <= units_per_one.
Proof. unfold units_per_one. apply Z.pow_le_mono_r; lia. Qed.

Lemma round_units_nonneg (t d : Z) : 0 < d -> 0 <= t -> 0 <= round_units t d.
Proof.
  intros Hd Ht. unfold round_units.
  set (s := Z.max _ 0).
  pose proof (pow2_pos s ltac:(unfold s; lia)).
  apply Z.mul_nonneg_nonneg; [|lia].
  apply rne_div_le; lia.
Qed.

Section OneWidth.

(** The width [w] of a column, the excess [E] to take from the table and
    the sum [S] of the cubes of all widths. *)
Variables w E S : Z.
Hypothesis Hw : 0 <= w.
Hypothesis HE : 0 <= E.
Hypothesis HS : 0 < S.
Hypothesis Hcube : w ^ 3 <= S.

Let U := units_per_one.
Let a := E * w ^ 3.
Let q := round_units (a * U) S.
Let r := round_units (w * U - q) 1.

Lemma quotient_bounds :
  E + 1 <= 2 ^ 53 ->
  0 <= q /\ Z.abs (q * S - a * U) * 2 ^ 53 <= (E + 1) * (S * U) /\ q <= (E + 1) * U.
Proof.
  intros HEb.
  pose proof units_per_one_pos as HU. fold U in HU.
  pose proof pow2_52_le_units as HU52. fold U in HU52.
  assert (Hw3 : 0 <= w ^ 3) by (apply Z.pow_nonneg; lia).
  assert (Ha : 0 <= a <= E * S) by (unfold a; nia).
  assert (Hq0 : 0 <= q) by (apply round_units_nonneg; nia).
  pose proof (round_units_err (a * U) S HS) as Herr. fold q in Herr.
  assert (Hmax : Z.max (Z.abs (a * U)) (S * 2 ^ 52) <= (E + 1) * (S * U)).
  { apply Z.max_lub.
    - rewrite Z.abs_eq by nia. nia.
    - assert (S * 2 ^ 52 <= S * U) by nia. nia. }
  assert (Herr' : Z.abs (q * S - a * U) * 2 ^ 53 <= (E + 1) * (S * U)) by lia.
  split; [assumption|]. split; [assumption|].
  assert (Hsu : 0 < S * U) by nia.
  assert (H1 : Z.abs (q * S - a * U) <= S * U).
  { apply Z.mul_le_mono_pos_r with (p := 2 ^ 53); [lia|].
    eapply Z.le_trans; [exact Herr'|].
    rewrite (Z.mul_comm (S * U)). apply Z.mul_le_mono_nonneg_r; lia. }
  assert (H2 : q * S <= (E + 1) * U * S) by nia.
  apply Z.mul_le_mono_pos_r in H2; assumption.
Qed.

Lemma difference_bounds :
  E + 1 <= 2 ^ 53 ->
  Z.abs (w * U - q) <= (w + E + 1) * U /\
  Z.abs (r - (w * U - q)) * 2 ^ 53 <= (w + E + 1) * U.
Proof.
  intros HEb.
  pose proof units_per_one_pos as HU. fold U in HU.
  pose proof pow2_52_le_units as HU52. fold U in HU52.
  destruct (quotient_bounds HEb) as (Hq0 & _ & Hq).
  assert (Hd : Z.abs (w * U - q) <= (w + E + 1) * U) by nia.
  split; [assumption|].
  pose proof (round_units_err (w * U - q) 1 ltac:(lia)) as Herr. fold r in Herr.
  rewrite Z.mul_1_r, Z.mul_1_l in Herr.
  assert (2 ^ 52 <= (w + E + 1) * U) by nia.
  lia.
Qed.

(** No operation overflows as long as the numbers stay below [2^53]. *)
Lemma shrink_one_runs :
  w + E + 1 <= 2 ^ 53 ->
  (let* x := int_minus_quotient w (E * w ^ 3) S in py_round x)
  = Ok (rne_div r U).
Proof.
  intros Hb.
  pose proof units_per_one_pos as HU. fold U in HU.
  pose proof pow2_53_lt_1024 as H1024.
  assert (HEb : E + 1 <= 2 ^ 53) by lia.
  destruct (quotient_bounds HEb) as (Hq0 & _ & Hq).
  destruct (difference_bounds HEb) as (Hd & Hr).
  unfold int_minus_quotient, int_true_div.
  destruct (S =? 0) eqn:E0; [apply Z.eqb_eq in E0; lia|].
  destruct (0 <? S) eqn:E1; [|apply Z.ltb_ge in E1; lia].
  fold U a q.
  rewrite check_overflow_finite; cycle 1.
  { unfold overflow_threshold. fold U. rewrite Z.abs_eq by assumption. nia. }
  simpl. rewrite float_of_int_small by lia. simpl. fold U r.
  rewrite check_overflow_finite; [reflexivity|].
  unfold overflow_threshold. fold U.
  assert (Z.abs (r - (w * U - q)) <= (w + E + 1) * U).
  { assert (0 <= (w + E + 1) * U) by nia.
    assert (Z.abs (r - (w * U - q)) * 1 <= Z.abs (r - (w * U - q)) * 2 ^ 53)
      by (apply Z.mul_le_mono_nonneg_l; lia).
    lia. }
  assert (Z.abs r <= 2 * ((w + E + 1) * U)) by lia.
  nia.
Qed.

End OneWidth.
Lemma rne_div_scale (n d c : Z) :
  0 < d -> 0 < c -> rne_div (n * c) (d * c) = rne_div n d.
Proof.
  intros Hd Hc. unfold rne_div.
  rewrite Z.div_mul_cancel_r by lia.
  rewrite Z.mul_mod_distr_r by lia.
  pose proof (Z.mod_pos_bound n d Hd).
  replace (2 * (n mod d * c) <? d * c) with (2 * (n mod d) <? d)
    by (apply eq_true_iff_eq; rewrite !Z.ltb_lt; nia).
  replace (d * c <? 2 * (n mod d * c)) with (d <? 2 * (n mod d))
    by (apply eq_true_iff_eq; rewrite !Z.ltb_lt; nia).
  reflexivity.
Qed.

Lemma rne_div_unique (n d k : Z) :
  0 < d -> (2 * k - 1) * d < 2 * n < (2 * k + 1) * d -> rne_div n d = k.
Proof.
  intros Hd [Hlo Hhi].
  pose proof (rne_div_err n d Hd) as He.
  assert (rne_div n d < k + 1) by nia.
  assert (k - 1 < rne_div n d) by nia.
  lia.
Qed.

Lemma rne_div_strict (n d : Z) :
  0 < d -> (2 * n) mod d <> 0 ->
  (2 * rne_div n d - 1) * d + 1 <= 2 * n <= (2 * rne_div n d + 1) * d - 1.
Proof.
  intros Hd Hm.
  pose proof (rne_div_err n d Hd) as He.
  assert (2 * n <> (2 * rne_div n d - 1) * d).
  { intros Heq. apply Hm. rewrite Heq. apply Z.mod_mul. lia. }
  assert (2 * n <> (2 * rne_div n d + 1) * d).
  { intros Heq. apply Hm. rewrite Heq. apply Z.mod_mul. lia. }
  lia.
Qed.

Section OneWidthResult.

Variables w E S : Z.
Hypothesis Hw : 0 <= w.
Hypothesis HE : 0 <= E.
Hypothesis HS : 0 < S.
Hypothesis Hcube : w ^ 3 <= S.

Let U := units_per_one.
Let a := E * w ^ 3.
Let q := round_units (a * U) S.
Let r := round_units (w * U - q) 1.

(** The rounded width exceeds the exact quotient by less than one. *)
Lemma shrink_one_upper :
  w < 2 ^ 50 -> E < 2 ^ 50 ->
  rne_div r U * S <= w * S - E * w ^ 3 + S.
Proof.
  intros Hwb HEb.
  pose proof units_per_one_pos as HU. fold U in HU.
  assert (HEb' : E + 1 <= 2 ^ 53) by lia.
  destruct (quotient_bounds w E S Hw HE HS Hcube HEb') as (Hq0 & He1 & Hq).
  destruct (difference_bounds w E S Hw HE HS Hcube HEb') as (Hd & He2).
  fold U a q in Hq0, He1, Hq, Hd, He2. fold r in He2.
  pose proof (rne_div_err r U HU) as He3.
  set (f := rne_div r U) in *.
  assert (Hsu : 0 < S * U) by nia.
  assert (H1 : 8 * Z.abs (q * S - a * U) <= S * U).
  { assert ((E + 1) * (S * U) <= 2 ^ 50 * (S * U))
      by (apply Z.mul_le_mono_nonneg_r; lia).
    change (2 ^ 53) with (8 * 2 ^ 50) in He1. lia. }
  assert (H2 : 4 * Z.abs (r - (w * U - q)) <= U).
  { assert ((w + E + 1) * U <= 2 ^ 51 * U)
      by (apply Z.mul_le_mono_nonneg_r; lia).
    change (2 ^ 53) with (4 * 2 ^ 51) in He2. lia. }
  assert (H3 : 8 * (f * U) * S <= 8 * r * S + 4 * U * S) by nia.
  assert (H4 : 8 * r * S <= 8 * (w * U - q) * S + 2 * U * S) by nia.
  assert (H5 : 8 * (f * S) * U < 8 * (w * S - a + S) * U) by nia.
  fold a. nia.
Qed.

(** For small tables the floating point computation is exact: the width is
    the exact quotient rounded to the nearest integer, ties to even. *)
Lemma shrink_one_exact :
  S * (w + E + 1) < 2 ^ 51 ->
  rne_div r U = rne_div (w * S - E * w ^ 3) S.
Proof.
  intros Hb.
  pose proof units_per_one_pos as HU. fold U in HU.
  assert (Hsmall : w + E + 1 < 2 ^ 51) by nia.
  assert (HEb' : E + 1 <= 2 ^ 53) by lia.
  assert (Hw3 : 0 <= w ^ 3) by (apply Z.pow_nonneg; lia).
  fold a. set (N := w * S - a).
  destruct (Z.eq_dec ((2 * N) mod S) 0) as [Hm|Hm].
  - (* the exact value is a multiple of one half: every step is exact *)
    apply Z.mod_divide in Hm; [|lia]. destruct Hm as [h' Hh'].
    set (h := 2 * w - h').
    assert (Hh : 2 * a = h * S) by (unfold h, N in *; lia).
    assert (Ha : 0 <= a <= E * S) by (unfold a; nia).
    assert (Hh0 : 0 <= h <= 2 * E) by nia.
    assert (HUeq : U = 2 * 2 ^ 1073) by reflexivity.
    assert (Hq : q = h * 2 ^ 1073).
    { unfold q. replace (a * U) with (h * 2 ^ 1073 * S) by (rewrite HUeq; lia).
      apply round_units_exact; lia. }
    assert (Hr : r = h' * 2 ^ 1073).
    { unfold r. rewrite Hq.
      replace (w * U - h * 2 ^ 1073) with (h' * 2 ^ 1073 * 1)
        by (rewrite HUeq; unfold h; lia).
      apply round_units_exact; lia. }
    rewrite Hr, HUeq.
    rewrite (rne_div_scale h' 2 (2 ^ 1073)) by (try apply pow2_pos; lia).
    rewrite <- (rne_div_scale N S 2) by lia.
    replace (N * 2) with (h' * S) by lia.
    rewrite (Z.mul_comm S 2). rewrite rne_div_scale by lia. reflexivity.
  - (* otherwise the error stays clear of the nearest half-integers *)
    destruct (quotient_bounds w E S Hw HE HS Hcube HEb') as (Hq0 & He1 & Hq).
    destruct (difference_bounds w E S Hw HE HS Hcube HEb') as (Hd & He2).
    fold U a q in Hq0, He1, Hq, Hd, He2. fold r in He2.
    pose proof (rne_div_strict N S HS Hm) as [Hlo Hhi].
    set (k := rne_div N S) in *.
    assert (Hsu : 0 < S * U) by nia.
    assert (H1 : Z.abs (r * S - N * U) <= S * Z.abs (r - (w * U - q))
                                          + Z.abs (q * S - a * U)).
    { replace (r * S - N * U)
        with (S * (r - (w * U - q)) - (q * S - a * U)) by (unfold N; ring).
      pose proof (Z.abs_triangle (S * (r - (w * U - q))) (- (q * S - a * U))).
      rewrite Z.abs_opp, Z.abs_mul, (Z.abs_eq S) in H by lia.
      replace (S * (r - (w * U - q)) - (q * S - a * U))
        with (S * (r - (w * U - q)) + - (q * S - a * U)) by ring.
      exact H. }
    assert (H2 : 2 ^ 53 * Z.abs (r * S - N * U) <= 2 * (S * (w + E + 1)) * U).
    { assert (S * (Z.abs (r - (w * U - q)) * 2 ^ 53) <= S * ((w + E + 1) * U))
        by (apply Z.mul_le_mono_nonneg_l; lia).
      assert ((E + 1) * (S * U) <= (w + E + 1) * (S * U))
        by (apply Z.mul_le_mono_nonneg_r; lia).
      lia. }
    assert (H3 : 2 * Z.abs (r * S - N * U) < U).
    { assert (2 * (S * (w + E + 1)) * U < 2 ^ 52 * U)
        by (apply Z.mul_lt_mono_pos_r; lia).
      change (2 ^ 53) with (2 * 2 ^ 52) in H2. lia. }
    apply rne_div_unique; [assumption|]. split.
    + assert (((2 * k - 1) * S + 1) * U <= 2 * N * U)
        by (apply Z.mul_le_mono_nonneg_r; lia).
      assert ((2 * k - 1) * U * S < 2 * r * S) by lia.
      apply Z.mul_lt_mono_pos_r with (p := S); assumption.
    + assert (2 * N * U <= ((2 * k + 1) * S - 1) * U)
        by (apply Z.mul_le_mono_nonneg_r; lia).
      assert (2 * r * S < (2 * k + 1) * U * S) by lia.
      apply Z.mul_lt_mono_pos_r with (p := S); assumption.
Qed.

End OneWidthResult.

(** ** The widths of a table *)

Lemma natural_widths_nonneg (columns : list (list pystr)) (natural : list Z) :
  natural_widths columns = Ok natural -> Forall (fun w => 0 <= w) natural.
Proof.
  intros H. apply mapM_Forall2 in H.
  induction H as [|col w cols ws Hw _ IH]; constructor; [|assumption].
  eapply py_max_len_nonneg. exact Hw.
Qed.

Lemma py_sum_cubes_nonneg (ws : list Z) :
  Forall (fun w => 0 <= w) ws -> 0 <= py_sum (map cube ws).
Proof.
  induction 1 as [|w ws Hw _ IH]; simpl; [lia|].
  assert (0 <= cube w) by (apply Z.pow_nonneg; assumption). lia.
Qed.

Lemma cube_le_sum (ws : list Z) (w : Z) :
  Forall (fun w => 0 <= w) ws -> w ∈ ws -> cube w <= py_sum (map cube ws).
Proof.
  induction 1 as [|x ws Hx Hws IH]; intros Hin; [inversion Hin|].
  simpl. pose proof (py_sum_cubes_nonneg ws Hws).
  assert (0 <= cube x) by (apply Z.pow_nonneg; assumption).
  apply elem_of_cons in Hin as [->|Hin]; [lia|].
  specialize (IH Hin). lia.
Qed.

Lemma mapM_map {A B} (f : A -> result B) (g : A -> B) (l : list A) :
  Forall (fun x => f x = Ok (g x)) l -> mapM f l = Ok (map g l).
Proof.
  induction 1 as [|x l Hx _ IH]; simpl; [reflexivity|].
  rewrite Hx. simpl. rewrite IH. reflexivity.
Qed.
Lemma len_mapM {A B} (f : A -> result B) (l : list A) (r : list B) :
  mapM f l = Ok r -> len r = len l.
Proof. intros H. unfold len. f_equal. eapply mapM_length. exact H. Qed.

(** Where the table fits, or is small enough for the double precision
    computation to be exact, the code computes the widths of the
    specification. *)
Lemma shrink_widths_spec (terminal_width padding : Z) (natural : list Z) :
  Forall (fun w => 0 <= w) natural ->
  let cubes := py_sum (map cube natural) in
  let excess := Z.max (py_sum natural - (terminal_width - padding * len natural)) 0 in
  cubes <> 0 ->
  Forall (fun w => cubes * (w + excess + 1) < 2 ^ 51) natural ->
  shrink_widths terminal_width padding (length natural) natural
  = Ok (spec_widths terminal_width padding natural).
Proof.
  intros Hnn cubes excess Hc Hsmall.
  pose proof (py_sum_cubes_nonneg natural Hnn) as Hc0. fold cubes in Hc0.
  assert (Hcpos : 0 < cubes) by lia.
  assert (Hex : 0 <= excess) by (unfold excess; lia).
  unfold shrink_widths. fold (len natural). fold cube. fold cubes excess.
  assert (Hstep : Forall (fun w =>
            (let* x := int_minus_quotient w (excess * w ^ 3) cubes in py_round x)
            = Ok (rne_div (w * cubes - excess * cube w) cubes)) natural).
  { rewrite Forall_forall. intros w Hin.
    pose proof (cube_le_sum natural w Hnn Hin) as Hcube. fold cubes in Hcube.
    rewrite Forall_forall in Hnn, Hsmall.
    pose proof (Hnn w Hin) as Hw. pose proof (Hsmall w Hin) as Hb. simpl in Hb.
    rewrite (shrink_one_runs w excess cubes Hw Hex Hcpos Hcube) by nia.
    f_equal. apply shrink_one_exact; assumption. }
  rewrite (mapM_map _ _ _ Hstep). f_equal.
  unfold spec_widths.
  destruct (py_sum natural <=? terminal_width - padding * len natural) eqn:Efit.
  - apply Z.leb_le in Efit.
    assert (Hz : excess = 0) by (unfold excess; lia).
    rewrite Hz. rewrite <- (map_id natural) at 2.
    apply map_ext. intros w. rewrite Z.mul_0_l, Z.sub_0_r.
    apply rne_div_mul. assumption.
  - apply Z.leb_gt in Efit.
    assert (Hz : excess = py_sum natural - (terminal_width - padding * len natural))
      by (unfold excess; lia).
    fold cubes. rewrite <- Hz. reflexivity.
Qed.




(** The two conditions of the formula are needed. A table whose cells are
    all empty strings divides zero by zero. *)
Lemma column_widths_zero_division :
  natural_widths [[str_of ""]] = Ok [0] /\
  column_widths 80 2 true [[str_of ""]] = Raise ZeroDivisionError.
Proof. split; vm_compute; reflexivity. Qed.

(** With an excess beyond [2^53] the quotient is rounded before the
    subtraction, and the width is not the one of the formula. *)
Lemma column_widths_inexact :
  column_widths 80 (2 ^ 53 + 80) true [[str_of "a"]] = Ok [1 - 2 ^ 53] /\
  spec_widths 80 (2 ^ 53 + 80) [1] = [- 2 ^ 53].
Proof. split; vm_compute; reflexivity. Qed.

Lemma sum_upper (S E : Z) (ws fs : list Z) :
  Forall2 (fun w f => f * S <= w * S - E * cube w + S) ws fs ->
  py_sum fs * S <= py_sum ws * S - E * py_sum (map cube ws) + len ws * S.
Proof.
  induction 1 as [|w f ws fs Hwf _ IH]; simpl; [unfold len; simpl; lia|].
  unfold len in *. simpl length. rewrite Nat2Z.inj_succ. lia.
Qed.

Lemma Forall2_impl_Forall {A B} (P : A -> Prop) (R Q : A -> B -> Prop)
    (l : list A) (r : list B) :
  Forall P l -> Forall2 R l r -> (forall x y, P x -> R x y -> Q x y) ->
  Forall2 Q l r.
Proof.
  intros HP HR Himp. induction HR as [|x y l r Hxy _ IH]; [constructor|].
  inversion HP; subst. constructor; auto.
Qed.

(** C2, amended. With [wrap] set, for a table with at least one column,
    natural widths below [2^50] and an excess over the available width below
    [2^50], the sum of the final widths plus the padding of every column
    exceeds the terminal width by at most one per column. *)
Theorem table_width_conservation (terminal_width padding : Z)
    (columns : list (list pystr)) (natural finals : list Z) :
  columns <> [] ->
  natural_widths columns = Ok natural ->
  column_widths terminal_width padding true columns = Ok finals ->
  Forall (fun w => w < 2 ^ 50) natural ->
  py_sum natural - (terminal_width - padding * len columns) < 2 ^ 50 ->
  py_sum finals + padding * len columns <= terminal_width + len columns.
Proof.
  intros Hne Hnat Hfin Hwb HEb.
  pose proof (natural_widths_nonneg _ _ Hnat) as Hnn.
  assert (Hlen : length natural = @length (list pystr) columns)
    by (eapply mapM_length; exact Hnat).
  assert (Hlen' : len natural = len columns) by (unfold len; rewrite Hlen; reflexivity).
  unfold column_widths in Hfin. rewrite Hnat in Hfin. cbn [bind] in Hfin.
  unfold shrink_widths in Hfin. fold (len columns) in Hfin. fold cube in Hfin.
  set (S := py_sum (map cube natural)) in *.
  set (E := Z.max (py_sum natural - (terminal_width - padding * len columns)) 0) in *.
  assert (HE : 0 <= E < 2 ^ 50) by (unfold E; lia).
  pose proof (py_sum_cubes_nonneg natural Hnn) as HS0. fold S in HS0.
  assert (HS : 0 < S).
  { destruct (Z.eq_dec S 0) as [HS|HS]; [exfalso|lia].
    destruct natural as [|w natural]; [destruct columns; [congruence|discriminate]|].
    rewrite HS in Hfin. simpl in Hfin. discriminate. }
  apply mapM_Forall2 in Hfin.
  assert (Hup : Forall2 (fun w f => f * S <= w * S - E * cube w + S) natural finals).
  { assert (HP : Forall (fun w => 0 <= w < 2 ^ 50 /\ cube w <= S) natural).
    { rewrite Forall_forall. intros w Hin.
      pose proof (cube_le_sum natural w Hnn Hin).
      rewrite Forall_forall in Hnn, Hwb.
      specialize (Hnn w Hin). specialize (Hwb w Hin). simpl in Hwb. lia. }
    eapply Forall2_impl_Forall; [exact HP|exact Hfin|].
    intros w f [Hw Hcube] Hf. simpl in Hf.
    destruct HE as [HE0 HEb'].
    rewrite (shrink_one_runs w E S (proj1 Hw) HE0 HS Hcube) in Hf by lia.
    injection Hf as <-.
    apply shrink_one_upper; unfold cube in *; lia. }
  pose proof (sum_upper S E natural finals Hup) as Hsum.
  fold S in Hsum. rewrite Hlen' in Hsum.
  assert (Hfinal : py_sum finals * S <= (py_sum natural - E + len columns) * S) by lia.
  apply Z.mul_le_mono_pos_r in Hfinal; [|assumption].
  unfold E in Hfinal. lia.
Qed.

Lemma table_width_conservation_witness :
  py_sum [4; 2] + 2 * len [[str_of "alice"; str_of "bob"]; [str_of "30"; str_of "7"]]
  <= 10 + len [[str_of "alice"; str_of "bob"]; [str_of "30"; str_of "7"]].
Proof.
  apply (table_width_conservation 10 2 _ [5; 2] [4; 2]).
  - discriminate.
  - reflexivity.
  - vm_compute. reflexivity.
  - repeat constructor; vm_compute; reflexivity.
  - vm_compute. reflexivity.
Defined.

(** C2 as stated fails, though only for numbers beyond the precision of a
    double: with a padding of [2^60 + 82] the excess [2^60 + 3] is rounded to
    [2^60], the one column of one character gets the width [-2^60], and the
    table is 82 wide in a terminal of 80 columns, more than one too many. *)
Lemma table_width_not_conserved :
  let padding := 2 ^ 60 + 82 in
  let columns := [[str_of "a"]] in
  exists finals,
    column_widths 80 padding true columns = Ok finals /\
    80 + len columns < py_sum finals + padding * len columns.
Proof.
  exists [- 2 ^ 60]. split; [vm_compute; reflexivity|]. vm_compute. reflexivity.
Qed.

(** ** The scenario *)

Lemma spec_widths_fit (terminal_width padding : Z) (natural : list Z) :
  py_sum natural <= terminal_width - padding * len natural ->
  spec_widths terminal_width padding natural = natural.
Proof.
  intros H. unfold spec_widths.
  destruct (_ <=? _) eqn:E; [reflexivity|]. apply Z.leb_gt in E. lia.
Qed.

(** C5, amended. [format_table] called with the columns alice, bob and
    30, 7, no headers, a padding of 2 and the default alignment, in a
    terminal of at least 11 columns, leaves the caller's lists as they are
    and returns the two lines [alice  30  ] and [bob    7   ] joined by a
    newline: every cell is left-justified to the natural width of its column
    and followed by two spaces, and no newline ends the text. *)
Theorem format_table_alice_bob (terminal_width : Z) :
  11 <= terminal_width ->
  format_table terminal_width None (Some [1%positive; 2%positive]) None 2
               AlignNone true alice_bob_store
  = (alice_bob_store,
     Ok (str_of "alice  30  " ++ newline ++ str_of "bob    7   ")).
Proof.
  intros Htw.
  assert (Hw : column_widths terminal_width 2 true alice_bob = Ok [5; 2]).
  { unfold column_widths. change (natural_widths alice_bob) with (Ok [5; 2]).
    cbn [bind]. change (length alice_bob) with (length [5; 2]).
    rewrite shrink_widths_spec.
    - rewrite spec_widths_fit; [reflexivity|]. change (py_sum [5; 2]) with 7.
      change (len [5; 2]) with 2. lia.
    - repeat constructor; lia.
    - vm_compute. discriminate.
    - change (len [5; 2]) with 2. change (py_sum [5; 2]) with 7.
      change (py_sum (map cube [5; 2])) with 133.
      repeat constructor; lia. }
  change (format_table terminal_width None (Some [1%positive; 2%positive]) None 2
            AlignNone true alice_bob_store)
    with (alice_bob_store, render_table terminal_width alice_bob 2 AlignNone true).
  f_equal. unfold render_table.
  change (forallb _ alice_bob) with false. cbv iota.
  change (resolve_alignment AlignNone (length alice_bob)) with (Ok [0; 0]).
  cbn [bind]. rewrite Hw. cbn [bind].
  vm_compute. reflexivity.
Qed.

Lemma format_table_alice_bob_witness :
  11 <= 80 /\
  format_table 80 None (Some [1%positive; 2%positive]) None 2
               AlignNone true alice_bob_store
  = (alice_bob_store,
     Ok (str_of "alice  30  " ++ newline ++ str_of "bob    7   ")).
Proof.
  split; [lia|]. apply format_table_alice_bob. lia.
Defined.

(** C5 as stated fails: the text of the claim, with one space of padding and
    a final newline, is not what the code returns. *)
Lemma format_table_alice_bob_not_as_stated :
  (format_table 80 None (Some [1%positive; 2%positive]) None 2
                AlignNone true alice_bob_store).2
  <> Ok (str_of "alice 30 " ++ newline ++ str_of "bob   7  " ++ newline).
Proof.
  vm_compute. intros H. discriminate H.
Qed.

(** ** Header insertion and the caller's lists *)


(** ** Life-cycle commands *)

(** C7. [stop] for a daemon that is not running prints the not-running
    message, returns normally and changes nothing but the output; [start]
    for a daemon that is running reports that it is already running and
    returns at once, normally: no link dialog, no choice of a folder, no
    call of [start_sync], and the table of the daemons is unchanged. *)
Theorem lifecycle_idempotent (foreground verbose : bool) (config_name : string)
    (w : world) :
  (is_running (daemons w) config_name = false ->
   stop config_name w
   = (set_trace (trace w ++ [Echo "Stopping Maestral..." false;
                             StopDaemonProcess config_name Stop.NotRunning;
                             Echo "Maestral daemon is not running." true]) w,
      Ok tt)) /\
  (is_running (daemons w) config_name = true ->
   start foreground verbose config_name w
   = (set_trace (trace w ++ [Echo "Starting Maestral..." false;
                             (if foreground
                              then StartDaemonThread config_name Start.AlreadyRunning
                              else StartDaemonProcess config_name Start.AlreadyRunning);
                             Echo (cr ++ "Starting Maestral...        Already running.") true])
                w,
      Ok tt)).
Proof.
  destruct w as [d tr eg ls f v lr cf pr cp tw tk]. split; intros Hrun; simpl in Hrun.
  - unfold stop, stop_daemon_with_cli_feedback, cbind, echo_no_nl, echo, emit,
      call_stop_daemon, stop_maestral_daemon_process, set_trace, set_daemons.
    simpl. rewrite Hrun. simpl. rewrite <- !app_assoc. reflexivity.
  - unfold start, catch_maestral_errors, try_except, cbind, echo_no_nl, echo, emit,
      call_start_daemon, start_maestral_daemon, set_trace, set_daemons.
    simpl. rewrite Hrun. simpl. destruct foreground; rewrite <- !app_assoc; reflexivity.
Qed.

Lemma lifecycle_idempotent_witness :
  stop "maestral" (world_with ∅ [])
  = (set_trace [Echo "Stopping Maestral..." false;
                StopDaemonProcess "maestral" Stop.NotRunning;
                Echo "Maestral daemon is not running." true] (world_with ∅ []),
     Ok tt) /\
  start false true "maestral" (world_with {["maestral" := Running]} [])
  = (set_trace [Echo "Starting Maestral..." false;
                StartDaemonProcess "maestral" Start.AlreadyRunning;
                Echo (cr ++ "Starting Maestral...        Already running.") true]
       (world_with {["maestral" := Running]} []),
     Ok tt).
Proof.
  split.
  - apply (proj1 (lifecycle_idempotent false true "maestral" (world_with ∅ []))).
    reflexivity.
  - apply (proj2 (lifecycle_idempotent false true "maestral"
                    (world_with {["maestral" := Running]} []))).
    reflexivity.
Defined.

(** ** Restart *)

Lemma keeps_same {A} (m : cli A) :
  (forall w, (m w).1 = w) -> keeps_daemons m.
Proof.
  intros H w. rewrite H. split; [reflexivity|]. exists []. symmetry. apply app_nil_r.
Qed.

Lemma keeps_ret {A} (a : A) : keeps_daemons (ret a).
Proof. apply keeps_same. reflexivity. Qed.

Lemma keeps_raise {A} (e : exn) : keeps_daemons (@raise A e).
Proof. apply keeps_same. reflexivity. Qed.

Lemma keeps_ask {A} (f : world -> A) : keeps_daemons (ask f).
Proof. apply keeps_same. reflexivity. Qed.

Lemma keeps_lift {A} (r : result A) : keeps_daemons (lift r).
Proof. apply keeps_same. reflexivity. Qed.

Lemma keeps_emit (e : event) : keeps_daemons (emit e).
Proof. intros w. split; [reflexivity|]. exists [e]. reflexivity. Qed.

Lemma keeps_then (w w' w'' : world) :
  (daemons w' = daemons w /\ exists rest, trace w' = trace w ++ rest) ->
  (daemons w'' = daemons w' /\ exists rest, trace w'' = trace w' ++ rest) ->
  daemons w'' = daemons w /\ exists rest, trace w'' = trace w ++ rest.
Proof.
  intros [H1 [r1 T1]] [H2 [r2 T2]]. split; [congruence|].
  exists (r1 ++ r2). rewrite T2, T1, app_assoc. reflexivity.
Qed.

Lemma keeps_cbind {A B} (m : cli A) (k : A -> cli B) :
  keeps_daemons m -> (forall a, keeps_daemons (k a)) -> keeps_daemons (cbind m k).
Proof.
  intros Hm Hk w. unfold cbind. specialize (Hm w).
  destruct (m w) as [w' [a|e]]; simpl in *; [|assumption].
  eapply keeps_then; [exact Hm|apply Hk].
Qed.

Lemma keeps_try_except {A} (m : cli A) (handler : exn -> option (cli A)) :
  keeps_daemons m ->
  (forall e k, handler e = Some k -> keeps_daemons k) ->
  keeps_daemons (try_except m handler).
Proof.
  intros Hm Hh w. unfold try_except. specialize (Hm w).
  destruct (m w) as [w' [a|e]]; simpl in *; [assumption|].
  destruct (handler e) as [k|] eqn:E; simpl; [|assumption].
  eapply keeps_then; [exact Hm|apply (Hh e k E)].
Qed.

Lemma keeps_field_update {A} (m : cli A) :
  (forall w, daemons (m w).1 = daemons w /\ trace (m w).1 = trace w) ->
  keeps_daemons m.
Proof.
  intros H w. destruct (H w) as [Hd Ht]. split; [assumption|].
  exists []. rewrite Ht. symmetry. apply app_nil_r.
Qed.

Lemma keeps_confirm (text : string) : keeps_daemons (confirm text).
Proof.
  apply keeps_cbind; [apply keeps_emit|]. intros _.
  apply keeps_field_update. intros w. destruct (confirms w); split; reflexivity.
Qed.

Lemma keeps_prompt (text : string) : keeps_daemons (prompt text).
Proof.
  apply keeps_cbind; [apply keeps_emit|]. intros _.
  apply keeps_field_update. intros w. destruct (prompts w); split; reflexivity.
Qed.

Lemma keeps_MaestralProxy (config_name : string) :
  keeps_daemons (MaestralProxy config_name).
Proof.
  intros w. unfold MaestralProxy.
  destruct (is_running _ _); [apply keeps_emit|apply (keeps_raise (A := unit))].
Qed.

Lemma keeps_proxy_call (config_name : string) (op : proxy_op) :
  keeps_daemons (proxy_call config_name op).
Proof.
  intros w. unfold proxy_call.
  destruct (is_running _ _); [|apply (keeps_raise (A := unit))].
  destruct (fault w) as [[[|n] e]|].
  - split; [reflexivity|]. exists []. simpl. symmetry. apply app_nil_r.
  - split; [reflexivity|]. exists [ProxyCall config_name op]. reflexivity.
  - apply keeps_emit.
Qed.

Lemma keeps_proxy_get {A} (config_name : string) (op : proxy_op)
    (f : daemon_view -> A) :
  keeps_daemons (proxy_get config_name op f).
Proof.
  apply keeps_cbind; [apply keeps_proxy_call|]. intros _. apply keeps_ask.
Qed.

Lemma keeps_echo (message : string) : keeps_daemons (echo message).
Proof. apply keeps_emit. Qed.

Ltac keeps :=
  repeat first
    [ apply keeps_ret | apply keeps_raise | apply keeps_ask | apply keeps_lift
    | apply keeps_emit | apply keeps_echo | apply keeps_confirm | apply keeps_prompt
    | apply keeps_MaestralProxy | apply keeps_proxy_call | apply keeps_proxy_get
    | apply keeps_cbind; [|intros ?]
    | match goal with
      | |- keeps_daemons (if ?b then _ else _) => destruct b
      | |- keeps_daemons (match ?x with _ => _ end) => destruct x
      end ].

Lemma keeps_link (config_name auth_code : string) :
  keeps_daemons (link config_name auth_code).
Proof.
  apply keeps_cbind; [apply keeps_proxy_call|]. intros _.
  apply keeps_field_update. intros w. destruct (link_results w); split; reflexivity.
Qed.

Lemma keeps_link_dialog_loop (fuel : nat) (config_name : string) :
  keeps_daemons (link_dialog_loop fuel config_name).
Proof.
  induction fuel as [|fuel IH]; simpl; [apply keeps_raise|].
  apply keeps_cbind; [apply keeps_prompt|]. intros auth_code.
  apply keeps_cbind; [apply keeps_link|]. intros res.
  apply keeps_cbind; [keeps|]. intros _.
  destruct (res =? 0); [apply keeps_ret|exact IH].
Qed.

Lemma keeps_link_dialog (config_name : string) :
  keeps_daemons (link_dialog config_name).
Proof.
  unfold link_dialog.
  apply keeps_cbind; [apply keeps_proxy_get|]. intros url.
  apply keeps_cbind; [apply keeps_echo|]. intros _.
  apply keeps_cbind; [apply keeps_echo|]. intros _.
  apply keeps_cbind; [apply keeps_echo|]. intros _.
  intros w. apply keeps_link_dialog_loop.
Qed.

Lemma keeps_ask_exclusions (entries : list (string * string * string)) :
  keeps_daemons (ask_exclusions entries).
Proof.
  induction entries as [|[[tag pd] pl] entries IH]; simpl; [apply keeps_ret|].
  destruct (String.eqb tag "FolderMetadata"); [|exact IH].
  apply keeps_cbind; [apply keeps_confirm|]. intros yes.
  apply keeps_cbind; [exact IH|]. intros rest. apply keeps_ret.
Qed.

Lemma keeps_start_setup (foreground verbose : bool) (config_name : string) :
  keeps_daemons (start_setup foreground verbose config_name).
Proof.
  unfold start_setup, select_dbx_path_dialog.
  apply keeps_cbind; [apply keeps_MaestralProxy|]. intros _.
  apply keeps_cbind; [apply keeps_proxy_get|]. intros pending_link.
  apply keeps_cbind.
  { destruct pending_link; [apply keeps_link_dialog|apply keeps_ret]. }
  intros _.
  apply keeps_cbind; [apply keeps_proxy_get|]. intros pending_folder.
  apply keeps_cbind.
  { destruct pending_folder; [|apply keeps_ret].
    apply keeps_cbind; [keeps|]. intros path.
    apply keeps_cbind; [keeps|]. intros _.
    apply keeps_cbind; [keeps|]. intros q.
    destruct q; [|apply keeps_ret].
    apply keeps_cbind; [keeps|]. intros _.
    apply keeps_cbind; [keeps|]. intros entries.
    apply keeps_cbind; [apply keeps_ask_exclusions|]. intros excluded.
    keeps. }
  intros _. keeps.
Qed.

Lemma stop_feedback_returns (config_name : string) (w : world) :
  exists res,
    stop_daemon_with_cli_feedback config_name w
    = (set_daemons (stop_maestral_daemon_process (exits_gracefully w) config_name
                      (daemons w)).2
         (set_trace (trace w ++ [Echo "Stopping Maestral..." false;
                                 StopDaemonProcess config_name res;
                                 Echo (stop_feedback res) true]) w),
       Ok tt) /\
    res = (stop_maestral_daemon_process (exits_gracefully w) config_name (daemons w)).1.
Proof.
  destruct w as [d tr eg ls f v lr cf pr cp tw tk].
  unfold stop_daemon_with_cli_feedback, cbind, echo_no_nl, echo, emit,
    call_stop_daemon, set_trace, set_daemons. simpl.
  destruct (stop_maestral_daemon_process eg config_name d) as [res d'] eqn:E.
  exists res. simpl. split; [|reflexivity].
  destruct res; simpl; rewrite <- !app_assoc; reflexivity.
Qed.

Lemma stopped_not_running (eg : bool) (config_name : string) (d : daemon_table) :
  is_running (stop_maestral_daemon_process eg config_name d).2 config_name = false.
Proof.
  unfold stop_maestral_daemon_process.
  destruct (is_running d config_name) eqn:E; [|exact E].
  destruct eg; simpl; unfold is_running; rewrite lookup_insert_eq; reflexivity.
Qed.

Lemma catch_world {A} (m : cli A) (w : world) :
  (catch_maestral_errors m w).1 = (m w).1.
Proof.
  unfold catch_maestral_errors, try_except.
  destruct (m w) as [w' [a|e]]; [reflexivity|]. destruct e; reflexivity.
Qed.

Lemma keeps_after_start (foreground verbose : bool) (config_name : string)
    (res : Start.t) :
  keeps_daemons
    (match res with
     | Start.Ok =>
         echo (cr ++ "Starting Maestral...        " ++ OK) ;;
         start_setup foreground verbose config_name
     | Start.AlreadyRunning =>
         echo (cr ++ "Starting Maestral...        Already running.")
     | Start.Failed =>
         echo (cr ++ "Starting Maestral...        " ++ FAILED) ;;
         echo "Please check logs for more information."
     end).
Proof.
  destruct res.
  - apply keeps_cbind; [apply keeps_echo|]. intros _. apply keeps_start_setup.
  - apply keeps_echo.
  - apply keeps_cbind; [apply keeps_echo|]. intros _. apply keeps_echo.
Qed.

Lemma cbind_emit {B} (e : event) (k : unit -> cli B) (w : world) :
  cbind (emit e) k w = k tt (set_trace (trace w ++ [e]) w).
Proof. reflexivity. Qed.

Lemma cbind_call_start_daemon {B} (foreground : bool) (config_name : string)
    (k : Start.t -> cli B) (w : world) :
  cbind (call_start_daemon foreground config_name) k w
  = let res := (start_maestral_daemon (launch_succeeds w) config_name (daemons w)).1 in
    let d := (start_maestral_daemon (launch_succeeds w) config_name (daemons w)).2 in
    k res (set_trace (trace w ++ [if foreground then StartDaemonThread config_name res
                                  else StartDaemonProcess config_name res])
             (set_daemons d w)).
Proof.
  unfold cbind, call_start_daemon.
  destruct (start_maestral_daemon _ _ _) as [res d]. reflexivity.
Qed.

(** [start] first announces itself and calls the daemon module; whatever
    follows only adds to the trace. *)
Lemma start_steps (foreground verbose : bool) (config_name : string) (w : world) :
  exists rest,
    let res := (start_maestral_daemon (launch_succeeds w) config_name (daemons w)).1 in
    trace (start foreground verbose config_name w).1
    = trace w ++ Echo "Starting Maestral..." false ::
        (if foreground then StartDaemonThread config_name res
         else StartDaemonProcess config_name res) :: rest /\
    daemons (start foreground verbose config_name w).1
    = (start_maestral_daemon (launch_succeeds w) config_name (daemons w)).2.
Proof.
  unfold start. rewrite catch_world.
  unfold echo_no_nl. rewrite cbind_emit, cbind_call_start_daemon.
  cbv zeta. cbn [launch_succeeds daemons trace set_trace set_daemons].
  set (res := (start_maestral_daemon (launch_succeeds w) config_name (daemons w)).1).
  set (d := (start_maestral_daemon (launch_succeeds w) config_name (daemons w)).2).
  match goal with |- context [trace (?k ?w0).1] =>
    destruct (keeps_after_start foreground verbose config_name res w0) as [Hd [rest Ht]]
  end.
  exists rest. split.
  - rewrite Ht. unfold set_trace, set_daemons. cbn [trace].
    rewrite <- !app_assoc. reflexivity.
  - rewrite Hd. reflexivity.
Qed.

(** C6. [restart] is the stop operation followed by [start] with the same
    [foreground] and [verbose], from the world that the stop leaves. The
    stop reports one of its outcomes and [start] follows whatever that
    outcome is, launching the daemon, which then runs exactly when the
    launch succeeds. *)
Theorem restart_is_stop_then_start (foreground verbose : bool)
    (config_name : string) (w : world) :
  let w1 := (stop_daemon_with_cli_feedback config_name w).1 in
  restart foreground verbose config_name w
  = start foreground verbose config_name w1 /\
  (exists res,
     trace w1 = trace w ++ [Echo "Stopping Maestral..." false;
                            StopDaemonProcess config_name res;
                            Echo (stop_feedback res) true]) /\
  (exists rest,
     let res := if launch_succeeds w then Start.Ok else Start.Failed in
     trace (restart foreground verbose config_name w).1
     = trace w1 ++ Echo "Starting Maestral..." false ::
         (if foreground then StartDaemonThread config_name res
          else StartDaemonProcess config_name res) :: rest) /\
  is_running (daemons (restart foreground verbose config_name w).1) config_name
  = launch_succeeds w.
Proof.
  intros w1.
  destruct (stop_feedback_returns config_name w) as (res & Hstop & Hres).
  assert (Hw1 : w1 = (stop_daemon_with_cli_feedback config_name w).1) by reflexivity.
  rewrite Hstop in Hw1. cbn [fst] in Hw1.
  assert (Hrestart : restart foreground verbose config_name w
                     = start foreground verbose config_name w1).
  { unfold restart, cbind. rewrite Hstop. rewrite Hw1. reflexivity. }
  assert (Hnot : is_running (daemons w1) config_name = false).
  { rewrite Hw1. cbn [daemons set_daemons]. apply stopped_not_running. }
  assert (Hls : launch_succeeds w1 = launch_succeeds w) by (rewrite Hw1; reflexivity).
  destruct (start_steps foreground verbose config_name w1) as (rest & Ht & Hd).
  cbv zeta in Ht. rewrite Hls in Ht, Hd.
  unfold start_maestral_daemon in Ht, Hd. rewrite Hnot in Ht, Hd.
  split; [exact Hrestart|]. split; [|split].
  - exists res. rewrite Hw1. reflexivity.
  - exists rest. cbv zeta. rewrite Hrestart, Ht.
    destruct (launch_succeeds w); reflexivity.
  - rewrite Hrestart, Hd. unfold is_running.
    destruct (launch_succeeds w); cbn [snd]; rewrite lookup_insert_eq; reflexivity.
Qed.

(** ** Commands against a daemon that is not running *)

Lemma never_echo (message : string) : never_communication_error (echo message).
Proof. intros w. discriminate. Qed.

Lemma never_except_not_running {A} (body handler : cli A) :
  never_communication_error handler ->
  never_communication_error (except_not_running body handler).
Proof.
  intros Hh w. unfold except_not_running, try_except.
  destruct (body w) as [w' [a|e]]; [discriminate|].
  destruct e; simpl; try discriminate. apply Hh.
Qed.

Lemma never_catch {A} (m : cli A) :
  never_communication_error m -> never_communication_error (catch_maestral_errors m).
Proof.
  intros Hm w. unfold catch_maestral_errors, try_except. specialize (Hm w).
  destruct (m w) as [w' [a|e]]; [discriminate|].
  destruct e; simpl in *; try discriminate. assumption.
Qed.

Lemma never_raise_click {A} (msg : string) :
  never_communication_error (@raise A (ClickException msg)).
Proof. intros w. discriminate. Qed.

Lemma proxy_not_running {A} (config_name : string) (k : unit -> cli A) (w : world) :
  is_running (daemons w) config_name = false ->
  cbind (MaestralProxy config_name) k w = (w, Raise CommunicationError).
Proof. intros H. unfold cbind, MaestralProxy. rewrite H. reflexivity. Qed.

Lemma except_not_running_caught {A} (body handler : cli A) (w w' : world) :
  body w = (w', Raise CommunicationError) ->
  except_not_running body handler w = handler w'.
Proof. intros H. unfold except_not_running, try_except. rewrite H. reflexivity. Qed.

Lemma catch_ok {A} (m : cli A) (w w' : world) (a : A) :
  m w = (w', Ok a) -> catch_maestral_errors m w = (w', Ok a).
Proof. intros H. unfold catch_maestral_errors, try_except. rewrite H. reflexivity. Qed.

Lemma catch_click {A} (m : cli A) (w w' : world) (msg : string) :
  m w = (w', Raise (ClickException msg)) ->
  catch_maestral_errors m w = (w', Raise (ClickException msg)).
Proof. intros H. unfold catch_maestral_errors, try_except. rewrite H. reflexivity. Qed.

(** The eight commands with a handler for the communication error: it
    never escapes from them, and against a daemon that is not running each
    of them ends as its handler says. *)
Lemma handled_commands_not_running (cmd : strict_command) (config_name : string)
    (w : world) :
  (run_strict cmd config_name w).2 <> Raise CommunicationError /\
  (is_running (daemons w) config_name = false ->
   run_strict cmd config_name w
   = match cmd with
     | CmdFileStatus _ => (set_trace (trace w ++ [Echo "unwatched" true]) w, Ok tt)
     | CmdExcludedRemove dropbox_path =>
         if String.eqb (with_leading_slash dropbox_path) "/" then
           (set_trace
              (trace w ++ [Echo (style_red "The root directory is always included.") true])
              w, Ok tt)
         else
           (w, Raise (ClickException "Maestral daemon must be running to download folders."))
     | _ =>
         (set_trace (trace w ++ [Echo "Maestral daemon is not running." true]) w, Ok tt)
     end).
Proof.
  split.
  - revert w. change (never_communication_error (run_strict cmd config_name)).
    destruct cmd; simpl.
    + apply never_except_not_running, never_echo.
    + apply never_except_not_running, never_echo.
    + apply never_catch, never_except_not_running, never_echo.
    + apply never_except_not_running, never_echo.
    + apply never_except_not_running, never_echo.
    + apply never_catch, never_except_not_running, never_echo.
    + unfold excluded_remove. apply never_catch. cbv zeta.
      destruct (String.eqb _ "/"); [apply never_echo|].
      apply never_except_not_running, never_raise_click.
    + unfold notify_snooze. intros w. unfold cbind at 1.
      destruct (except_not_running _ _ w) as [w' [reached|e]] eqn:E.
      * destruct reached; [destruct (0 <? minutes)|]; discriminate.
      * simpl. intros H. injection H as ->.
        assert (Hn : never_communication_error
                       (except_not_running
                          (MaestralProxy config_name ;;
                           proxy_call config_name (SetNotificationSnooze minutes) ;;
                           ret true)
                          (echo "Maestral daemon is not running." ;; ret false))).
        { apply never_except_not_running. intros w0. discriminate. }
        apply (Hn w). rewrite E. reflexivity.
  - intros Hrun. destruct cmd; simpl.
    + unfold pause. erewrite except_not_running_caught; [reflexivity|].
      apply proxy_not_running. assumption.
    + unfold resume. erewrite except_not_running_caught; [reflexivity|].
      apply proxy_not_running. assumption.
    + unfold status. apply catch_ok.
      erewrite except_not_running_caught; [reflexivity|].
      apply proxy_not_running. assumption.
    + unfold file_status. erewrite except_not_running_caught; [reflexivity|].
      apply proxy_not_running. assumption.
    + unfold activity. erewrite except_not_running_caught; [reflexivity|].
      apply proxy_not_running. assumption.
    + unfold rebuild_index. apply catch_ok.
      erewrite except_not_running_caught; [reflexivity|].
      apply proxy_not_running. assumption.
    + unfold excluded_remove. cbv zeta.
      destruct (String.eqb _ "/").
      * apply catch_ok. reflexivity.
      * apply catch_click.
        erewrite except_not_running_caught; [reflexivity|].
        apply proxy_not_running. assumption.
    + unfold notify_snooze. unfold cbind at 1.
      erewrite except_not_running_caught; [reflexivity|].
      apply proxy_not_running. assumption.
Qed.

(** C8 as stated fails for [excluded remove]: against a daemon that is not
    running it ends with an error of the command, not with a plain message. *)
Lemma excluded_remove_not_plain :
  ~ plain_not_running_outcome (world_with ∅ [])
      (run_strict (CmdExcludedRemove "photos") "maestral" (world_with ∅ [])).
Proof.
  intros [Hok _]. vm_compute in Hok. discriminate Hok.
Qed.

(** ** The activity loop *)

Lemma set_trace_set_trace (a b : list event) (w : world) :
  set_trace a (set_trace b w) = set_trace a w.
Proof. reflexivity. Qed.

Lemma cbind_proxy_call {B} (config_name : string) (op : proxy_op)
    (k : unit -> cli B) (w : world) :
  is_running (daemons w) config_name = true -> fault w = None ->
  cbind (proxy_call config_name op) k w
  = k tt (set_trace (trace w ++ [ProxyCall config_name op]) w).
Proof.
  intros Hrun Hfault. unfold cbind, proxy_call. rewrite Hrun, Hfault. reflexivity.
Qed.

Lemma curses_iteration_run (config_name : string) (t : tick) (w : world) :
  is_running (daemons w) config_name = true -> fault w = None ->
  curses_iteration config_name t w
  = (set_trace (trace w ++ iteration_events config_name t) w, Ok (negb (is_quit t))).
Proof.
  intros Hrun Hfault. unfold curses_iteration.
  rewrite !cbind_proxy_call by assumption.
  rewrite !cbind_emit.
  unfold iteration_events, is_quit.
  set (text := String.concat nl_string (activity_lines t)).
  cbn [trace set_trace].
  destruct (t_key t =? 113) eqn:Eq.
  - apply Z.eqb_eq in Eq.
    replace (t_key t <? 0) with false by (rewrite Eq; reflexivity).
    unfold ret. cbn [negb]. f_equal. rewrite <- !app_assoc. reflexivity.
  - destruct (t_key t <? 0).
    + rewrite cbind_emit. unfold ret. cbn [negb trace set_trace]. f_equal.
      rewrite <- !app_assoc. reflexivity.
    + unfold ret. cbn [negb]. f_equal. rewrite <- !app_assoc. reflexivity.
Qed.

Lemma curses_iterations_run (config_name : string) (ts : list tick) (w : world) :
  is_running (daemons w) config_name = true -> fault w = None ->
  curses_iterations config_name ts w
  = (set_trace (trace w ++ concat (map (iteration_events config_name) (ticks_run ts))) w,
     Ok (if existsb is_quit ts then QuitKey else StillLooping)).
Proof.
  revert w. induction ts as [|t ts IH]; intros w Hrun Hfault; simpl.
  - unfold ret. rewrite app_nil_r. destruct w; reflexivity.
  - unfold cbind. rewrite curses_iteration_run by assumption.
    destruct (is_quit t) eqn:Eq; simpl.
    + rewrite app_nil_r. reflexivity.
    + rewrite IH by assumption. rewrite set_trace_set_trace.
      cbn [trace set_trace]. rewrite <- app_assoc. reflexivity.
Qed.

(** C9. With the daemon running, the loop of [activity] runs the ticks up
    to the first one whose key is the quit key. Every tick polls the
    keyboard exactly once; it sleeps once, for one second, exactly when the
    poll found no key, and nowhere else; and a tick that finds the quit key
    ends with its poll and is the last one. *)
Theorem activity_loop_ticks (config_name : string) (w : world) :
  is_running (daemons w) config_name = true -> fault w = None ->
  curses_loop config_name w
  = (set_trace (trace w ++ [Curses UseDefaultColors; Curses NoDelay]
                ++ concat (map (iteration_events config_name) (ticks_run (ticks w)))) w,
     Ok (if existsb is_quit (ticks w) then QuitKey else StillLooping)) /\
  forall t,
    length (filter (fun e => is_getch e = true) (iteration_events config_name t)) = 1%nat /\
    filter (fun e => is_sleep e = true) (iteration_events config_name t)
    = (if t_key t <? 0 then [Sleep 1] else []) /\
    (is_quit t = true ->
     last (iteration_events config_name t) = Some (Curses (GetCh (t_key t))) /\
     forall ts, ticks_run (t :: ts) = [t]).
Proof.
  intros Hrun Hfault. split.
  - unfold curses_loop, cbind at 1 2. unfold emit at 1 2. cbv beta iota.
    rewrite curses_iterations_run by assumption.
    rewrite set_trace_set_trace. cbn [trace set_trace ticks].
    rewrite <- !app_assoc. reflexivity.
  - intros t. unfold iteration_events. split; [|split].
    + destruct (t_key t <? 0); reflexivity.
    + destruct (t_key t <? 0); reflexivity.
    + intros Hq. unfold is_quit in Hq. apply Z.eqb_eq in Hq. split.
      * rewrite Hq. reflexivity.
      * intros ts. simpl. unfold is_quit. rewrite Hq. reflexivity.
Qed.

Lemma activity_loop_ticks_witness :
  (curses_loop "maestral" (world_with {["maestral" := Running]} three_ticks)).2
  = Ok QuitKey.
Proof.
  destruct (activity_loop_ticks "maestral"
              (world_with {["maestral" := Running]} three_ticks)) as [H _].
  - reflexivity.
  - reflexivity.
  - rewrite H. reflexivity.
Defined.

(** ** textwrap: no line is longer than the width *)

Local Open Scope nat_scope.

Lemma total_length_app (a b : list pystr) :
  total_length (a ++ b) = total_length a + total_length b.
Proof. unfold total_length. rewrite concat_app, length_app. reflexivity. Qed.

Lemma total_length_cons (c : pystr) (cs : list pystr) :
  total_length (c :: cs) = length c + total_length cs.
Proof. unfold total_length. simpl. rewrite length_app. reflexivity. Qed.

Lemma take_fitting_spec (width cur_len : nat) (chunks : list pystr) :
  cur_len <= width ->
  let '(line, n, rest) := take_fitting width cur_len chunks in
  chunks = line ++ rest /\ n = cur_len + total_length line /\ n <= width /\
  match rest with
  | c :: _ => width < n + length c
  | [] => True
  end.
Proof.
  revert cur_len. induction chunks as [|c chunks IH]; intros cur_len Hle; simpl.
  - repeat split; try lia. unfold total_length. simpl. lia.
  - destruct (cur_len + length c <=? width) eqn:E.
    + apply Nat.leb_le in E. specialize (IH (cur_len + length c) E).
      destruct (take_fitting width (cur_len + length c) chunks) as [[line n] rest].
      destruct IH as (Hc & Hn & Hw & Hr). repeat split.
      * simpl. f_equal. assumption.
      * rewrite total_length_cons. lia.
      * assumption.
      * assumption.
    + apply Nat.leb_gt in E. repeat split; try lia.
      unfold total_length. simpl. lia.
Qed.

Lemma rfind_dash_lt (chunk : pystr) (stop i : nat) :
  rfind_dash chunk stop = Some i -> i < stop /\ i < length chunk.
Proof.
  revert stop i. induction chunk as [|c chunk IH]; intros [|stop] i; simpl;
    try discriminate.
  destruct (rfind_dash chunk stop) as [j|] eqn:E.
  - intros [= <-]. destruct (IH stop j E). lia.
  - destruct (is_dash c); [|discriminate]. intros [= <-]. lia.
Qed.

Lemma break_point_le (chunk : pystr) (space_left : nat) :
  break_point chunk space_left <= space_left.
Proof.
  unfold break_point. destruct (space_left <? length chunk); [|lia].
  destruct (rfind_dash chunk space_left) as [h|] eqn:E; [|lia].
  apply rfind_dash_lt in E. destruct (_ && _); lia.
Qed.

Lemma break_point_pos (chunk : pystr) (space_left : nat) :
  0 < space_left -> 0 < break_point chunk space_left.
Proof.
  intros H. unfold break_point. destruct (space_left <? length chunk); [|lia].
  destruct (rfind_dash chunk space_left) as [h|]; [|lia].
  destruct (_ && _); lia.
Qed.

Lemma drop_trailing_blank_length (cur_line : list pystr) :
  total_length (drop_trailing_blank cur_line) <= total_length cur_line.
Proof.
  unfold drop_trailing_blank.
  destruct (last cur_line) as [c|] eqn:E; [|lia].
  destruct (all_space c); [|lia].
  destruct (exists_last (l := cur_line)) as (l' & x & ->).
  { intros ->. discriminate. }
  rewrite removelast_last, total_length_app. lia.
Qed.

Lemma wrap_line_width (width : nat) (started : bool) (chunks : list pystr) :
  total_length (wrap_line width started chunks).1 <= width.
Proof.
  unfold wrap_line.
  set (chunks1 := match chunks with [] => [] | c :: rest => _ end).
  pose proof (take_fitting_spec width 0 chunks1 ltac:(lia)) as H.
  destruct (take_fitting width 0 chunks1) as [[cur_line cur_len] chunks2].
  destruct H as (_ & Hn & Hw & _). simpl in Hn.
  destruct chunks2 as [|c rest]; simpl.
  - etransitivity; [apply drop_trailing_blank_length|]. lia.
  - destruct (width <? length c); simpl.
    + etransitivity; [apply drop_trailing_blank_length|].
      rewrite total_length_app. unfold total_length at 2. simpl.
      rewrite app_nil_r, length_take.
      pose proof (break_point_le c (width - cur_len)). lia.
    + etransitivity; [apply drop_trailing_blank_length|]. lia.
Qed.

Lemma wrap_loop_width (fuel width : nat) (started : bool) (chunks : list pystr) :
  Forall (fun line => length line <= width) (wrap_loop fuel width started chunks).
Proof.
  revert started chunks. induction fuel as [|fuel IH]; intros started chunks; simpl.
  - constructor.
  - destruct chunks as [|c chunks]; [constructor|].
    pose proof (wrap_line_width width started (c :: chunks)) as Hw.
    destruct (wrap_line width started (c :: chunks)) as [cur_line chunks'].
    simpl in Hw. destruct cur_line as [|x cur_line]; [apply IH|].
    constructor; [exact Hw|apply IH].
Qed.

Local Close Scope nat_scope.

Lemma textwrap_wrap_width (text : pystr) (width : Z) (lines : list pystr) :
  textwrap_wrap text width = Ok lines -> Forall (fun line => len line <= width) lines.
Proof.
  unfold textwrap_wrap, _wrap_chunks.
  destruct (width <=? 0) eqn:E; [discriminate|]. apply Z.leb_gt in E.
  intros [= <-].
  eapply Forall_impl; [apply wrap_loop_width|].
  intros line Hl. simpl in Hl. unfold len. lia.
Qed.
(** ** textwrap: the fuel is enough *)

Local Open Scope nat_scope.

Lemma chunks_measure_app (a b : list pystr) :
  chunks_measure (a ++ b) = chunks_measure a + chunks_measure b.
Proof. induction a as [|c a IH]; simpl; [reflexivity|]. rewrite IH. lia. Qed.

(** Every line consumes something. *)
Lemma wrap_line_measure (width : nat) (started : bool) (chunks : list pystr) :
  1 <= width -> chunks <> [] ->
  chunks_measure (wrap_line width started chunks).2 < chunks_measure chunks.
Proof.
  intros Hw Hne. unfold wrap_line.
  set (chunks1 := match chunks with [] => [] | c :: rest => _ end).
  assert (H1 : chunks_measure chunks1 <= chunks_measure chunks /\
               (chunks1 = chunks \/ chunks_measure chunks1 < chunks_measure chunks)).
  { unfold chunks1. destruct chunks as [|c rest]; [congruence|].
    destruct (all_space c && started); simpl.
    - split; [lia|right; lia].
    - split; [lia|left; reflexivity]. }
  pose proof (take_fitting_spec width 0 chunks1 ltac:(lia)) as H.
  destruct (take_fitting width 0 chunks1) as [[cur_line cur_len] chunks2].
  destruct H as (Hc & Hn & Hle & Hr). simpl in Hn.
  assert (H2 : chunks_measure chunks1 = chunks_measure cur_line + chunks_measure chunks2)
    by (rewrite Hc; apply chunks_measure_app).
  destruct chunks2 as [|c rest]; simpl.
  - destruct H1 as [_ [E|Hlt]]; [|simpl in H2; lia].
    rewrite E in *. destruct chunks as [|c0 cs]; [congruence|].
    rewrite app_nil_r in Hc. subst cur_line. simpl in H2 |- *. lia.
  - destruct (width <? length c) eqn:E; simpl.
    + apply Nat.ltb_lt in E. rewrite length_drop.
      destruct (Nat.eq_dec cur_len width) as [Heq|Hneq].
      * (* the line is full: it holds at least one chunk *)
        destruct cur_line as [|x xs].
        { unfold total_length in Hn. simpl in Hn. lia. }
        simpl in H2 |- *. lia.
      * pose proof (break_point_pos c (width - cur_len) ltac:(lia)).
        pose proof (break_point_le c (width - cur_len)).
        simpl in H2. lia.
    + apply Nat.ltb_ge in E. simpl in Hr.
      (* the next chunk fits a line but not this one: the line is not empty *)
      destruct cur_line as [|x xs].
      { unfold total_length in Hn. simpl in Hn. lia. }
      simpl in H2 |- *. lia.
Qed.

Lemma wrap_loop_fuel (fuel1 fuel2 width : nat) (started : bool)
    (chunks : list pystr) :
  1 <= width ->
  chunks_measure chunks <= fuel1 -> chunks_measure chunks <= fuel2 ->
  wrap_loop fuel1 width started chunks = wrap_loop fuel2 width started chunks.
Proof.
  intros Hw. revert fuel2 started chunks.
  induction fuel1 as [|fuel1 IH]; intros fuel2 started chunks H1 H2.
  - destruct chunks as [|c cs]; [|simpl in H1; lia].
    destruct fuel2; reflexivity.
  - destruct chunks as [|c cs]; [destruct fuel2; reflexivity|].
    destruct fuel2 as [|fuel2]; [simpl in H2; lia|].
    simpl.
    pose proof (wrap_line_measure width started (c :: cs) Hw ltac:(congruence)) as Hm.
    destruct (wrap_line width started (c :: cs)) as [cur_line chunks'].
    simpl in Hm. simpl in H1, H2.
    destruct cur_line; [apply IH; lia|].
    f_equal. apply IH; lia.
Qed.

Local Close Scope nat_scope.
(** ** Words and chunks *)

Lemma words_from_nil (cur : pystr) : words_from cur [] = flush cur [].
Proof. destruct cur; reflexivity. Qed.

Lemma words_from_space (cur : pystr) (c : ascii) (s : pystr) :
  is_py_space c = true -> words_from cur (c :: s) = flush cur (words_from [] s).
Proof. intros H. simpl. rewrite H. destruct cur; reflexivity. Qed.

Lemma flush_app (cur : pystr) (a b : list pystr) :
  flush cur a ++ b = flush cur (a ++ b).
Proof. destruct cur; reflexivity. Qed.

(** White space between two texts separates their words. *)
Lemma words_from_app_space (cur a : pystr) (c : ascii) (b : pystr) :
  is_py_space c = true ->
  words_from cur (a ++ c :: b) = words_from cur a ++ words_from [] b.
Proof.
  intros Hc. revert cur. induction a as [|x a IH]; intros cur.
  - simpl app. rewrite words_from_space by assumption.
    destruct cur; reflexivity.
  - simpl. destruct (is_py_space x).
    + destruct cur; rewrite IH; reflexivity.
    + apply IH.
Qed.

Lemma words_from_blank (cur b s : pystr) :
  all_space b = true -> b <> [] ->
  words_from cur (b ++ s) = flush cur (words_from [] s).
Proof.
  intros Hb Hne. destruct b as [|c b]; [congruence|].
  simpl in Hb. apply andb_true_iff in Hb as [Hc Hb].
  simpl app. rewrite words_from_space by assumption. f_equal.
  clear Hne Hc. induction b as [|x b IH]; [reflexivity|].
  simpl in Hb. apply andb_true_iff in Hb as [Hx Hb].
  simpl. rewrite Hx. apply IH. assumption.
Qed.

Lemma py_split_blank (b s : pystr) :
  all_space b = true -> py_split (b ++ s) = py_split s.
Proof.
  intros Hb. destruct b as [|c b]; [reflexivity|].
  unfold py_split. rewrite words_from_blank; [reflexivity|assumption|discriminate].
Qed.

Lemma words_from_word (cur h s : pystr) :
  no_space h = true -> words_from cur (h ++ s) = words_from (rev h ++ cur) s.
Proof.
  revert cur. induction h as [|x h IH]; intros cur Hh; [reflexivity|].
  simpl in Hh. apply andb_true_iff in Hh as [Hx Hh].
  apply negb_true_iff in Hx. simpl. rewrite Hx, IH by assumption.
  rewrite <- app_assoc. reflexivity.
Qed.

(** Blank text at the end adds no word. *)
Lemma words_from_blank_end (cur a b : pystr) :
  all_space b = true -> words_from cur (a ++ b) = words_from cur a.
Proof.
  intros Hb. revert cur. induction a as [|x a IH]; intros cur.
  - simpl app. destruct b as [|c b]; [reflexivity|].
    rewrite <- (app_nil_r (c :: b)).
    rewrite words_from_blank by (assumption || discriminate).
    destruct cur; reflexivity.
  - simpl. destruct (is_py_space x).
    + destruct cur; rewrite IH; reflexivity.
    + apply IH.
Qed.

Lemma word_not_blank (c : pystr) :
  c <> [] -> no_space c = true -> all_space c = false.
Proof.
  destruct c as [|x c]; [congruence|]. intros _ H. simpl in *.
  apply andb_true_iff in H as [Hx _]. apply negb_true_iff in Hx. rewrite Hx. reflexivity.
Qed.

Lemma words_of_cons_blank (c : pystr) (cs : list pystr) :
  all_space c = true -> words_of (c :: cs) = words_of cs.
Proof.
  intros H. unfold words_of. rewrite filter_cons.
  destruct (decide (all_space c = false)) as [E|E]; [congruence|reflexivity].
Qed.

Lemma words_of_cons_word (c : pystr) (cs : list pystr) :
  all_space c = false -> words_of (c :: cs) = c :: words_of cs.
Proof.
  intros H. unfold words_of. rewrite filter_cons.
  destruct (decide (all_space c = false)) as [E|E]; [reflexivity|congruence].
Qed.

Lemma words_of_app (a b : list pystr) : words_of (a ++ b) = words_of a ++ words_of b.
Proof. unfold words_of. apply filter_app. Qed.

Lemma flush_rev (a : pystr) (words : list pystr) :
  a <> [] -> flush (rev a) words = a :: words.
Proof.
  intros Hne. unfold flush. destruct (rev a) eqn:Er.
  - apply (f_equal (@rev ascii)) in Er. rewrite rev_involutive in Er.
    simpl in Er. congruence.
  - rewrite <- Er, rev_involutive. reflexivity.
Qed.

(** The words of a text are the word chunks of any good chunking of it. *)
Lemma py_split_concat (chunks : list pystr) :
  Forall chunk_ok chunks -> separated chunks ->
  py_split (concat chunks) = words_of chunks.
Proof.
  induction chunks as [|a tl IH]; intros Hok Hsep; [reflexivity|].
  apply Forall_cons in Hok as [[Hne Ha] Hok].
  assert (Hsep' : separated tl) by (destruct tl; [exact I|apply Hsep]).
  specialize (IH Hok Hsep').
  simpl concat. destruct (all_space a) eqn:Eb.
  - rewrite py_split_blank, words_of_cons_blank by assumption. exact IH.
  - destruct Ha as [Ha|Ha]; [congruence|].
    rewrite words_of_cons_word by assumption.
    unfold py_split. rewrite words_from_word, app_nil_r by assumption.
    destruct tl as [|b tl'].
    + simpl concat. rewrite words_from_nil. apply flush_rev. assumption.
    + destruct Hsep as [[Hab|Hab] _]; [congruence|].
      apply Forall_cons in Hok as [[Hbne _] _].
      simpl concat. rewrite words_from_blank by assumption.
      unfold py_split in IH. simpl concat in IH.
      rewrite <- IH. rewrite (words_from_blank [] b) by assumption.
      apply flush_rev. assumption.
Qed.

Lemma py_split_app_space (a b : pystr) :
  py_split (a ++ space ++ b) = py_split a ++ py_split b.
Proof. apply words_from_app_space. reflexivity. Qed.

Lemma py_split_join (lines : list pystr) :
  py_split (join space lines) = concat (map py_split lines).
Proof.
  induction lines as [|l lines IH]; [reflexivity|].
  destruct lines as [|l' lines].
  - simpl. rewrite app_nil_r. reflexivity.
  - change (join space (l :: l' :: lines)) with (l ++ space ++ join space (l' :: lines)).
    rewrite py_split_app_space, IH. reflexivity.
Qed.
(** ** textwrap: the words survive when they fit *)

Lemma separated_tail (a : pystr) (cs : list pystr) : separated (a :: cs) -> separated cs.
Proof. destruct cs; [intros; exact I|intros [_ H]; exact H]. Qed.

Lemma separated_app_r (a b : list pystr) : separated (a ++ b) -> separated b.
Proof.
  induction a as [|x a IH]; [trivial|]. intros H. apply IH.
  apply (separated_tail x). exact H.
Qed.

Lemma separated_app_l (a b : list pystr) : separated (a ++ b) -> separated a.
Proof.
  induction a as [|x a IH]; [intros; exact I|]. intros H.
  destruct a as [|y a]; [exact I|].
  simpl in H. destruct H as [Hxy H]. split; [exact Hxy|]. apply IH. exact H.
Qed.

Lemma separated_blank_head (b c : pystr) (cs : list pystr) :
  all_space b = true -> separated (c :: cs) -> separated (b :: cs).
Proof.
  intros Hb H. destruct cs as [|d cs]; [exact I|].
  destruct H as [_ H]. split; [left; exact Hb|exact H].
Qed.

Lemma wrappable_app (width : nat) (a b : list pystr) :
  wrappable width (a ++ b) -> wrappable width a /\ wrappable width b.
Proof.
  intros (Hok & Hsep & Hfit).
  apply Forall_app in Hok as [Hoa Hob]. apply Forall_app in Hfit as [Hfa Hfb].
  split; (split; [|split]); try assumption.
  - eapply separated_app_l. exact Hsep.
  - eapply separated_app_r. exact Hsep.
Qed.

Lemma all_space_take (n : nat) (c : pystr) :
  all_space c = true -> all_space (take n c) = true.
Proof.
  revert n. induction c as [|x c IH]; intros [|n] H; try reflexivity.
  simpl in *. apply andb_true_iff in H as [Hx H].
  rewrite Hx. simpl. apply IH. assumption.
Qed.

Lemma all_space_drop (n : nat) (c : pystr) :
  all_space c = true -> all_space (drop n c) = true.
Proof.
  revert n. induction c as [|x c IH]; intros [|n] H; try reflexivity; try assumption.
  simpl in *. apply andb_true_iff in H as [Hx H]. apply IH. assumption.
Qed.

Lemma drop_trailing_blank_split (cur_line : list pystr) :
  py_split (concat (drop_trailing_blank cur_line)) = py_split (concat cur_line).
Proof.
  unfold drop_trailing_blank.
  destruct (last cur_line) as [c|] eqn:E; [|reflexivity].
  destruct (all_space c) eqn:Eb; [|reflexivity].
  destruct (exists_last (l := cur_line)) as (l' & x & ->).
  { intros ->. discriminate. }
  rewrite last_snoc in E. injection E as ->.
  rewrite removelast_last, concat_app. simpl. rewrite app_nil_r.
  unfold py_split. rewrite words_from_blank_end by assumption. reflexivity.
Qed.

Lemma wrap_line_words (width : nat) (started : bool) (chunks : list pystr) :
  wrappable width chunks ->
  py_split (concat (wrap_line width started chunks).1)
  ++ words_of (wrap_line width started chunks).2 = words_of chunks /\
  wrappable width (wrap_line width started chunks).2.
Proof.
  intros Hinv. unfold wrap_line.
  set (chunks1 := match chunks with [] => [] | c :: rest => _ end).
  assert (H1 : words_of chunks1 = words_of chunks /\ wrappable width chunks1).
  { unfold chunks1. destruct chunks as [|c rest]; [split; [reflexivity|exact Hinv]|].
    destruct (all_space c) eqn:Eb; simpl; [|split; [reflexivity|exact Hinv]].
    destruct started; simpl; [|split; [reflexivity|exact Hinv]].
    split; [symmetry; apply words_of_cons_blank; assumption|].
    apply (wrappable_app width [c] rest). exact Hinv. }
  destruct H1 as [Hwords Hinv1]. rewrite <- Hwords.
  pose proof (take_fitting_spec width 0 chunks1 ltac:(lia)) as H.
  destruct (take_fitting width 0 chunks1) as [[cur_line cur_len] chunks2].
  destruct H as (Hc & Hn & Hle & Hr). simpl in Hn.
  rewrite Hc in Hinv1 |- *. apply wrappable_app in Hinv1 as [Hline Hrest].
  assert (Hsplit : py_split (concat cur_line) = words_of cur_line).
  { destruct Hline as (Hok & Hsep & _). apply py_split_concat; assumption. }
  rewrite words_of_app.
  destruct chunks2 as [|c rest].
  - simpl. rewrite drop_trailing_blank_split, Hsplit. split; [reflexivity|exact Hrest].
  - destruct (width <? length c)%nat eqn:E.
    + apply Nat.ltb_lt in E. cbn [fst snd].
      destruct Hrest as (Hok & Hsep & Hfit).
      apply Forall_cons in Hok as [[Hcne Hc'] Hok]. apply Forall_cons in Hfit as [Hcfit Hfit].
      assert (Hcb : all_space c = true).
      { destruct (all_space c) eqn:Eb; [reflexivity|]. specialize (Hcfit Eb). lia. }
      pose proof (break_point_le c (width - cur_len)) as He.
      set (e := break_point c (width - cur_len)) in *.
      rewrite drop_trailing_blank_split, concat_app. simpl concat. rewrite app_nil_r.
      unfold py_split at 1. rewrite words_from_blank_end by (apply all_space_take; assumption).
      fold (py_split (concat cur_line)). rewrite Hsplit.
      rewrite !words_of_cons_blank by (try apply all_space_drop; assumption).
      split; [reflexivity|]. split; [|split].
      * constructor; [|assumption]. split.
        -- intros Hd. apply (f_equal (@length ascii)) in Hd.
           rewrite length_drop in Hd. simpl in Hd. lia.
        -- left. apply all_space_drop. assumption.
      * eapply separated_blank_head; [apply all_space_drop; assumption|exact Hsep].
      * constructor; [|assumption]. intros Hd.
        rewrite all_space_drop in Hd by assumption. discriminate.
    + cbn [fst snd]. rewrite drop_trailing_blank_split, Hsplit.
      split; [reflexivity|exact Hrest].
Qed.

Lemma wrap_loop_words (fuel width : nat) (started : bool) (chunks : list pystr) :
  (1 <= width)%nat -> (chunks_measure chunks <= fuel)%nat ->
  wrappable width chunks ->
  concat (map py_split (wrap_loop fuel width started chunks)) = words_of chunks.
Proof.
  intros Hw. revert started chunks.
  induction fuel as [|fuel IH]; intros started chunks Hfuel Hinv.
  - destruct chunks; [reflexivity|simpl in Hfuel; lia].
  - destruct chunks as [|c cs]; [reflexivity|]. simpl wrap_loop.
    pose proof (wrap_line_measure width started (c :: cs) Hw ltac:(congruence)) as Hm.
    pose proof (wrap_line_words width started (c :: cs) Hinv) as [Hwords Hinv'].
    destruct (wrap_line width started (c :: cs)) as [cur_line chunks'].
    cbn [fst snd] in *.
    assert (Hf : (chunks_measure chunks' <= fuel)%nat) by lia.
    destruct cur_line as [|x cur_line].
    + rewrite IH by assumption. exact Hwords.
    + simpl map. simpl concat at 1. rewrite IH by assumption. exact Hwords.
Qed.
(** ** textwrap: white space and chunks of a text without dashes *)

Lemma tw_space_is_py_space (c : ascii) : is_tw_space c = true -> is_py_space c = true.
Proof.
  unfold is_tw_space, is_py_space, in_ranges. simpl. rewrite !orb_false_r.
  intros H. apply orb_true_iff in H as [H|H]; apply andb_true_iff in H as [H1 H2];
    apply N.leb_le in H1; apply N.leb_le in H2.
  - replace (9 <=? code c)%N with true by (symmetry; apply N.leb_le; lia).
    replace (code c <=? 13)%N with true by (symmetry; apply N.leb_le; lia).
    reflexivity.
  - replace (28 <=? code c)%N with true by (symmetry; apply N.leb_le; lia).
    replace (code c <=? 32)%N with true by (symmetry; apply N.leb_le; lia).
    rewrite orb_true_r. reflexivity.
Qed.

Lemma plain_char_spec (c : ascii) :
  plain_char c = true -> is_dash c = false /\ is_py_space c = is_tw_space c.
Proof.
  unfold plain_char. intros H. apply andb_true_iff in H as [H1 H2].
  apply negb_true_iff in H1. apply Bool.eqb_prop in H2. split; assumption.
Qed.

Lemma simple_space_iff (c : ascii) :
  simple_char c -> is_tw_space c = is_py_space c /\ is_dash c = false.
Proof.
  intros [->|[Hs Hd]]; [split; reflexivity|]. split; [|assumption].
  destruct (is_tw_space c) eqn:E; [|congruence].
  apply tw_space_is_py_space in E. congruence.
Qed.

Lemma munge_as_map (text : pystr) :
  _munge_whitespace text = map munge_char (expandtabs 0 text).
Proof. reflexivity. Qed.

Lemma tab_space (c : ascii) : (code c =? 9)%N = true -> is_tw_space c = true.
Proof.
  intros H. apply N.eqb_eq in H. unfold is_tw_space, in_ranges. simpl.
  rewrite H. reflexivity.
Qed.

Lemma newline_space (c : ascii) :
  (code c =? 10)%N || (code c =? 13)%N = true -> is_tw_space c = true.
Proof.
  intros H. unfold is_tw_space, in_ranges. simpl.
  apply orb_true_iff in H as [H|H]; apply N.eqb_eq in H; rewrite H; reflexivity.
Qed.

Lemma map_munge_spaces (n : nat) :
  map munge_char (replicate n " "%char) = replicate n " "%char.
Proof. induction n as [|n IH]; simpl; [reflexivity|]. rewrite IH. reflexivity. Qed.

Lemma all_space_spaces (n : nat) : all_space (replicate n " "%char) = true.
Proof. induction n as [|n IH]; simpl; [reflexivity|]. exact IH. Qed.

Lemma tab_stop_pos (col : nat) : (1 <= 8 - col mod 8)%nat.
Proof. pose proof (Nat.mod_upper_bound col 8). lia. Qed.

Lemma munge_words (s : pystr) (col : nat) (cur : pystr) :
  forallb plain_char s = true ->
  words_from cur (map munge_char (expandtabs col s)) = words_from cur s.
Proof.
  revert col cur. induction s as [|c s IH]; intros col cur Hp; [reflexivity|].
  simpl in Hp. apply andb_true_iff in Hp as [Hc Hp].
  apply plain_char_spec in Hc as [Hd Hsp]. simpl expandtabs.
  destruct (code c =? 9)%N eqn:Etab.
  - pose proof (tab_space c Etab) as Htw.
    rewrite map_app, map_munge_spaces.
    rewrite words_from_blank; [|apply all_space_spaces|].
    + rewrite words_from_space by congruence. f_equal. apply IH. assumption.
    + intros Hr. apply (f_equal (@length ascii)) in Hr.
      rewrite length_replicate in Hr. simpl in Hr.
      pose proof (tab_stop_pos col). lia.
  - destruct ((code c =? 10)%N || (code c =? 13)%N) eqn:Enl.
    + pose proof (newline_space c Enl) as Htw.
      simpl map. unfold munge_char at 1. rewrite Htw.
      rewrite !words_from_space by (reflexivity || congruence).
      f_equal. apply IH. assumption.
    + simpl map. unfold munge_char at 1. destruct (is_tw_space c) eqn:Htw.
      * rewrite !words_from_space by (reflexivity || congruence).
        f_equal. apply IH. assumption.
      * simpl. rewrite Hsp. apply IH. assumption.
Qed.

Lemma munge_split (cell : pystr) :
  forallb plain_char cell = true ->
  py_split (_munge_whitespace cell) = py_split cell.
Proof. intros H. rewrite munge_as_map. apply munge_words. assumption. Qed.

Lemma munge_simple (s : pystr) (col : nat) :
  forallb plain_char s = true ->
  Forall simple_char (map munge_char (expandtabs col s)).
Proof.
  revert col. induction s as [|c s IH]; intros col Hp; [constructor|].
  simpl in Hp. apply andb_true_iff in Hp as [Hc Hp].
  apply plain_char_spec in Hc as [Hd Hsp]. simpl expandtabs.
  assert (Hone : simple_char (munge_char c)).
  { unfold munge_char. destruct (is_tw_space c) eqn:Htw; [left; reflexivity|].
    right. split; congruence. }
  destruct (code c =? 9)%N.
  - rewrite map_app, map_munge_spaces. apply Forall_app. split; [|apply IH; assumption].
    apply Forall_forall. intros x Hx. apply elem_of_replicate in Hx as [-> _].
    left. reflexivity.
  - destruct ((code c =? 10)%N || (code c =? 13)%N);
      simpl map; (constructor; [exact Hone|apply IH; assumption]).
Qed.
(** ** textwrap: the chunks *)

(** The chunks of a text make up the text. *)
Lemma split_loop_concat (kind : chunk_kind) (ctx cur s : pystr) :
  concat (split_loop kind ctx cur s) = rev cur ++ s.
Proof.
  revert kind ctx cur. induction s as [|c rest IH]; intros kind ctx cur.
  - simpl. destruct cur; simpl; rewrite ?app_nil_r; reflexivity.
  - simpl. destruct cur as [|x cur].
    + rewrite IH. reflexivity.
    + destruct (split_action_at kind ctx c rest).
      * rewrite IH. simpl. rewrite <- !app_assoc. reflexivity.
      * simpl concat. rewrite IH. reflexivity.
      * simpl concat. rewrite IH. simpl. rewrite <- !app_assoc. reflexivity.
Qed.

Lemma all_space_rev (c : pystr) : all_space (rev c) = all_space c.
Proof.
  unfold all_space. apply eq_true_iff_eq. rewrite !forallb_forall.
  split; intros H x Hx; apply H; [apply in_rev in Hx|apply in_rev]; assumption.
Qed.

Lemma no_space_rev (c : pystr) : no_space (rev c) = no_space c.
Proof.
  unfold no_space. apply eq_true_iff_eq. rewrite !forallb_forall.
  split; intros H x Hx; apply H; [apply in_rev in Hx|apply in_rev]; assumption.
Qed.

Lemma rev_not_nil {A} (l : list A) : l <> [] -> rev l <> [].
Proof.
  intros Hne Hr. apply Hne. apply (f_equal (@rev A)) in Hr.
  rewrite rev_involutive in Hr. exact Hr.
Qed.

Lemma dashes_then_word_simple (c : ascii) (rest : pystr) :
  is_dash c = false -> dashes_then_word 0 (c :: rest) = false.
Proof. intros H. simpl. rewrite H. reflexivity. Qed.

Lemma emdash_here_simple (ctx : pystr) (c : ascii) (rest : pystr) :
  is_dash c = false -> emdash_here ctx (c :: rest) = false.
Proof.
  intros H. unfold emdash_here. destruct ctx; [reflexivity|].
  rewrite dashes_then_word_simple by assumption. apply andb_false_r.
Qed.

Lemma separated_cons (a : pystr) (cs : list pystr) :
  separated cs ->
  all_space a = true \/ (exists h tl, cs = h :: tl /\ all_space h = true) \/ cs = [] ->
  separated (a :: cs).
Proof.
  intros Hs H. destruct cs as [|b cs]; [exact I|]. split; [|exact Hs].
  destruct H as [H|[(h & tl & [= <- <-] & H)|H]]; [left|right|discriminate]; assumption.
Qed.

Lemma split_loop_simple (s : pystr) :
  Forall simple_char s ->
  forall kind ctx cur, split_state_ok kind cur ->
    Forall chunk_ok (split_loop kind ctx cur s) /\
    separated (split_loop kind ctx cur s) /\
    (cur <> [] -> kind = KSpace ->
     exists h tl, split_loop kind ctx cur s = h :: tl /\ all_space h = true).
Proof.
  induction 1 as [|c rest Hc Hrest IH]; intros kind ctx cur Hst.
  - simpl. destruct cur as [|x cur].
    + repeat split; [constructor|congruence].
    + assert (Hne : x :: cur <> []) by discriminate.
      destruct Hst as [Hst|[[-> Hst]|[-> Hst]]]; [congruence| |].
      * repeat split.
        -- constructor; [|constructor]. split; [apply rev_not_nil; assumption|].
           left. rewrite all_space_rev. assumption.
        -- intros _ _. eexists _, _. split; [reflexivity|].
           rewrite all_space_rev. assumption.
      * repeat split.
        -- constructor; [|constructor]. split; [apply rev_not_nil; assumption|].
           right. rewrite no_space_rev. assumption.
        -- intros _ Hk. discriminate Hk.
  - destruct (simple_space_iff c Hc) as [Htw Hd].
    assert (Hbegin : forall ctx',
              begin_kind ctx' c rest = if is_py_space c then KSpace else KWord).
    { intros ctx'. unfold begin_kind. rewrite Htw.
      destruct (is_py_space c); [reflexivity|].
      rewrite emdash_here_simple by assumption. reflexivity. }
    assert (Hnew : split_state_ok (if is_py_space c then KSpace else KWord) [c]).
    { destruct (is_py_space c) eqn:E.
      - right. left. split; [reflexivity|].
        change (all_space [c]) with (is_py_space c && true). rewrite E. reflexivity.
      - right. right. split; [reflexivity|].
        change (no_space [c]) with (negb (is_py_space c) && true). rewrite E. reflexivity. }
    simpl split_loop. destruct cur as [|x cur].
    + rewrite Hbegin. destruct (IH _ (c :: ctx) [c] Hnew) as (H1 & H2 & _).
      repeat split; [assumption|assumption|congruence].
    + assert (Hne : x :: cur <> []) by discriminate.
      destruct Hst as [Hst|[[-> Hst]|[-> Hst]]]; [congruence| |].
      * (* in a run of spaces *)
        unfold split_action_at. rewrite Htw. destruct (is_py_space c) eqn:E.
        -- assert (Hst' : split_state_ok KSpace (c :: x :: cur)).
           { right. left. split; [reflexivity|].
             change (all_space (c :: x :: cur)) with (is_py_space c && all_space (x :: cur)).
             rewrite E, Hst. reflexivity. }
           destruct (IH KSpace (c :: ctx) (c :: x :: cur) Hst') as (H1 & H2 & H3).
           repeat split; [assumption|assumption|].
           intros _ _. apply H3; [discriminate|reflexivity].
        -- rewrite Hbegin; rewrite ?E.
           assert (Hst' : split_state_ok KWord [c]) by (try rewrite E in Hnew; exact Hnew).
           destruct (IH KWord (c :: ctx) [c] Hst') as (H1 & H2 & _).
           assert (Hb : all_space (rev (x :: cur)) = true)
             by (rewrite all_space_rev; assumption).
           repeat split.
           ++ constructor; [|assumption]. split; [apply rev_not_nil; assumption|].
              left. assumption.
           ++ apply separated_cons; [assumption|left; assumption].
           ++ intros _ _. eexists _, _. split; [reflexivity|assumption].
      * (* in a word *)
        unfold split_action_at. rewrite Hd. cbn [andb].
        rewrite emdash_here_simple by assumption. rewrite orb_false_r, Htw.
        destruct (is_py_space c) eqn:E.
        -- rewrite Hbegin; rewrite ?E.
           assert (Hst' : split_state_ok KSpace [c]) by (try rewrite E in Hnew; exact Hnew).
           destruct (IH KSpace (c :: ctx) [c] Hst') as (H1 & H2 & H3).
           repeat split.
           ++ constructor; [|assumption]. split; [apply rev_not_nil; assumption|].
              right. rewrite no_space_rev. assumption.
           ++ apply separated_cons; [assumption|].
              right. left. apply H3; [discriminate|reflexivity].
           ++ intros _ Hk. discriminate Hk.
        -- assert (Hst' : split_state_ok KWord (c :: x :: cur)).
           { right. right. split; [reflexivity|].
             change (no_space (c :: x :: cur))
               with (negb (is_py_space c) && no_space (x :: cur)).
             rewrite E, Hst. reflexivity. }
           destruct (IH KWord (c :: ctx) (c :: x :: cur) Hst') as (H1 & H2 & _).
           repeat split; [assumption|assumption|].
           intros _ Hk. discriminate Hk.
Qed.

Lemma split_chunks_wrappable (cell : pystr) (width : nat) :
  forallb plain_char cell = true ->
  Forall (fun word => (length word <= width)%nat) (py_split cell) ->
  wrappable width (_split_chunks cell) /\
  words_of (_split_chunks cell) = py_split cell.
Proof.
  intros Hplain Hfit. unfold _split_chunks, _split.
  pose proof (munge_simple cell 0 Hplain) as Hsimple. rewrite <- munge_as_map in Hsimple.
  destruct (split_loop_simple _ Hsimple KWord [] [] ltac:(left; reflexivity))
    as (Hok & Hsep & _).
  assert (Hwords : words_of (split_loop KWord [] [] (_munge_whitespace cell))
                   = py_split cell).
  { rewrite <- py_split_concat by assumption.
    rewrite split_loop_concat. simpl. apply munge_split. assumption. }
  split; [|exact Hwords].
  split; [assumption|]. split; [assumption|].
  apply Forall_forall. intros c Hin Hc.
  rewrite Forall_forall in Hfit. apply Hfit. rewrite <- Hwords.
  unfold words_of. apply list_elem_of_filter. split; assumption.
Qed.

(** A cell without dashes whose words fit the width comes back from its
    wrapped lines. *)
Lemma textwrap_wrap_words (cell : pystr) (width : Z) (lines : list pystr) :
  textwrap_wrap cell width = Ok lines ->
  forallb plain_char cell = true ->
  Forall (fun word => len word <= width) (py_split cell) ->
  collapse (join space lines) = collapse cell.
Proof.
  unfold textwrap_wrap, _wrap_chunks.
  destruct (width <=? 0) eqn:E; [discriminate|]. apply Z.leb_gt in E.
  intros [= <-] Hplain Hfit.
  assert (Hfit' : Forall (fun word => (length word <= Z.to_nat width)%nat) (py_split cell)).
  { eapply Forall_impl; [exact Hfit|]. intros word Hw. simpl in Hw. unfold len in Hw. lia. }
  destruct (split_chunks_wrappable cell (Z.to_nat width) Hplain Hfit') as [Hinv Hwords].
  unfold collapse. f_equal.
  rewrite py_split_join.
  rewrite wrap_loop_words; [exact Hwords|lia|lia|exact Hinv].
Qed.
(** ** The wrapped cells of a table *)

Lemma mapM_lookup {A B} (f : A -> result B) (l : list A) (r : list B) (j : nat) (x : A) :
  mapM f l = Ok r -> l !! j = Some x -> exists y, r !! j = Some y /\ f x = Ok y.
Proof.
  intros H Hj. apply mapM_Forall2 in H.
  destruct (Forall2_lookup_l _ _ _ _ _ H Hj) as (y & Hy & Hf). eauto.
Qed.

Lemma wrap_columns_lookup (columns : list (list pystr)) (col_widths : list Z)
    (wrapped : list (list (list pystr))) (i : nat) (column : list pystr) (width : Z) :
  wrap_columns columns col_widths = Ok wrapped ->
  columns !! i = Some column -> col_widths !! i = Some width ->
  exists wcol,
    wrapped !! i = Some wcol /\
    mapM (fun cell => textwrap_wrap cell width) column = Ok wcol.
Proof.
  revert col_widths wrapped i.
  induction columns as [|col columns IH]; intros col_widths wrapped i Hw Hc Hcw.
  - rewrite lookup_nil in Hc. discriminate.
  - destruct col_widths as [|w col_widths]; [rewrite lookup_nil in Hcw; discriminate|].
    simpl in Hw.
    destruct (mapM (fun cell => textwrap_wrap cell w) col) as [wcol|] eqn:E1;
      simpl in Hw; [|discriminate].
    destruct (wrap_columns columns col_widths) as [rest|] eqn:E2;
      simpl in Hw; [|discriminate].
    injection Hw as <-. destruct i as [|i]; simpl in *.
    + injection Hc as <-. injection Hcw as <-. eauto.
    + eapply IH; eauto.
Qed.

(** C4, amended. In a table laid out with [wrap] set, every cell is wrapped
    to the final width of its column and no line of it is longer than that
    width. For a cell without dashes, whose white space is that of the
    wrapper and whose words all fit in the width, the lines joined by single
    spaces give, once white space is collapsed, the cell with its white
    space collapsed. *)
Theorem wrapped_cells_correct (terminal_width : Z) (columns : list (list pystr))
    (padding : Z) (alignment : alignment_arg) (text : pystr) :
  forallb (fun col => len col =? 0) columns = false ->
  render_table terminal_width columns padding alignment true = Ok text ->
  exists col_widths wrapped,
    column_widths terminal_width padding true columns = Ok col_widths /\
    wrap_columns columns col_widths = Ok wrapped /\
    forall i j column cell,
      columns !! i = Some column -> column !! j = Some cell ->
      exists width wcol lines,
        col_widths !! i = Some width /\
        wrapped !! i = Some wcol /\ wcol !! j = Some lines /\
        textwrap_wrap cell width = Ok lines /\
        Forall (fun line => len line <= width) lines /\
        (forallb plain_char cell = true ->
         Forall (fun word => len word <= width) (py_split cell) ->
         collapse (join space lines) = collapse cell).
Proof.
  intros Hne Hr. unfold render_table in Hr. rewrite Hne in Hr.
  destruct (resolve_alignment alignment (length columns)) as [al|]; [|discriminate].
  cbn [bind] in Hr.
  destruct (column_widths terminal_width padding true columns) as [col_widths|] eqn:Ew;
    [|discriminate].
  cbn [bind] in Hr.
  destruct (wrap_columns columns col_widths) as [wrapped|] eqn:Ewr; [|discriminate].
  exists col_widths, wrapped. split; [reflexivity|]. split; [exact Ewr|].
  intros i j column cell Hi Hj.
  assert (Hlen : length col_widths = length columns).
  { unfold column_widths in Ew.
    destruct (natural_widths columns) as [natural|] eqn:En; [|discriminate].
    cbn [bind] in Ew. unfold shrink_widths in Ew.
    apply mapM_length in Ew. unfold natural_widths in En. apply mapM_length in En.
    etransitivity; [exact Ew|exact En]. }
  destruct (lookup_lt_is_Some_2 col_widths i) as [width Hwd].
  { rewrite Hlen. eapply lookup_lt_Some. exact Hi. }
  destruct (wrap_columns_lookup _ _ _ _ _ _ Ewr Hi Hwd) as (wcol & Hwcol & Hm).
  destruct (mapM_lookup _ _ _ _ _ Hm Hj) as (lines & Hlines & Hwrap).
  exists width, wcol, lines. repeat split; try assumption.
  - eapply textwrap_wrap_width. exact Hwrap.
  - intros Hplain Hfit. eapply textwrap_wrap_words; eassumption.
Qed.

Lemma wrapped_cells_correct_witness :
  exists col_widths wrapped,
    column_widths 80 2 true alice_bob = Ok col_widths /\
    wrap_columns alice_bob col_widths = Ok wrapped /\
    forall i j column cell,
      alice_bob !! i = Some column -> column !! j = Some cell ->
      exists width wcol lines,
        col_widths !! i = Some width /\
        wrapped !! i = Some wcol /\ wcol !! j = Some lines /\
        textwrap_wrap cell width = Ok lines /\
        Forall (fun line => len line <= width) lines /\
        (forallb plain_char cell = true ->
         Forall (fun word => len word <= width) (py_split cell) ->
         collapse (join space lines) = collapse cell).
Proof.
  apply (wrapped_cells_correct 80 alice_bob 2 AlignNone
           (str_of "alice  30  " ++ newline ++ str_of "bob    7   ")).
  - reflexivity.
  - vm_compute. reflexivity.
Defined.

(** C4 as stated fails: a word longer than the width of its column is cut,
    and joining the pieces with a space does not give the word back. *)
Lemma long_word_is_broken :
  let cell := str_of "abcdef" in
  exists width lines,
    column_widths 5 2 true [[cell]] = Ok [width] /\
    wrap_columns [[cell]] [width] = Ok [[lines]] /\
    collapse (join space lines) <> collapse cell.
Proof.
  exists 3, [str_of "abc"; str_of "def"]. split; [|split].
  - vm_compute. reflexivity.
  - vm_compute. reflexivity.
  - vm_compute. intros H. discriminate H.
Qed.

(** The two conditions on the characters are needed as well. A word with a
    hyphen may be split after the hyphen although it fits in the width. *)
Lemma hyphenated_word_is_split :
  let cell := str_of "xxxx ab-cd" in
  column_widths 10 2 true [[cell]] = Ok [8] /\
  Forall (fun word => len word <= 8) (py_split cell) /\
  textwrap_wrap cell 8 = Ok [str_of "xxxx ab-"; str_of "cd"] /\
  collapse (join space [str_of "xxxx ab-"; str_of "cd"]) <> collapse cell.
Proof.
  split; [vm_compute; reflexivity|]. split; [|split].
  - repeat constructor; vm_compute; discriminate.
  - vm_compute. reflexivity.
  - vm_compute. intros H. discriminate H.
Qed.

(** White space that the wrapper does not know, here a no-break space, joins
    two words into one chunk, which is cut when it is too long. *)
Lemma other_white_space_is_no_break :
  let nbsp := ascii_of_N 160 in
  let cell := str_of "aaa" ++ nbsp :: str_of "bbb" in
  column_widths 7 2 true [[cell]] = Ok [5] /\
  Forall (fun word => len word <= 5) (py_split cell) /\
  textwrap_wrap cell 5 = Ok [str_of "aaa" ++ nbsp :: str_of "b"; str_of "bb"] /\
  collapse (join space [str_of "aaa" ++ nbsp :: str_of "b"; str_of "bb"])
  <> collapse cell.
Proof.
  split; [vm_compute; reflexivity|]. split; [|split].
  - repeat constructor; vm_compute; discriminate.
  - vm_compute. reflexivity.
  - vm_compute. intros H. discriminate H.
Qed.

(** ** The errors of format_table *)

Lemma mapM_raise {A B} (f : A -> result B) (l : list A) (e : exn) :
  mapM f l = Raise e -> exists x, x ∈ l /\ f x = Raise e.
Proof.
  induction l as [|x l IH]; simpl; [discriminate|].
  destruct (f x) as [y|e'] eqn:E; simpl.
  - destruct (mapM f l) as [ys|e'']; simpl; [discriminate|].
    intros [= <-]. destruct (IH eq_refl) as (x' & Hin & Hx').
    exists x'. split; [apply list_elem_of_further; assumption|assumption].
  - intros [= <-]. exists x. split; [apply list_elem_of_here|assumption].
Qed.

Lemma py_max_raise (xs : list Z) (e : exn) :
  py_max xs = Raise e -> e = ValueError "max() arg is an empty sequence".
Proof. destruct xs; simpl; [intros [= <-]; reflexivity|discriminate]. Qed.

Lemma check_overflow_raise (u : Z) (e : exn) :
  match check_overflow u with
  | Finite u' => Ok (Finite u')
  | Infinite => Raise OverflowError
  end = Raise e -> e = OverflowError.
Proof. destruct (check_overflow u); [discriminate|intros [= <-]; reflexivity]. Qed.

Lemma shrink_one_raise (w a b : Z) (e : exn) :
  (let* x := int_minus_quotient w a b in py_round x) = Raise e ->
  e = ZeroDivisionError \/ e = OverflowError.
Proof.
  unfold int_minus_quotient, int_true_div.
  destruct (b =? 0); [intros [= <-]; left; reflexivity|].
  destruct (check_overflow (if 0 <? b then _ else _)) as [q|]; simpl;
    [|intros [= <-]; right; reflexivity].
  unfold float_of_int.
  destruct (check_overflow (round_units (w * units_per_one) 1)) as [wf|]; simpl;
    [|intros [= <-]; right; reflexivity].
  destruct (check_overflow (round_units (wf - q) 1)); simpl;
    [discriminate|intros [= <-]; right; reflexivity].
Qed.

Lemma column_widths_raise (terminal_width padding : Z) (wrap : bool)
    (columns : list (list pystr)) (e : exn) :
  column_widths terminal_width padding wrap columns = Raise e -> layout_error e.
Proof.
  unfold column_widths, natural_widths.
  destruct (mapM (fun col => py_max (map len col)) columns) as [natural|e'] eqn:En; simpl.
  - destruct wrap; [|discriminate]. unfold shrink_widths. intros H.
    apply mapM_raise in H as (w & _ & H). apply shrink_one_raise in H.
    unfold layout_error. tauto.
  - intros [= <-]. apply mapM_raise in En as (col & _ & H).
    apply py_max_raise in H. left. assumption.
Qed.

Lemma textwrap_wrap_raise (text : pystr) (width : Z) (e : exn) :
  textwrap_wrap text width = Raise e ->
  e = ValueError ("invalid width " ++ show_int width ++ " (must be > 0)").
Proof.
  unfold textwrap_wrap, _wrap_chunks. destruct (width <=? 0); [|discriminate].
  intros [= <-]. reflexivity.
Qed.

Lemma wrap_columns_raise (columns : list (list pystr)) (col_widths : list Z) (e : exn) :
  wrap_columns columns col_widths = Raise e -> layout_error e.
Proof.
  revert col_widths. induction columns as [|col columns IH]; intros [|w ws]; simpl;
    try discriminate.
  destruct (mapM (fun cell => textwrap_wrap cell w) col) as [wcol|e'] eqn:Em; simpl.
  - destruct (wrap_columns columns ws) as [rest|e''] eqn:Ew; simpl; [discriminate|].
    intros [= <-]. eapply IH. exact Ew.
  - intros [= <-]. apply mapM_raise in Em as (cell & _ & H).
    apply textwrap_wrap_raise in H. right. left. exists w. assumption.
Qed.

Lemma justify_raise (align : Z) (s : pystr) (width : Z) (e : exn) :
  justify align s width = Raise e -> e = tag_error /\ known_tag align = false.
Proof.
  unfold justify, known_tag.
  destruct (align =? LEFT); [discriminate|].
  destruct (align =? RIGHT); [discriminate|].
  destruct (align =? CENTER); [discriminate|].
  intros [= <-]. split; reflexivity.
Qed.

Lemma build_line_raise (padding : Z) (i : nat) (row : list (list pystr))
    (col_widths alignment : list Z) (line : pystr) (e : exn) :
  build_line padding i row col_widths alignment line = Raise e ->
  e = tag_error /\ exists a, a ∈ alignment /\ known_tag a = false.
Proof.
  revert col_widths alignment line.
  induction row as [|cell row IH]; intros [|w ws] [|a al] line; simpl; try discriminate.
  destruct (justify a (nth i cell []) w) as [j|e'] eqn:Ej; simpl.
  - intros H. apply IH in H as (He & a' & Hin & Ha').
    split; [assumption|]. exists a'. split; [apply list_elem_of_further|]; assumption.
  - intros [= <-]. apply justify_raise in Ej as [He Ha].
    split; [assumption|]. exists a. split; [apply list_elem_of_here|assumption].
Qed.

Lemma row_lines_raise (padding : Z) (col_widths alignment : list Z)
    (row : list (list pystr)) (e : exn) :
  row_lines padding col_widths alignment row = Raise e ->
  layout_error e \/ (e = tag_error /\ exists a, a ∈ alignment /\ known_tag a = false).
Proof.
  unfold row_lines. destruct (py_max (map len row)) as [n|e'] eqn:Em; simpl.
  - intros H. apply mapM_raise in H as (i & _ & H).
    right. eapply build_line_raise. exact H.
  - intros [= <-]. apply py_max_raise in Em. left. left. assumption.
Qed.

Lemma resolve_alignment_raise (alignment : alignment_arg) (ncols : nat) (e : exn) :
  resolve_alignment alignment ncols = Raise e <->
  e = count_error /\
  exists l, alignment = AlignList l /\ l <> [] /\ length l <> ncols.
Proof.
  unfold resolve_alignment. split.
  - destruct alignment as [|a|[|x l]]; try discriminate.
    + destruct (a =? 0); discriminate.
    + destruct (negb (len (x :: l) =? Z.of_nat ncols)) eqn:E; [|discriminate].
      intros [= <-]. split; [reflexivity|]. exists (x :: l).
      split; [reflexivity|]. split; [discriminate|].
      apply negb_true_iff, Z.eqb_neq in E. unfold len in E. lia.
  - intros [-> (l & -> & Hne & Hlen)]. destruct l as [|x l]; [congruence|].
    replace (negb (len (x :: l) =? Z.of_nat ncols)) with true; [reflexivity|].
    symmetry. apply negb_true_iff, Z.eqb_neq. unfold len. lia.
Qed.

(** The errors of the layout: the two errors about the alignment, each with
    its cause, or an error of a builtin. *)
Lemma render_table_raise (terminal_width : Z) (columns : list (list pystr))
    (padding : Z) (alignment : alignment_arg) (wrap : bool) (e : exn) :
  render_table terminal_width columns padding alignment wrap = Raise e ->
  forallb (fun col => len col =? 0) columns = false /\
  ((e = count_error /\
    exists l, alignment = AlignList l /\ l <> [] /\ length l <> length columns) \/
   (e = tag_error /\
    exists al a, resolve_alignment alignment (length columns) = Ok al /\
                 a ∈ al /\ known_tag a = false) \/
   layout_error e).
Proof.
  unfold render_table. destruct (forallb _ columns); [discriminate|].
  intros H. split; [reflexivity|].
  destruct (resolve_alignment alignment (length columns)) as [al|e'] eqn:Ea.
  - cbn [bind] in H.
    destruct (column_widths terminal_width padding wrap columns) as [ws|e'] eqn:Ew.
    + cbn [bind] in H.
      destruct (wrap_columns columns ws) as [wrapped|e'] eqn:Ewr.
      * cbn [bind] in H.
        destruct (mapM (row_lines padding ws al) (_transpose wrapped)) as [lines|e'] eqn:El; [discriminate|].
        simpl in H. injection H as <-.
        apply mapM_raise in El as (row & _ & Hrow).
        apply row_lines_raise in Hrow as [Hl|[He (a & Hin & Ha)]].
        -- right. right. assumption.
        -- right. left. split; [assumption|]. exists al, a. auto.
      * simpl in H. injection H as <-. right. right.
        eapply wrap_columns_raise. exact Ewr.
    + simpl in H. injection H as <-. right. right.
      eapply column_widths_raise. exact Ew.
  - simpl in H. injection H as <-. left. apply resolve_alignment_raise. exact Ea.
Qed.

Lemma insert_headers_raise (i : nat) (columns : list loc) (headers : list pystr)
    (σ : store) (e : exn) :
  (insert_headers i columns headers σ).2 = Raise e -> e = IndexError.
Proof.
  revert i σ. induction columns as [|col columns IH]; intros i σ; simpl; [discriminate|].
  destruct (headers !! i); [apply IH|]. simpl. intros [= <-]. reflexivity.
Qed.

Lemma insert_headers_fresh_raise (i : nat) (columns : list (list pystr))
    (headers : list pystr) (e : exn) :
  insert_headers_fresh i columns headers = Raise e -> e = IndexError.
Proof.
  revert i. induction columns as [|col columns IH]; intros i; simpl; [discriminate|].
  destruct (headers !! i); [|intros [= <-]; reflexivity].
  destruct (insert_headers_fresh (S i) columns headers) eqn:E; simpl; [discriminate|].
  intros [= <-]. eapply IH. exact E.
Qed.

(** The head of [format_table] raises its two errors on the truth values of
    [rows] and [columns], or [IndexError] for missing headers. *)
Lemma table_columns_raise (rows columns : option (list loc))
    (headers : option (list pystr)) (σ : store) (e : exn) :
  (table_columns rows columns headers σ).2 = Raise e ->
  (e = both_error /\ truthy rows = true /\ truthy columns = true) \/
  (e = neither_error /\ truthy rows = false /\ truthy columns = false) \/
  (e = IndexError /\ truthy rows && truthy columns = false
   /\ truthy rows || truthy columns = true).
Proof.
  unfold table_columns.
  destruct (truthy rows && truthy columns) eqn:Eb.
  - simpl. intros [= <-]. apply andb_true_iff in Eb. left. tauto.
  - intros H.
    assert (Hfresh : forall cols, (if truthy headers
                      then insert_headers_fresh 0 cols (default [] headers)
                      else Ok cols) = Raise e -> e = IndexError).
    { intros cols. destruct (truthy headers); [|discriminate].
      apply insert_headers_fresh_raise. }
    assert (Hplace : forall cols,
               (let '(σ', r) := if truthy headers
                                then insert_headers 0 cols (default [] headers) σ
                                else (σ, Ok tt) in
                (σ', let* _ := r in Ok (map (fun col => σ' !!! col) cols))).2 = Raise e ->
               e = IndexError).
    { intros cols. destruct (truthy headers); [|discriminate].
      pose proof (insert_headers_raise 0 cols (default [] headers) σ e) as Hi.
      destruct (insert_headers 0 cols (default [] headers) σ) as [σ' [[]|e']];
        simpl in Hi |- *; [discriminate|]. intros [= <-]. apply Hi. reflexivity. }
    destruct columns as [[|c cs]|]; destruct rows as [[|r rs]|];
      cbn [truthy andb] in Eb; try discriminate Eb.
    all: try (injection H as <-; right; left; repeat split; reflexivity).
    all: right; right; (split; [|split; reflexivity]).
    all: first [apply Hplace in H; exact H | apply Hfresh in H; exact H].
Qed.

Lemma table_columns_ok (rows columns : option (list loc))
    (headers : option (list pystr)) (σ : store) (cols : list (list pystr)) :
  (table_columns rows columns headers σ).2 = Ok cols ->
  truthy rows && truthy columns = false /\ truthy rows || truthy columns = true.
Proof.
  unfold table_columns.
  destruct (truthy rows && truthy columns) eqn:Eb; [discriminate|].
  destruct columns as [[|c cs]|]; destruct rows as [[|r rs]|]; simpl in Eb |- *;
    try discriminate; intros _; split; reflexivity.
Qed.

Lemma format_table_result (tw : Z) (rows columns : option (list loc))
    (headers : option (list pystr)) (padding : Z) (alignment : alignment_arg)
    (wrap : bool) (σ : store) :
  (format_table tw rows columns headers padding alignment wrap σ).2 =
  let* cols := (table_columns rows columns headers σ).2 in
  render_table tw cols padding alignment wrap.
Proof.
  unfold format_table. destruct (table_columns rows columns headers σ). reflexivity.
Qed.

Lemma layout_error_not_own (e : exn) :
  layout_error e ->
  e <> both_error /\ e <> neither_error /\ e <> count_error /\ e <> tag_error.
Proof.
  intros [->|[[w ->]|[->| ->]]]; repeat split; discriminate.
Qed.

(** C3 as stated fails in both directions. An empty alignment list for one
    column is a malformed input of the claim, and it is taken for the
    default alignment; so is the unknown tag 7 for a table whose only cell is
    blank, which gives no line and is never looked at. And a table with an
    empty column beside a filled one, which is none of the malformed inputs,
    raises the [ValueError] of [max]. *)
Lemma format_table_errors_not_as_stated :
  let σ : store := {[ 1%positive := [str_of "a"] ]} in
  let τ : store := {[ 1%positive := [str_of "a"]; 2%positive := [] ]} in
  let blank : store := {[ 1%positive := [str_of " "] ]} in
  (spec_caller_error None (Some [1%positive]) (AlignList []) 1 = true /\
   (format_table 80 None (Some [1%positive]) None 2 (AlignList []) true σ).2
   = Ok (str_of "a  ")) /\
  (spec_caller_error None (Some [1%positive; 2%positive]) AlignNone 2 = false /\
   (format_table 80 None (Some [1%positive; 2%positive]) None 2 AlignNone true τ).2
   = Raise (ValueError "max() arg is an empty sequence")) /\
  (spec_caller_error None (Some [1%positive]) (AlignInt 7) 1 = true /\
   (format_table 80 None (Some [1%positive]) None 2 (AlignInt 7) false blank).2
   = Ok []).
Proof. vm_compute. repeat split. Qed.

(** ** Transposition *)

Local Open Scope nat_scope.

Lemma zip_heads_Some {T} (ll : list (list T)) (hs : list T) (ts : list (list T)) :
  zip_heads ll = Some (hs, ts) ->
  length hs = length ll /\ length ts = length ll /\ ll = zip_with cons hs ts.
Proof.
  revert hs ts. induction ll as [|l ll IH]; intros hs ts; simpl.
  - intros [= <- <-]. auto.
  - destruct l as [|x l]; [discriminate|].
    destruct (zip_heads ll) as [[hs' ts']|]; [|discriminate].
    intros [= <- <-]. destruct (IH hs' ts' eq_refl) as (H1 & H2 & H3).
    simpl. rewrite H1, H2, <- H3. auto.
Qed.

Lemma zip_heads_None {T} (ll : list (list T)) :
  zip_heads ll = None -> [] ∈ ll.
Proof.
  induction ll as [|l ll IH]; simpl; [discriminate|].
  destruct l as [|x l]; [intros _; apply list_elem_of_here|].
  destruct (zip_heads ll) as [[hs ts]|]; [discriminate|].
  intros _. apply list_elem_of_further. apply IH. reflexivity.
Qed.

Lemma fold_min_le (n : nat) (xs : list nat) : fold_right Nat.min n xs <= n.
Proof. induction xs as [|x xs IH]; simpl; lia. Qed.

Lemma fold_min_zero (n : nat) (xs : list nat) : 0 ∈ xs -> fold_right Nat.min n xs = 0.
Proof.
  induction xs as [|x xs IH]; intros H; [inversion H|].
  apply elem_of_cons in H as [<-|H]; simpl; [reflexivity|].
  rewrite IH by assumption. lia.
Qed.

Lemma fold_min_succ (n : nat) (xs : list nat) :
  fold_right Nat.min (S n) (map S xs) = S (fold_right Nat.min n xs).
Proof. induction xs as [|x xs IH]; simpl; [reflexivity|]. rewrite IH. lia. Qed.

Lemma length_zip_with_cons {T} (hs : list T) (ts : list (list T)) :
  length hs = length ts ->
  map length (zip_with cons hs ts) = map S (map length ts).
Proof.
  revert ts. induction hs as [|h hs IH]; intros [|t ts]; simpl; try discriminate.
  - reflexivity.
  - intros [= H]. rewrite IH by assumption. reflexivity.
Qed.

Lemma transpose_n_length {T} (n : nat) (ll : list (list T)) :
  length (transpose_n n ll) = fold_right Nat.min n (map length ll).
Proof.
  revert ll. induction n as [|n IH]; intros ll; simpl.
  - symmetry. pose proof (fold_min_le 0 (map length ll)). lia.
  - destruct (zip_heads ll) as [[hs ts]|] eqn:E.
    + apply zip_heads_Some in E as (H1 & H2 & H3).
      simpl. rewrite IH. rewrite H3.
      rewrite length_zip_with_cons by congruence.
      rewrite fold_min_succ. reflexivity.
    + apply zip_heads_None in E. simpl. symmetry. apply fold_min_zero.
      apply list_elem_of_fmap. exists []. auto.
Qed.

Lemma lookup_zip_with_cons {T} (hs : list T) (ts : list (list T)) (j : nat) (l : list T) :
  zip_with cons hs ts !! j = Some l ->
  exists h t, l = h :: t /\ hs !! j = Some h /\ ts !! j = Some t.
Proof.
  revert ts j. induction hs as [|h hs IH]; intros [|t ts] j; simpl; try discriminate.
  destruct j as [|j]; simpl.
  - intros [= <-]. eauto.
  - apply IH.
Qed.

Lemma transpose_n_lookup {T} (n : nat) (ll : list (list T)) (i : nat) (row : list T) :
  transpose_n n ll !! i = Some row ->
  length row = length ll /\ forall j l, ll !! j = Some l -> row !! j = l !! i.
Proof.
  revert ll i row. induction n as [|n IH]; intros ll i row; simpl; [discriminate|].
  destruct (zip_heads ll) as [[hs ts]|] eqn:E; [|discriminate].
  apply zip_heads_Some in E as (H1 & H2 & H3).
  destruct i as [|i]; simpl.
  - intros [= <-]. split; [assumption|]. intros j l Hl. rewrite H3 in Hl.
    apply lookup_zip_with_cons in Hl as (h & t & -> & Hh & _). simpl. assumption.
  - intros Hrow. apply IH in Hrow as [Hlen Hrow]. split; [congruence|].
    intros j l Hl. rewrite H3 in Hl.
    apply lookup_zip_with_cons in Hl as (h & t & -> & _ & Ht). simpl.
    apply Hrow. assumption.
Qed.

Lemma transpose_length {T} (ll : list (list T)) :
  length (_transpose ll) = shortest ll.
Proof.
  destruct ll as [|l ll]; [reflexivity|].
  unfold _transpose. rewrite transpose_n_length. simpl.
  pose proof (fold_min_le (length l) (map length ll)). lia.
Qed.

Lemma transpose_lookup {T} (ll : list (list T)) (i : nat) (row : list T) :
  _transpose ll !! i = Some row ->
  length row = length ll /\ forall j l, ll !! j = Some l -> row !! j = l !! i.
Proof.
  destruct ll as [|l ll]; [discriminate|]. apply transpose_n_lookup.
Qed.

(** X1. [_transpose] stops at the shortest list: it gives as many rows as
    the shortest list has entries, none for no list at all. Every row has
    one entry for each of the lists, and entry [j] of row [i] is entry [i]
    of list [j]. *)
Theorem transpose_shape {T} (ll : list (list T)) :
  length (_transpose ll) = shortest ll /\
  forall i row,
    _transpose ll !! i = Some row ->
    length row = length ll /\ forall j l, ll !! j = Some l -> row !! j = l !! i.
Proof.
  split; [apply transpose_length|]. intros i row. apply transpose_lookup.
Qed.

Lemma shortest_rectangular {T} (ll : list (list T)) (n : nat) :
  ll <> [] -> Forall (fun l => length l = n) ll -> shortest ll = n.
Proof.
  intros Hne Hall. destruct ll as [|l ll]; [congruence|].
  inversion Hall as [|? ? Hl Hll]; subst. simpl. clear Hne Hall.
  induction Hll as [|x xs Hx _ IH]; simpl; [reflexivity|]. rewrite Hx, IH. lia.
Qed.

Lemma transpose_rows_length {T} (ll : list (list T)) :
  Forall (fun row => length row = length ll) (_transpose ll).
Proof.
  apply Forall_lookup. intros i row Hrow. apply transpose_lookup in Hrow. tauto.
Qed.

(** X2. Transposing twice gives back a table that is rectangular and not
    empty: all lists of the same length, at least one list and at least one
    entry in each. *)
Theorem transpose_involutive {T} (ll : list (list T)) (n : nat) :
  ll <> [] -> 0 < n -> Forall (fun l => length l = n) ll ->
  _transpose (_transpose ll) = ll.
Proof.
  intros Hne Hn Hall.
  assert (Hrows : length (_transpose ll) = n).
  { rewrite transpose_length. apply shortest_rectangular; assumption. }
  assert (Hne' : _transpose ll <> []).
  { intros H. rewrite H in Hrows. simpl in Hrows. lia. }
  assert (Hlen : length (_transpose (_transpose ll)) = length ll).
  { rewrite transpose_length.
    apply shortest_rectangular; [assumption|apply transpose_rows_length]. }
  apply list_eq. intros j.
  destruct (ll !! j) as [l|] eqn:Hl.
  - destruct (lookup_lt_is_Some_2 (_transpose (_transpose ll)) j) as [l' Hl'].
    { rewrite Hlen. eapply lookup_lt_Some. exact Hl. }
    rewrite Hl'. f_equal.
    destruct (transpose_lookup _ _ _ Hl') as [Hlen' Hent].
    apply list_eq. intros i.
    destruct (_transpose ll !! i) as [row|] eqn:Hrow.
    + rewrite (Hent i row Hrow).
      destruct (transpose_lookup _ _ _ Hrow) as [_ Hent']. apply Hent'. assumption.
    + apply lookup_ge_None in Hrow.
      rewrite Forall_forall in Hall.
      assert (length l = n) by (apply Hall; eapply list_elem_of_lookup_2; exact Hl).
      rewrite (proj2 (lookup_ge_None l' i)) by lia.
      symmetry. apply lookup_ge_None. lia.
  - apply lookup_ge_None in Hl. apply lookup_ge_None. lia.
Qed.

Lemma transpose_involutive_witness :
  _transpose (_transpose [[1; 2; 3]; [4; 5; 6]]) = [[1; 2; 3]; [4; 5; 6]].
Proof.
  apply (transpose_involutive [[1; 2; 3]; [4; 5; 6]] 3).
  - discriminate.
  - lia.
  - repeat constructor.
Defined.

Local Close Scope nat_scope.

(** ** The lines of the table *)

Lemma len_app {A} (a b : list A) : len (a ++ b) = len a + len b.
Proof. unfold len. rewrite length_app. lia. Qed.

Lemma len_nonneg {A} (l : list A) : 0 <= len l.
Proof. unfold len. lia. Qed.

Lemma len_spaces (n : Z) : len (spaces n) = Z.max n 0.
Proof. unfold len, spaces. rewrite length_replicate. lia. Qed.

Lemma len_ljust (s : pystr) (width : Z) : len (ljust s width) = Z.max (len s) width.
Proof. unfold ljust. rewrite len_app, len_spaces. lia. Qed.

Lemma len_rjust (s : pystr) (width : Z) : len (rjust s width) = Z.max (len s) width.
Proof. unfold rjust. rewrite len_app, len_spaces. lia. Qed.

Lemma land_one_bounds (x : Z) : 0 <= Z.land x 1 <= 1.
Proof.
  change 1 with (Z.ones 1) at 1 2. rewrite Z.land_ones by lia.
  pose proof (Z.mod_pos_bound x (2 ^ 1)). change (2 ^ 1) with 2 in *. lia.
Qed.

Lemma len_center (s : pystr) (width : Z) : len (center s width) = Z.max (len s) width.
Proof.
  unfold center. cbv zeta. destruct (width - len s <=? 0) eqn:E.
  - apply Z.leb_le in E. lia.
  - apply Z.leb_gt in E.
    pose proof (land_one_bounds (Z.land (width - len s) width)) as Hb.
    assert (Hhalf : 0 <= (width - len s) / 2) by (apply Z.div_pos; lia).
    assert (Hle : (width - len s) / 2 + Z.land (Z.land (width - len s) width) 1
                  <= width - len s).
    { destruct (Z.eq_dec (width - len s) 1) as [H1|H1].
      - rewrite H1 in Hb |- *. change (1 / 2) with 0. lia.
      - assert (2 * ((width - len s) / 2) <= width - len s)
          by (apply Z.mul_div_le; lia).
        assert (1 <= (width - len s) / 2) by (apply Z.div_le_lower_bound; lia).
        lia. }
    rewrite !len_app, !len_spaces. lia.
Qed.

Lemma len_justify (align : Z) (s j : pystr) (width : Z) :
  justify align s width = Ok j -> len j = Z.max (len s) width.
Proof.
  unfold justify.
  destruct (align =? LEFT); [intros [= <-]; apply len_ljust|].
  destruct (align =? RIGHT); [intros [= <-]; apply len_rjust|].
  destruct (align =? CENTER); [intros [= <-]; apply len_center|discriminate].
Qed.

Lemma justify_known (align : Z) (s : pystr) (width : Z) :
  known_tag align = true -> exists j, justify align s width = Ok j.
Proof.
  unfold known_tag, justify. intros H.
  destruct (align =? LEFT); [eauto|]. destruct (align =? RIGHT); [eauto|].
  destruct (align =? CENTER); [eauto|discriminate].
Qed.

Lemma cell_fits_nth (cell : list pystr) (w : Z) (i : nat) :
  cell_fits cell w -> len (nth i cell []) <= w.
Proof.
  intros [Hw Hall]. destruct (nth_in_or_default i cell []) as [Hin| ->].
  - rewrite Forall_forall in Hall. apply Hall. apply list_elem_of_In. assumption.
  - exact Hw.
Qed.

Lemma build_line_length (padding : Z) (i : nat) (row : list (list pystr))
    (col_widths alignment : list Z) (acc line : pystr) :
  Forall2 cell_fits row col_widths ->
  length alignment = length col_widths ->
  build_line padding i row col_widths alignment acc = Ok line ->
  len line = len acc + py_sum col_widths + Z.max padding 0 * len col_widths.
Proof.
  intros Hfit. revert alignment acc.
  induction Hfit as [|cell w row ws Hc _ IH]; intros [|a al] acc Hlen;
    try discriminate Hlen; simpl.
  - intros [= <-]. unfold len; simpl. change (Z.of_nat 0) with 0. lia.
  - destruct (justify a (nth i cell []) w) as [j|] eqn:Ej; simpl; [|discriminate].
    intros H. apply IH in H; [|simpl in Hlen; congruence].
    apply len_justify in Ej. pose proof (cell_fits_nth cell w i Hc).
    rewrite H, !len_app, len_spaces, Ej.
    change (py_sum (w :: ws)) with (w + py_sum ws).
    replace (len (w :: ws)) with (Z.succ (len ws))
      by (unfold len; simpl length; rewrite Nat2Z.inj_succ; reflexivity).
    rewrite Z.mul_succ_r. lia.
Qed.

Lemma cell_fits_padded (cell : list pystr) (w : Z) (n : nat) :
  cell_fits cell w -> cell_fits (cell ++ replicate n []) w.
Proof.
  intros [Hw Hall]. split; [assumption|]. apply Forall_app. split; [assumption|].
  apply Forall_replicate. exact Hw.
Qed.

Lemma row_lines_length (padding : Z) (col_widths alignment : list Z)
    (row : list (list pystr)) (lines : list pystr) :
  Forall2 cell_fits row col_widths ->
  length alignment = length col_widths ->
  row_lines padding col_widths alignment row = Ok lines ->
  Forall (fun line => len line = py_sum col_widths + Z.max padding 0 * len col_widths)
         lines.
Proof.
  intros Hfit Hlen. unfold row_lines.
  destruct (py_max (map len row)) as [n_lines|]; simpl; [|discriminate].
  intros H. apply mapM_Forall2 in H.
  assert (Hfit' : Forall2 cell_fits
            (map (fun cell => cell ++ replicate (Z.to_nat (n_lines - len cell)) []) row)
            col_widths).
  { clear H Hlen. induction Hfit; simpl; constructor; auto using cell_fits_padded. }
  induction H as [|i line idx ls Hi _ IH]; constructor; [|assumption].
  apply build_line_length in Hi; assumption.
Qed.
Lemma resolve_alignment_length (alignment : alignment_arg) (ncols : nat) (al : list Z) :
  resolve_alignment alignment ncols = Ok al -> length al = ncols.
Proof.
  unfold resolve_alignment. destruct alignment as [|a|[|x l]].
  - intros [= <-]. apply length_replicate.
  - destruct (a =? 0); intros [= <-]; apply length_replicate.
  - intros [= <-]. apply length_replicate.
  - destruct (negb (len (x :: l) =? Z.of_nat ncols)) eqn:E; [discriminate|].
    intros [= <-]. apply negb_false_iff, Z.eqb_eq in E. unfold len in E. lia.
Qed.

Lemma column_widths_length (terminal_width padding : Z) (wrap : bool)
    (columns : list (list pystr)) (col_widths : list Z) :
  column_widths terminal_width padding wrap columns = Ok col_widths ->
  length col_widths = length columns.
Proof.
  unfold column_widths, natural_widths.
  destruct (mapM (fun col => py_max (map len col)) columns) as [natural|] eqn:En;
    [|discriminate].
  apply mapM_length in En. cbn [bind]. destruct wrap.
  - unfold shrink_widths. intros H. apply mapM_length in H.
    etransitivity; [exact H|exact En].
  - intros [= <-]. assumption.
Qed.

Lemma textwrap_wrap_pos (text : pystr) (width : Z) (lines : list pystr) :
  textwrap_wrap text width = Ok lines -> 0 < width.
Proof.
  unfold textwrap_wrap, _wrap_chunks. destruct (width <=? 0) eqn:E; [discriminate|].
  intros _. apply Z.leb_gt in E. assumption.
Qed.

Lemma wrap_columns_fit (columns : list (list pystr)) (col_widths : list Z)
    (wrapped : list (list (list pystr))) :
  length col_widths = length columns ->
  wrap_columns columns col_widths = Ok wrapped ->
  Forall2 (fun wcol w => Forall (fun cell => cell_fits cell w) wcol) wrapped col_widths.
Proof.
  revert col_widths wrapped.
  induction columns as [|col columns IH]; intros [|w ws] wrapped Hlen; simpl in *;
    try discriminate Hlen.
  - intros [= <-]. constructor.
  - destruct (mapM (fun cell => textwrap_wrap cell w) col) as [wcol|] eqn:Em;
      simpl; [|discriminate].
    destruct (wrap_columns columns ws) as [rest|] eqn:Er; simpl; [|discriminate].
    intros [= <-]. constructor; [|apply IH; [congruence|assumption]].
    apply mapM_Forall2 in Em. clear -Em.
    induction Em as [|cell lines col wcol Hc _ IHc]; constructor; [|assumption].
    split.
    + apply textwrap_wrap_pos in Hc. lia.
    + eapply textwrap_wrap_width. exact Hc.
Qed.

Lemma transposed_row_fits (wrapped : list (list (list pystr))) (col_widths : list Z)
    (i : nat) (row : list (list pystr)) :
  Forall2 (fun wcol w => Forall (fun cell => cell_fits cell w) wcol) wrapped col_widths ->
  _transpose wrapped !! i = Some row ->
  Forall2 cell_fits row col_widths.
Proof.
  intros Hfit Hrow. apply transpose_lookup in Hrow as [Hlen Hent].
  apply Forall2_same_length_lookup_2.
  - rewrite Hlen. eapply Forall2_length. exact Hfit.
  - intros j cell w Hcell Hw.
    destruct (lookup_lt_is_Some_2 wrapped j) as [wcol Hwcol].
    { rewrite <- Hlen. eapply lookup_lt_Some. exact Hcell. }
    rewrite (Hent j wcol Hwcol) in Hcell.
    pose proof (Forall2_lookup_lr _ _ _ _ _ _ Hfit Hwcol Hw) as Hall.
    rewrite Forall_forall in Hall. apply Hall.
    eapply list_elem_of_lookup_2. exact Hcell.
Qed.

Lemma Forall_concat_2 {A} (P : A -> Prop) (ls : list (list A)) :
  Forall (Forall P) ls -> Forall P (concat ls).
Proof.
  induction 1 as [|l ls Hl _ IH]; simpl; [constructor|].
  apply Forall_app. split; assumption.
Qed.

(** X3. Every line of a table has the same length: the sum of the final
    widths of the columns and, after each column, the padding (nothing for a
    negative padding). No cell is ever cut short of its column or runs over
    it. *)
Theorem table_lines_same_length (terminal_width : Z) (columns : list (list pystr))
    (padding : Z) (alignment : alignment_arg) (wrap : bool) (text : pystr) :
  forallb (fun col => len col =? 0) columns = false ->
  render_table terminal_width columns padding alignment wrap = Ok text ->
  exists col_widths lines,
    column_widths terminal_width padding wrap columns = Ok col_widths /\
    text = join newline lines /\
    Forall (fun line =>
              len line = py_sum col_widths + Z.max padding 0 * len columns) lines.
Proof.
  intros Hne Hr. unfold render_table in Hr. rewrite Hne in Hr.
  destruct (resolve_alignment alignment (length columns)) as [al|] eqn:Ea;
    [|discriminate].
  cbn [bind] in Hr.
  destruct (column_widths terminal_width padding wrap columns) as [ws|] eqn:Ew;
    [|discriminate].
  cbn [bind] in Hr.
  destruct (wrap_columns columns ws) as [wrapped|] eqn:Ewr; [|discriminate].
  cbn [bind] in Hr.
  destruct (mapM (row_lines padding ws al) (_transpose wrapped)) as [lines|] eqn:El;
    [|discriminate].
  injection Hr as <-.
  pose proof (column_widths_length _ _ _ _ _ Ew) as Hlw.
  pose proof (resolve_alignment_length _ _ _ Ea) as Hla.
  pose proof (wrap_columns_fit _ _ _ Hlw Ewr) as Hfit.
  exists ws, (concat lines). split; [reflexivity|]. split; [reflexivity|].
  apply Forall_concat_2. apply mapM_Forall2 in El.
  assert (Hrows : Forall (fun row => Forall2 cell_fits row ws) (_transpose wrapped)).
  { apply Forall_lookup. intros i row Hrow. eapply transposed_row_fits; eassumption. }
  replace (len columns) with (len ws) by (unfold len; f_equal; exact Hlw).
  clear -El Hrows Hla Hlw.
  induction El as [|row ls rows lss Hrow _ IH]; [constructor|].
  inversion Hrows; subst. constructor; [|apply IH; assumption].
  eapply row_lines_length; [eassumption| |exact Hrow].
  etransitivity; [exact Hla|symmetry; exact Hlw].
Qed.

Lemma table_lines_same_length_witness :
  exists col_widths lines,
    column_widths 80 2 true alice_bob = Ok col_widths /\
    str_of "alice  30  " ++ newline ++ str_of "bob    7   " = join newline lines /\
    Forall (fun line => len line = py_sum col_widths + Z.max 2 0 * len alice_bob) lines.
Proof.
  apply (table_lines_same_length 80 alice_bob 2 AlignNone true).
  - reflexivity.
  - vm_compute. reflexivity.
Defined.

(** ** Tables that cannot fail *)

Lemma known_tag_LEFT : known_tag LEFT = true.
Proof. reflexivity. Qed.

Lemma forallb_Forall_true {A} (f : A -> bool) (l : list A) :
  forallb f l = true -> Forall (fun a => f a = true) l.
Proof.
  induction l as [|a l IH]; simpl; [constructor|].
  intros H. apply andb_true_iff in H as [Ha Hl]. constructor; auto.
Qed.

Lemma resolve_alignment_valid (alignment : alignment_arg) (ncols : nat) :
  valid_alignment alignment ncols = true ->
  exists al, resolve_alignment alignment ncols = Ok al /\
             Forall (fun a => known_tag a = true) al.
Proof.
  unfold valid_alignment, resolve_alignment. destruct alignment as [|a|[|x l]].
  - intros _. eexists. split; [reflexivity|]. apply Forall_replicate. reflexivity.
  - intros Ha. destruct (a =? 0); eexists; (split; [reflexivity|]);
      apply Forall_replicate; [reflexivity|assumption].
  - intros _. eexists. split; [reflexivity|]. apply Forall_replicate. reflexivity.
  - intros H. apply andb_true_iff in H as [Hlen Hall].
    apply Nat.eqb_eq in Hlen.
    replace (negb (len (x :: l) =? Z.of_nat ncols)) with false.
    + eexists. split; [reflexivity|]. apply forallb_Forall_true. assumption.
    + symmetry. apply negb_false_iff, Z.eqb_eq. unfold len. lia.
Qed.

Lemma mapM_ok {A B} (f : A -> result B) (l : list A) :
  Forall (fun x => exists y, f x = Ok y) l -> exists r, mapM f l = Ok r.
Proof.
  induction 1 as [|x l [y Hy] _ [r IH]]; simpl; [eauto|].
  rewrite Hy. simpl. rewrite IH. simpl. eauto.
Qed.

Lemma natural_widths_positive (columns : list (list pystr)) :
  Forall (fun col => exists cell, cell ∈ col /\ cell <> []) columns ->
  exists ws, natural_widths columns = Ok ws /\ Forall (fun w => 0 < w) ws.
Proof.
  unfold natural_widths. induction 1 as [|col columns (cell & Hin & Hne) _ (ws & Hws & Hpos)].
  - exists []. split; [reflexivity|constructor].
  - simpl. destruct (py_max (map len col)) as [w|] eqn:Ew.
    + rewrite Hws. simpl. eexists. split; [reflexivity|]. constructor; [|assumption].
      apply py_max_spec in Ew as [_ Hmax].
      assert (len cell <= w).
      { apply Hmax. apply list_elem_of_fmap. exists cell. auto. }
      assert (0 < len cell); [|lia].
      destruct cell; [congruence|]. unfold len. simpl. lia.
    + destruct col; [inversion Hin|discriminate].
Qed.

Lemma textwrap_wrap_ok (text : pystr) (width : Z) :
  0 < width -> exists lines, textwrap_wrap text width = Ok lines.
Proof.
  intros Hw. unfold textwrap_wrap, _wrap_chunks.
  replace (width <=? 0) with false by (symmetry; apply Z.leb_gt; assumption).
  eauto.
Qed.

Lemma wrap_columns_ok (columns : list (list pystr)) (col_widths : list Z) :
  Forall (fun w => 0 < w) col_widths ->
  exists wrapped, wrap_columns columns col_widths = Ok wrapped.
Proof.
  intros Hpos. revert columns.
  induction Hpos as [|w ws Hw _ IH]; intros [|col columns]; simpl; eauto.
  destruct (mapM_ok (fun cell => textwrap_wrap cell w) col) as [wcol Hwcol].
  { apply Forall_forall. intros cell _. apply textwrap_wrap_ok. assumption. }
  rewrite Hwcol. simpl. destruct (IH columns) as [rest ->]. simpl. eauto.
Qed.

Lemma build_line_ok (padding : Z) (i : nat) (row : list (list pystr))
    (col_widths alignment : list Z) (acc : pystr) :
  Forall (fun a => known_tag a = true) alignment ->
  exists line, build_line padding i row col_widths alignment acc = Ok line.
Proof.
  intros Hal. revert row col_widths acc.
  induction Hal as [|a al Ha _ IH]; intros [|cell row] [|w ws] acc; simpl; eauto.
  destruct (justify_known a (nth i cell []) w Ha) as [j ->]. simpl. apply IH.
Qed.

Lemma row_lines_ok (padding : Z) (col_widths alignment : list Z)
    (row : list (list pystr)) :
  row <> [] -> Forall (fun a => known_tag a = true) alignment ->
  exists lines, row_lines padding col_widths alignment row = Ok lines.
Proof.
  intros Hne Hal. unfold row_lines.
  destruct row as [|cell row]; [congruence|]. simpl py_max. cbn [bind].
  apply mapM_ok. apply Forall_forall. intros i _. apply build_line_ok. assumption.
Qed.

Lemma render_table_ok (terminal_width : Z) (columns : list (list pystr))
    (padding : Z) (alignment : alignment_arg) :
  Forall (fun col => exists cell, cell ∈ col /\ cell <> []) columns ->
  valid_alignment alignment (length columns) = true ->
  exists text, render_table terminal_width columns padding alignment false = Ok text.
Proof.
  intros Hcols Hval. unfold render_table.
  destruct (forallb (fun col => len col =? 0) columns); [eauto|].
  destruct (resolve_alignment_valid _ _ Hval) as (al & -> & Hal). cbn [bind].
  destruct (natural_widths_positive _ Hcols) as (ws & Hws & Hpos).
  unfold column_widths. rewrite Hws. cbn [bind].
  destruct (wrap_columns_ok columns ws Hpos) as [wrapped Hwr]. rewrite Hwr. cbn [bind].
  destruct (mapM_ok (row_lines padding ws al) (_transpose wrapped)) as [lines ->].
  - apply Forall_lookup. intros i row Hrow. apply row_lines_ok; [|assumption].
    destruct wrapped as [|wcol wrapped]; [discriminate|].
    apply transpose_lookup in Hrow as [Hlen _]. destruct row; [discriminate|congruence].
  - simpl. eauto.
Qed.

(** X4. Without wrapping, [format_table] cannot fail on the layout: when
    every column, headers included, has a cell that is not the empty string,
    and the alignment is none, a known tag, or one known tag for each
    column, it returns a text, whatever the terminal and the padding. *)
Theorem format_table_no_wrap_returns (terminal_width : Z)
    (rows columns : option (list loc)) (headers : option (list pystr))
    (padding : Z) (alignment : alignment_arg) (σ : store) (cols : list (list pystr)) :
  (table_columns rows columns headers σ).2 = Ok cols ->
  Forall (fun col => exists cell, cell ∈ col /\ cell <> []) cols ->
  valid_alignment alignment (length cols) = true ->
  exists text,
    (format_table terminal_width rows columns headers padding alignment false σ).2
    = Ok text.
Proof.
  intros Hhead Hcols Hval. rewrite format_table_result, Hhead. cbn [bind].
  apply render_table_ok; assumption.
Qed.

Lemma format_table_no_wrap_returns_witness :
  exists text,
    (format_table 1 None (Some [1%positive; 2%positive])
       (Some [str_of "Name"; str_of "Age"]) 2 (AlignList [LEFT; RIGHT]) false
       alice_bob_store).2 = Ok text.
Proof.
  apply (format_table_no_wrap_returns 1 None (Some [1%positive; 2%positive])
           (Some [str_of "Name"; str_of "Age"]) 2 (AlignList [LEFT; RIGHT])
           alice_bob_store
           [[str_of "Name"; str_of "alice"; str_of "bob"];
            [str_of "Age"; str_of "30"; str_of "7"]]).
  - vm_compute. reflexivity.
  - repeat constructor.
    + exists (str_of "Name"). split; [apply list_elem_of_here|discriminate].
    + exists (str_of "Age"). split; [apply list_elem_of_here|discriminate].
  - reflexivity.
Defined.

(** ** Headers that run out, and rows for columns *)









(** ** Cells that are not wrapped *)

Lemma expandtabs_no_tab (col : nat) (s : pystr) :
  forallb (fun c => negb (code c =? 9)%N) s = true -> expandtabs col s = s.
Proof.
  revert col. induction s as [|c s IH]; intros col; simpl; [reflexivity|].
  intros H. apply andb_true_iff in H as [Hc Hs]. apply negb_true_iff in Hc.
  rewrite Hc. destruct ((code c =? 10)%N || (code c =? 13)%N); rewrite IH; auto.
Qed.

Lemma code_space (c : ascii) : (code c =? 32)%N = true -> c = " "%char.
Proof.
  intros H. apply N.eqb_eq in H. unfold code in H.
  rewrite <- (ascii_N_embedding c), H. reflexivity.
Qed.

Lemma tidy_char_no_tab (c : ascii) :
  negb (is_tw_space c) || (code c =? 32)%N = true -> negb (code c =? 9)%N = true.
Proof.
  intros H. apply negb_true_iff. destruct (code c =? 9)%N eqn:E; [|reflexivity].
  apply N.eqb_eq in E. unfold is_tw_space, in_ranges in H. simpl in H.
  rewrite E in H. discriminate H.
Qed.

Lemma munge_tidy (cell : pystr) :
  forallb (fun c => negb (is_tw_space c) || (code c =? 32)%N) cell = true ->
  _munge_whitespace cell = cell.
Proof.
  intros H. unfold _munge_whitespace. rewrite expandtabs_no_tab.
  - induction cell as [|c cell IH]; simpl in *; [reflexivity|].
    apply andb_true_iff in H as [Hc Hs]. rewrite IH by assumption. f_equal.
    destruct (is_tw_space c) eqn:E; [|reflexivity].
    simpl in Hc. symmetry. apply code_space. assumption.
  - induction cell as [|c cell IH]; simpl in *; [reflexivity|].
    apply andb_true_iff in H as [Hc Hs]. rewrite IH by assumption.
    rewrite tidy_char_no_tab by assumption. reflexivity.
Qed.

Lemma split_loop_nonempty (s : pystr) :
  forall kind ctx cur, Forall (fun c => c <> []) (split_loop kind ctx cur s).
Proof.
  assert (Hrev : forall (x : ascii) l, rev (x :: l) <> []).
  { intros x l. apply rev_not_nil. discriminate. }
  induction s as [|c rest IH]; intros kind ctx cur; cbn [split_loop].
  - destruct cur as [|x cur]; constructor; [apply Hrev|constructor].
  - destruct cur as [|x cur]; [apply IH|].
    destruct (split_action_at kind ctx c rest).
    + apply IH.
    + constructor; [apply Hrev|apply IH].
    + constructor; [apply Hrev|apply IH].
Qed.

Local Open Scope nat_scope.

Lemma take_fitting_all (width cur_len : nat) (chunks : list pystr) :
  cur_len + total_length chunks <= width ->
  take_fitting width cur_len chunks = (chunks, cur_len + total_length chunks, []).
Proof.
  revert cur_len. induction chunks as [|c chunks IH]; intros cur_len H; simpl.
  - unfold total_length. simpl. rewrite Nat.add_0_r. reflexivity.
  - rewrite total_length_cons in H.
    replace (cur_len + length c <=? width) with true
      by (symmetry; apply Nat.leb_le; lia).
    rewrite IH by lia. rewrite total_length_cons. f_equal. f_equal. lia.
Qed.

Lemma wrap_loop_nil (fuel width : nat) (started : bool) :
  wrap_loop fuel width started [] = [].
Proof. destruct fuel; reflexivity. Qed.

Lemma wrap_loop_one_line (width : nat) (chunks : list pystr) (c : pystr) :
  last chunks = Some c -> all_space c = false ->
  total_length chunks <= width ->
  wrap_loop (chunks_measure chunks) width false chunks = [concat chunks].
Proof.
  intros Hlast Hc Hfit.
  destruct chunks as [|c0 chunks]; [discriminate|].
  change (chunks_measure (c0 :: chunks))
    with (S (length c0 + chunks_measure chunks)).
  cbn [wrap_loop]. unfold wrap_line. rewrite andb_false_r.
  rewrite take_fitting_all by (simpl; lia).
  unfold drop_trailing_blank. rewrite Hlast, Hc.
  rewrite wrap_loop_nil. reflexivity.
Qed.

Local Close Scope nat_scope.

Lemma last_concat {A} (ls : list (list A)) (l : list A) :
  last ls = Some l -> l <> [] -> last (concat ls) = last l.
Proof.
  induction ls as [|x ls IH]; [discriminate|].
  destruct ls as [|y ls].
  - simpl. intros [= ->] _. rewrite app_nil_r. reflexivity.
  - intros Hl Hne. change (concat (x :: y :: ls)) with (x ++ concat (y :: ls)).
    rewrite last_app, (IH Hl Hne).
    destruct (last l) eqn:E; [reflexivity|]. apply last_None in E. congruence.
Qed.

Lemma last_not_space (c : pystr) (x : ascii) :
  last c = Some x -> is_py_space x = false -> all_space c = false.
Proof.
  intros Hl Hx. unfold all_space. apply not_true_iff_false. intros H.
  rewrite forallb_forall in H. rewrite (H x) in Hx; [discriminate|].
  apply list_elem_of_In. apply last_Some_elem_of. assumption.
Qed.

(** A tidy cell that fits the width is wrapped to itself, on one line. *)
Lemma textwrap_wrap_tidy (cell : pystr) (width : Z) :
  tidy cell = true -> len cell <= width ->
  textwrap_wrap cell width = Ok [cell].
Proof.
  intros Ht Hfit. unfold tidy in Ht. apply andb_true_iff in Ht as [Hlast Hchars].
  destruct (last cell) as [x|] eqn:Hx; [|discriminate].
  apply negb_true_iff in Hlast.
  assert (Hne : cell <> []) by (intros ->; discriminate).
  assert (Hpos : 0 < len cell).
  { destruct cell; [congruence|]. unfold len. simpl. lia. }
  unfold textwrap_wrap, _split_chunks, _wrap_chunks.
  rewrite munge_tidy by assumption.
  replace (width <=? 0) with false by (symmetry; apply Z.leb_gt; lia).
  unfold _split.
  pose proof (split_loop_concat KWord [] [] cell) as Hcat. simpl in Hcat.
  pose proof (split_loop_nonempty cell KWord [] []) as Hnon.
  set (chunks := split_loop KWord [] [] cell) in *.
  destruct (last chunks) as [c|] eqn:Hc.
  - assert (Hcne : c <> []).
    { rewrite Forall_forall in Hnon. apply Hnon.
      apply last_Some_elem_of. assumption. }
    assert (Hcx : last c = Some x).
    { rewrite <- (last_concat chunks c Hc Hcne), Hcat. assumption. }
    rewrite (wrap_loop_one_line _ chunks c Hc).
    + rewrite Hcat. reflexivity.
    + eapply last_not_space; eassumption.
    + unfold total_length. rewrite Hcat. unfold len in Hfit. lia.
  - apply last_None in Hc. rewrite Hc in Hcat. simpl in Hcat. congruence.
Qed.

(** ** The plain grid *)

Lemma zip_heads_map {A B} (f : A -> B) (ll : list (list A)) :
  zip_heads (map (map f) ll)
  = match zip_heads ll with
    | Some (hs, ts) => Some (map f hs, map (map f) ts)
    | None => None
    end.
Proof.
  induction ll as [|l ll IH]; simpl; [reflexivity|].
  destruct l as [|x l]; simpl; [reflexivity|].
  rewrite IH. destruct (zip_heads ll) as [[hs ts]|]; reflexivity.
Qed.

Lemma transpose_n_map {A B} (f : A -> B) (n : nat) (ll : list (list A)) :
  transpose_n n (map (map f) ll) = map (map f) (transpose_n n ll).
Proof.
  revert ll. induction n as [|n IH]; intros ll; simpl; [reflexivity|].
  rewrite zip_heads_map. destruct (zip_heads ll) as [[hs ts]|]; [|reflexivity].
  simpl. rewrite IH. reflexivity.
Qed.

Lemma transpose_map {A B} (f : A -> B) (ll : list (list A)) :
  _transpose (map (map f) ll) = map (map f) (_transpose ll).
Proof.
  destruct ll as [|l ll]; [reflexivity|].
  unfold _transpose. cbn [map]. rewrite length_map.
  apply (transpose_n_map f (length l) (l :: ll)).
Qed.

Lemma natural_widths_bound (columns : list (list pystr)) (ws : list Z) :
  natural_widths columns = Ok ws ->
  Forall2 (fun col w => Forall (fun cell => len cell <= w) col) columns ws.
Proof.
  intros H. apply mapM_Forall2 in H.
  induction H as [|col w columns ws Hw _ IH]; constructor; [|assumption].
  apply py_max_spec in Hw as [_ Hmax]. apply Forall_forall. intros cell Hin.
  apply Hmax. apply list_elem_of_fmap. exists cell. auto.
Qed.

Lemma wrap_columns_tidy (columns : list (list pystr)) (ws : list Z) :
  Forall (fun col => Forall (fun cell => tidy cell = true) col) columns ->
  Forall2 (fun col w => Forall (fun cell => len cell <= w) col) columns ws ->
  wrap_columns columns ws = Ok (map (map (fun cell => [cell])) columns).
Proof.
  intros Htidy Hfit. induction Hfit as [|col w columns ws Hw _ IH]; [reflexivity|].
  inversion Htidy as [|? ? Hcol Hrest]; subst. simpl.
  assert (Hm : mapM (fun cell => textwrap_wrap cell w) col
               = Ok (map (fun cell => [cell]) col)).
  { apply mapM_map. rewrite Forall_forall in Hcol, Hw |- *. intros cell Hin.
    apply textwrap_wrap_tidy; auto. }
  rewrite Hm. cbn [bind]. rewrite (IH Hrest). reflexivity.
Qed.

Lemma justify_cell_known (align : Z) (s : pystr) (width : Z) :
  known_tag align = true -> justify align s width = Ok (justify_cell align s width).
Proof.
  unfold known_tag, justify, justify_cell. intros H.
  destruct (align =? LEFT); [reflexivity|]. destruct (align =? RIGHT); [reflexivity|].
  destruct (align =? CENTER); [reflexivity|discriminate].
Qed.

Lemma build_line_grid (padding : Z) (row : list pystr) (ws al : list Z) (acc : pystr) :
  Forall (fun a => known_tag a = true) al ->
  build_line padding 0
    (map (fun cell => cell ++ replicate (Z.to_nat (1 - len cell)) [])
         (map (fun cell => [cell]) row)) ws al acc
  = Ok (acc ++ grid_line padding row ws al).
Proof.
  intros Hal. revert row ws acc.
  induction Hal as [|a al Ha _ IH]; intros [|cell row] [|w ws] acc; simpl;
    rewrite ?app_nil_r; try reflexivity.
  rewrite (justify_cell_known a cell w Ha). cbn [bind].
  rewrite IH. rewrite <- !app_assoc. reflexivity.
Qed.

Lemma py_max_ones {A} (row : list A) :
  row <> [] -> py_max (map len (map (fun cell => [cell]) row)) = Ok 1.
Proof.
  destruct row as [|x row]; [congruence|]. intros _. simpl. f_equal.
  change (len [x]) with 1. induction row as [|y row IH]; [reflexivity|].
  simpl. change (len [y]) with 1. exact IH.
Qed.

Lemma row_lines_grid (padding : Z) (ws al : list Z) (row : list pystr) :
  row <> [] -> Forall (fun a => known_tag a = true) al ->
  row_lines padding ws al (map (fun cell => [cell]) row)
  = Ok [grid_line padding row ws al].
Proof.
  intros Hne Hal. unfold row_lines. rewrite py_max_ones by assumption. cbn [bind].
  change (seq 0 (Z.to_nat 1)) with [0%nat]. cbn [mapM].
  rewrite (build_line_grid padding row ws al [] Hal). reflexivity.
Qed.

Lemma concat_singletons {A B} (g : A -> B) (l : list A) :
  concat (map (fun x => [g x]) l) = map g l.
Proof. induction l as [|x l IH]; simpl; [reflexivity|]. rewrite IH. reflexivity. Qed.

Lemma shrink_widths_fit (terminal_width padding : Z) (ncols : nat) (ws : list Z) :
  Forall (fun w => 0 < w < 2 ^ 53) ws ->
  py_sum ws <= terminal_width - padding * Z.of_nat ncols ->
  shrink_widths terminal_width padding ncols ws = Ok ws.
Proof.
  intros Hws Hfit. unfold shrink_widths.
  replace (Z.max (py_sum ws - (terminal_width - padding * Z.of_nat ncols)) 0) with 0
    by lia.
  apply mapM_id_on. rewrite Forall_forall. intros w Hin.
  assert (Hnn : Forall (fun w => 0 <= w) ws).
  { eapply Forall_impl; [exact Hws|]. intros x Hx. simpl in Hx. lia. }
  pose proof (cube_le_sum ws w Hnn Hin) as Hcube.
  rewrite Forall_forall in Hws. specialize (Hws w Hin). simpl in Hws.
  assert (0 < cube w) by (unfold cube; apply Z.pow_pos_nonneg; lia).
  apply shrink_by_nothing; [rewrite Z.abs_eq by lia; lia|].
  fold cube. lia.
Qed.

(** The table of tidy cells that need no shrinking is the grid of its
    cells. *)
Lemma render_table_grid (terminal_width : Z) (columns : list (list pystr))
    (padding : Z) (alignment : alignment_arg) (wrap : bool) (ws al : list Z) :
  Forall (fun col => Forall (fun cell => tidy cell = true) col) columns ->
  natural_widths columns = Ok ws ->
  resolve_alignment alignment (length columns) = Ok al ->
  Forall (fun a => known_tag a = true) al ->
  (wrap = true ->
   py_sum ws + padding * len columns <= terminal_width /\
   Forall (fun w => w < 2 ^ 53) ws) ->
  render_table terminal_width columns padding alignment wrap
  = Ok (join newline (map (fun row => grid_line padding row ws al)
                          (_transpose columns))).
Proof.
  intros Htidy Hnat Hres Hal Hwrap. unfold render_table.
  destruct (forallb (fun col => len col =? 0) columns) eqn:Eempty.
  - destruct columns as [|col columns]; [reflexivity|].
    simpl in Eempty. apply andb_true_iff in Eempty as [Hcol _].
    apply Z.eqb_eq in Hcol. destruct col; [|discriminate Hcol].
    unfold natural_widths in Hnat. simpl in Hnat. discriminate.
  - rewrite Hres. cbn [bind].
    pose proof (natural_widths_bound _ _ Hnat) as Hbound.
    assert (Hw : column_widths terminal_width padding wrap columns = Ok ws).
    { unfold column_widths. rewrite Hnat. cbn [bind].
      destruct wrap; [|reflexivity]. destruct (Hwrap eq_refl) as [Hfit Hsmall].
      apply shrink_widths_fit; [|unfold len in Hfit; lia].
      apply Forall_forall. intros w Hin.
      rewrite Forall_forall in Hsmall. split; [|apply Hsmall; assumption].
      apply list_elem_of_lookup_1 in Hin as [j Hj].
      destruct (Forall2_lookup_r _ _ _ _ _ Hbound Hj) as (col & Hcol & Hall).
      rewrite Forall_forall in Htidy.
      pose proof (Htidy col (list_elem_of_lookup_2 _ _ _ Hcol)) as Hct.
      destruct col as [|cell col].
      - apply mapM_Forall2 in Hnat.
        pose proof (Forall2_lookup_lr _ _ _ _ _ _ Hnat Hcol Hj) as Hm.
        simpl in Hm. discriminate Hm.
      - inversion Hct as [|? ? Hcell _]; subst. inversion Hall as [|? ? Hlen _]; subst.
        assert (0 < len cell); [|lia].
        destruct cell; [discriminate Hcell|]. unfold len. simpl. lia. }
    rewrite Hw. cbn [bind].
    rewrite (wrap_columns_tidy columns ws Htidy Hbound). cbn [bind].
    rewrite transpose_map.
    assert (Hrows : mapM (row_lines padding ws al)
                      (map (map (fun cell => [cell])) (_transpose columns))
                    = Ok (map (fun row => [grid_line padding row ws al])
                              (_transpose columns))).
    { pose proof (transpose_rows_length columns) as Hlen.
      assert (Hcne : columns <> []) by (intros ->; discriminate Eempty).
      induction (_transpose columns) as [|row rows IH]; [reflexivity|].
      inversion Hlen as [|? ? Hrow Hrest]; subst. cbn [map mapM].
      rewrite row_lines_grid; [|destruct row; [|discriminate];
                                 destruct columns; [congruence|discriminate Hrow]
                               |assumption].
      cbn [bind]. rewrite (IH Hrest). reflexivity. }
    rewrite Hrows. cbn [bind]. rewrite concat_singletons. reflexivity.
Qed.
(** X7. A table of tidy cells that needs no shrinking is the plain grid of
    its cells. When every cell is tidy (not empty, no tab or line break, no
    white space at its end), the alignment has a known tag for every column,
    and either [wrap] is off or the natural widths with the padding fit the
    terminal, [format_table] returns one line for every row of the
    transposed columns, each cell justified to the natural width of its
    column and followed by the padding, the lines joined by newlines. *)
Theorem format_table_grid (terminal_width : Z) (rows columns : option (list loc))
    (headers : option (list pystr)) (padding : Z) (alignment : alignment_arg)
    (wrap : bool) (σ : store) (cols : list (list pystr)) (ws al : list Z) :
  (table_columns rows columns headers σ).2 = Ok cols ->
  Forall (fun col => Forall (fun cell => tidy cell = true) col) cols ->
  natural_widths cols = Ok ws ->
  resolve_alignment alignment (length cols) = Ok al ->
  Forall (fun a => known_tag a = true) al ->
  (wrap = true ->
   py_sum ws + padding * len cols <= terminal_width /\
   Forall (fun w => w < 2 ^ 53) ws) ->
  (format_table terminal_width rows columns headers padding alignment wrap σ).2
  = Ok (join newline (map (fun row => grid_line padding row ws al)
                          (_transpose cols))).
Proof.
  intros Hhead Htidy Hnat Hres Hal Hwrap.
  rewrite format_table_result, Hhead. cbn [bind].
  apply render_table_grid; assumption.
Qed.

Lemma format_table_grid_witness :
  (format_table 80 None (Some [1%positive; 2%positive])
     (Some [str_of "Name"; str_of "Age"]) 2 (AlignList [LEFT; RIGHT]) true
     alice_bob_store).2
  = Ok (join newline
          (map (fun row => grid_line 2 row [5; 3] [LEFT; RIGHT])
               (_transpose [[str_of "Name"; str_of "alice"; str_of "bob"];
                            [str_of "Age"; str_of "30"; str_of "7"]]))).
Proof.
  apply format_table_grid.
  - vm_compute. reflexivity.
  - repeat constructor.
  - vm_compute. reflexivity.
  - reflexivity.
  - repeat constructor.
  - intros _. split; [vm_compute; discriminate|]. repeat constructor.
Defined.

(** ** A terminal that is too narrow *)

Lemma mapM_Forall2_ok {A B} (f : A -> result B) (R : A -> B -> Prop) (l : list A) :
  Forall (fun x => exists y, f x = Ok y /\ R x y) l ->
  exists r, mapM f l = Ok r /\ Forall2 R l r.
Proof.
  induction 1 as [|x l (y & Hy & HR) _ (r & Hr & HF)]; simpl.
  - exists []. split; [reflexivity|constructor].
  - rewrite Hy. cbn [bind]. rewrite Hr. cbn [bind].
    exists (y :: r). split; [reflexivity|constructor; assumption].
Qed.

(** With [wrap] set, and numbers within the precision of a double, the
    widths are computed without an error and their sum exceeds what is left
    for them by at most one for each column. *)
Lemma shrink_widths_sum (terminal_width padding : Z) (ncols : nat) (natural : list Z) :
  Forall (fun w => 0 <= w < 2 ^ 50) natural ->
  0 < py_sum (map cube natural) ->
  Z.max (py_sum natural - (terminal_width - padding * Z.of_nat ncols)) 0 < 2 ^ 50 ->
  exists finals,
    shrink_widths terminal_width padding ncols natural = Ok finals /\
    py_sum finals
    <= py_sum natural
       - Z.max (py_sum natural - (terminal_width - padding * Z.of_nat ncols)) 0
       + len natural.
Proof.
  intros Hnat HS HEb. unfold shrink_widths. fold cube.
  set (S := py_sum (map cube natural)) in *.
  set (E := Z.max (py_sum natural - (terminal_width - padding * Z.of_nat ncols)) 0) in *.
  assert (HE : 0 <= E) by (unfold E; lia).
  assert (Hnn : Forall (fun w => 0 <= w) natural).
  { eapply Forall_impl; [exact Hnat|]. intros x Hx. simpl in Hx. lia. }
  destruct (mapM_Forall2_ok
              (fun w => let* x := int_minus_quotient w (E * w ^ 3) S in py_round x)
              (fun w f => f * S <= w * S - E * cube w + S) natural)
    as (finals & Hfin & Hup).
  { rewrite Forall_forall. intros w Hin.
    pose proof (cube_le_sum natural w Hnn Hin) as Hcube. fold S in Hcube.
    rewrite Forall_forall in Hnat. specialize (Hnat w Hin). simpl in Hnat.
    eexists. split.
    - apply shrink_one_runs; unfold cube in *; lia.
    - apply shrink_one_upper; unfold cube in *; lia. }
  exists finals. split; [exact Hfin|].
  pose proof (sum_upper S E natural finals Hup) as Hsum. fold S in Hsum.
  assert (Hfinal : py_sum finals * S <= (py_sum natural - E + len natural) * S) by lia.
  apply Z.mul_le_mono_pos_r in Hfinal; assumption.
Qed.

Lemma sum_of_positive (ws : list Z) :
  Forall (fun w => 0 < w) ws -> len ws <= py_sum ws.
Proof.
  induction 1 as [|w ws Hw _ IH]; [unfold len; simpl; lia|].
  unfold len in *. simpl length. rewrite Nat2Z.inj_succ. simpl. lia.
Qed.

Lemma wrap_columns_narrow (columns : list (list pystr)) (ws : list Z) :
  length ws = length columns ->
  Forall (fun col => col <> []) columns ->
  ~ Forall (fun w => 0 < w) ws ->
  exists w, w <= 0 /\
    wrap_columns columns ws
    = Raise (ValueError ("invalid width " ++ show_int w ++ " (must be > 0)")).
Proof.
  intros Hlen Hne. revert ws Hlen.
  induction Hne as [|col columns Hcol _ IH]; intros [|w ws] Hlen Hex;
    try discriminate Hlen.
  - exfalso. apply Hex. constructor.
  - simpl. destruct (Z.ltb_spec 0 w) as [Hw|Hw].
    + destruct (mapM_ok (fun cell => textwrap_wrap cell w) col) as [wcol Hwcol].
      { apply Forall_forall. intros cell _. apply textwrap_wrap_ok. assumption. }
      rewrite Hwcol. cbn [bind].
      destruct (IH ws) as (w' & Hw' & Hr).
      * simpl in Hlen. congruence.
      * intros Hall. apply Hex. constructor; assumption.
      * exists w'. split; [assumption|]. rewrite Hr. reflexivity.
    + exists w. split; [assumption|].
      destruct col as [|cell col]; [congruence|]. simpl.
      unfold textwrap_wrap at 1, _wrap_chunks.
      replace (w <=? 0) with true by (symmetry; apply Z.leb_le; assumption).
      reflexivity.
Qed.

Lemma natural_widths_columns (columns : list (list pystr)) (natural : list Z) :
  natural_widths columns = Ok natural -> Forall (fun col => col <> []) columns.
Proof.
  intros H. apply mapM_Forall2 in H.
  induction H as [|col w columns ws Hw _ IH]; constructor; [|assumption].
  intros ->. discriminate Hw.
Qed.

(** X8. In a terminal that is narrower than the padding of all the columns,
    a table cannot be wrapped: with [wrap] set, an alignment that is
    accepted, no empty column and some cell that is not empty,
    [format_table] raises the [ValueError] of [textwrap.wrap] for a width
    that is not positive. The numbers are within the precision of a
    double. *)
Theorem format_table_narrow_terminal (terminal_width : Z)
    (rows columns : option (list loc)) (headers : option (list pystr))
    (padding : Z) (alignment : alignment_arg) (σ : store)
    (cols : list (list pystr)) (natural al : list Z) :
  (table_columns rows columns headers σ).2 = Ok cols ->
  resolve_alignment alignment (length cols) = Ok al ->
  natural_widths cols = Ok natural ->
  py_sum (map cube natural) <> 0 ->
  Forall (fun w => w < 2 ^ 50) natural ->
  py_sum natural - (terminal_width - padding * len cols) < 2 ^ 50 ->
  terminal_width < padding * len cols ->
  exists w, w <= 0 /\
    (format_table terminal_width rows columns headers padding alignment true σ).2
    = Raise (ValueError ("invalid width " ++ show_int w ++ " (must be > 0)")).
Proof.
  intros Hhead Hres Hnat HS Hsmall HEb Hnarrow.
  rewrite format_table_result, Hhead. cbn [bind].
  pose proof (natural_widths_nonneg _ _ Hnat) as Hnn.
  pose proof (natural_widths_columns _ _ Hnat) as Hcols.
  pose proof (py_sum_cubes_nonneg natural Hnn) as HS0.
  assert (Hlen : length natural = length cols).
  { unfold natural_widths in Hnat. eapply mapM_length. exact Hnat. }
  assert (Hsum0 : 0 <= py_sum natural).
  { clear -Hnn. induction Hnn; simpl; lia. }
  destruct (shrink_widths_sum terminal_width padding (length cols) natural)
    as (finals & Hfin & Hup).
  { rewrite Forall_forall in Hnn, Hsmall |- *. intros w Hin.
    specialize (Hnn w Hin). specialize (Hsmall w Hin). simpl in *. lia. }
  { lia. }
  { unfold len in HEb. lia. }
  assert (Hlenf : length finals = length cols).
  { unfold shrink_widths in Hfin. apply mapM_length in Hfin.
    etransitivity; [exact Hfin|exact Hlen]. }
  assert (Hnotpos : ~ Forall (fun w => 0 < w) finals).
  { intros Hall. apply sum_of_positive in Hall.
    assert (len finals = len natural) by (unfold len; f_equal; congruence).
    unfold len in Hnarrow. lia. }
  destruct (wrap_columns_narrow cols finals Hlenf Hcols Hnotpos) as (w & Hw & Hr).
  exists w. split; [assumption|]. unfold render_table.
  assert (Hne : forallb (fun col => len col =? 0) cols = false).
  { destruct cols as [|col cols].
    - destruct natural; [simpl in HS; congruence|discriminate Hlen].
    - inversion Hcols as [|? ? Hcol _]; subst. simpl.
      destruct col; [congruence|]. reflexivity. }
  rewrite Hne, Hres. cbn [bind].
  unfold column_widths. rewrite Hnat. cbn [bind]. rewrite Hfin. cbn [bind].
  rewrite Hr. reflexivity.
Qed.

Lemma format_table_narrow_terminal_witness :
  exists w, w <= 0 /\
    (format_table 3 None (Some [1%positive; 2%positive]) None 2 AlignNone true
       alice_bob_store).2
    = Raise (ValueError ("invalid width " ++ show_int w ++ " (must be > 0)")).
Proof.
  apply (format_table_narrow_terminal 3 None (Some [1%positive; 2%positive]) None 2
           AlignNone alice_bob_store alice_bob [5; 2] [LEFT; LEFT]).
  - vm_compute. reflexivity.
  - reflexivity.
  - vm_compute. reflexivity.
  - vm_compute. discriminate.
  - repeat constructor.
  - vm_compute. reflexivity.
  - vm_compute. reflexivity.
Defined.

(** ** The order of the commands in the help *)

Lemma ascii_compare_trans (c : comparison) (x y z : ascii) :
  Ascii.compare x y = c -> Ascii.compare y z = c -> Ascii.compare x z = c.
Proof.
  unfold Ascii.compare. destruct c; intros H1 H2.
  - apply N.compare_eq_iff in H1. apply N.compare_eq_iff in H2.
    apply N.compare_eq_iff. congruence.
  - apply N.compare_lt_iff in H1. apply N.compare_lt_iff in H2.
    apply N.compare_lt_iff. eapply N.lt_trans; eassumption.
  - apply N.compare_gt_iff in H1. apply N.compare_gt_iff in H2.
    apply N.compare_gt_iff. eapply N.lt_trans; eassumption.
Qed.

Lemma string_compare_lt_trans (s1 s2 s3 : string) :
  String.compare s1 s2 = Lt -> String.compare s2 s3 = Lt -> String.compare s1 s3 = Lt.
Proof.
  revert s2 s3. induction s1 as [|c1 s1 IH]; intros [|c2 s2] [|c3 s3]; simpl;
    try discriminate; try reflexivity.
  destruct (Ascii.compare c1 c2) eqn:E12; try discriminate;
    destruct (Ascii.compare c2 c3) eqn:E23; try discriminate; intros H1 H2.
  - rewrite (ascii_compare_trans Eq c1 c2 c3 E12 E23). eapply IH; eassumption.
  - apply Ascii.compare_eq_iff in E12. subst c2. rewrite E23. reflexivity.
  - apply Ascii.compare_eq_iff in E23. subst c3. rewrite E12. reflexivity.
  - rewrite (ascii_compare_trans Lt c1 c2 c3 E12 E23). reflexivity.
Qed.

Lemma string_leb_trans (s1 s2 s3 : string) :
  String.leb s1 s2 = true -> String.leb s2 s3 = true -> String.leb s1 s3 = true.
Proof.
  unfold String.leb. intros H1 H2.
  destruct (String.compare s1 s2) eqn:E12; try discriminate.
  - apply String.compare_eq_iff in E12. subst s2. assumption.
  - destruct (String.compare s2 s3) eqn:E23; try discriminate.
    + apply String.compare_eq_iff in E23. subst s3. rewrite E12. reflexivity.
    + rewrite (string_compare_lt_trans s1 s2 s3 E12 E23). reflexivity.
Qed.

Lemma key_leb_total (a b : Z * string) : key_leb a b = true \/ key_leb b a = true.
Proof.
  unfold key_leb. destruct (Z.ltb_spec a.1 b.1) as [H|H]; [left; reflexivity|].
  destruct (Z.ltb_spec b.1 a.1) as [H'|H']; [right; reflexivity|].
  assert (E : a.1 = b.1) by lia. rewrite E, Z.eqb_refl. simpl.
  apply String.leb_total.
Qed.

Lemma key_leb_trans (a b c : Z * string) :
  key_leb a b = true -> key_leb b c = true -> key_leb a c = true.
Proof.
  unfold key_leb. intros H1 H2.
  apply orb_true_iff in H1 as [H1|H1]; apply orb_true_iff in H2 as [H2|H2].
  - apply Z.ltb_lt in H1, H2. apply orb_true_iff. left. apply Z.ltb_lt. lia.
  - apply andb_true_iff in H2 as [H2 _]. apply Z.eqb_eq in H2. apply Z.ltb_lt in H1.
    apply orb_true_iff. left. apply Z.ltb_lt. lia.
  - apply andb_true_iff in H1 as [H1 _]. apply Z.eqb_eq in H1. apply Z.ltb_lt in H2.
    apply orb_true_iff. left. apply Z.ltb_lt. lia.
  - apply andb_true_iff in H1 as [H1 H1']. apply andb_true_iff in H2 as [H2 H2'].
    apply Z.eqb_eq in H1, H2. apply orb_true_iff. right.
    apply andb_true_iff. split; [apply Z.eqb_eq; lia|].
    eapply string_leb_trans; eassumption.
Qed.

Lemma insert_sorted_perm (x : Z * string) (l : list (Z * string)) :
  Permutation (x :: l) (insert_sorted x l).
Proof.
  induction l as [|y l IH]; simpl; [reflexivity|].
  destruct (key_leb x y); [reflexivity|].
  rewrite perm_swap. apply perm_skip. exact IH.
Qed.

Lemma py_sorted_perm (l : list (Z * string)) : Permutation l (py_sorted l).
Proof.
  induction l as [|x l IH]; simpl; [reflexivity|].
  rewrite <- insert_sorted_perm. apply perm_skip. exact IH.
Qed.

Lemma insert_sorted_sorted (x : Z * string) (l : list (Z * string)) :
  StronglySorted (fun a b => key_leb a b = true) l ->
  StronglySorted (fun a b => key_leb a b = true) (insert_sorted x l).
Proof.
  induction 1 as [|y l Hl IH Hy]; simpl; [repeat constructor|].
  destruct (key_leb x y) eqn:E.
  - constructor; [constructor; assumption|].
    constructor; [assumption|].
    eapply Forall_impl; [exact Hy|]. intros z Hz. simpl in Hz.
    eapply key_leb_trans; eassumption.
  - constructor; [assumption|].
    rewrite <- insert_sorted_perm. constructor; [|assumption].
    destruct (key_leb_total x y) as [H|H]; [congruence|assumption].
Qed.

Lemma py_sorted_sorted (l : list (Z * string)) :
  StronglySorted (fun a b => key_leb a b = true) (py_sorted l).
Proof.
  induction l as [|x l IH]; simpl; [constructor|].
  apply insert_sorted_sorted. exact IH.
Qed.

Lemma StronglySorted_map_snd (prio : string -> Z) (l : list (Z * string)) :
  Forall (fun p => p.1 = prio p.2) l ->
  StronglySorted (fun a b => key_leb a b = true) l ->
  StronglySorted (fun c1 c2 => key_leb (prio c1, c1) (prio c2, c2) = true) (map snd l).
Proof.
  intros Hkeys Hs. induction Hs as [|p l Hl IH Hp]; simpl; [constructor|].
  inversion Hkeys as [|? ? Hk Hks]; subst.
  constructor; [apply IH; assumption|].
  apply Forall_map. rewrite Forall_forall in Hp, Hks |- *. intros q Hq.
  simpl. rewrite <- Hk, <- (Hks q Hq).
  destruct p, q. apply Hp. assumption.
Qed.

(** X9. The help lists every command exactly once, and in the order of the
    help priorities, commands of the same priority by name; a command without
    a recorded priority counts as priority 1. *)
Theorem list_commands_for_help_sorted (help_priorities : gmap string Z)
    (commands : list string) :
  let prio := help_priority_of help_priorities in
  Permutation commands (list_commands_for_help help_priorities commands) /\
  StronglySorted (fun c1 c2 => key_leb (prio c1, c1) (prio c2, c2) = true)
                 (list_commands_for_help help_priorities commands) /\
  forall name help_priority,
    help_priority_of (register_help_priority name help_priority help_priorities) name
    = default 1 help_priority.
Proof.
  intros prio. unfold list_commands_for_help. fold prio.
  set (keyed := map (fun command => (prio command, command)) commands).
  assert (Hkeys : Forall (fun p => p.1 = prio p.2) keyed).
  { apply Forall_map. apply Forall_forall. intros c _. reflexivity. }
  split; [|split].
  - rewrite <- (py_sorted_perm keyed). unfold keyed.
    rewrite map_map. simpl. rewrite map_id. reflexivity.
  - apply StronglySorted_map_snd; [|apply py_sorted_sorted].
    rewrite <- (py_sorted_perm keyed). exact Hkeys.
  - intros name help_priority.
    unfold help_priority_of, register_help_priority.
    rewrite lookup_insert_eq. reflexivity.
Qed.

(** ** Fatal errors stop a command *)

Lemma cbind_MaestralProxy {B} (config_name : string) (k : unit -> cli B) (w : world) :
  is_running (daemons w) config_name = true ->
  cbind (MaestralProxy config_name) k w
  = k tt (set_trace (trace w ++ [ProxyAcquired config_name]) w).
Proof. intros Hrun. unfold cbind, MaestralProxy. rewrite Hrun. reflexivity. Qed.

Lemma textwrap_fill_ok (text : string) (width : Z) :
  0 < width -> exists wrapped, textwrap_fill text width = Ok wrapped.
Proof.
  intros Hw. unfold textwrap_fill.
  destruct (textwrap_wrap_ok (list_ascii_of_string text) width Hw) as [lines ->].
  simpl. eauto.
Qed.

Lemma check_for_fatal_errors_found {B} (config_name : string) (k : bool -> cli B)
    (w : world) (err_title err_msg wrapped : string) (rest : list (string * string)) :
  is_running (daemons w) config_name = true -> fault w = None ->
  v_fatal_errors (view w) = (err_title, err_msg) :: rest ->
  textwrap_fill err_msg (terminal_width w) = Ok wrapped ->
  cbind (check_for_fatal_errors config_name) k w
  = k true (set_trace (trace w ++ ProxyCall config_name GetFatalErrors
                                 :: fatal_error_block err_title wrapped) w).
Proof.
  intros Hrun Hfault Herr Hwrap.
  destruct w as [d tr eg ls f v lr cf pr cp tw tk]. simpl in *. subst f.
  unfold check_for_fatal_errors, proxy_get, cbind, proxy_call, ask, lift, echo, emit,
    ret, set_trace. simpl. rewrite Hrun. simpl. rewrite Herr. simpl.
  rewrite Hwrap. simpl. rewrite <- !app_assoc. reflexivity.
Qed.

(** X10. A fatal error stops the commands that check for one: with the
    daemon running and a fatal error pending, [resume], [file_status],
    [activity] and [excluded_remove] for a path that is not the root reach
    the daemon, print the first error, its message wrapped to the terminal,
    and return; they do nothing else. *)
Theorem fatal_error_stops_command (cmd : strict_command) (config_name : string)
    (w : world) (err_title err_msg : string) (rest : list (string * string)) :
  checks_fatal_errors_first cmd = true ->
  is_running (daemons w) config_name = true -> fault w = None ->
  v_fatal_errors (view w) = (err_title, err_msg) :: rest ->
  0 < terminal_width w ->
  exists wrapped,
    textwrap_fill err_msg (terminal_width w) = Ok wrapped /\
    run_strict cmd config_name w
    = (set_trace (trace w ++ ProxyAcquired config_name
                          :: ProxyCall config_name GetFatalErrors
                          :: fatal_error_block err_title wrapped) w,
       Ok tt).
Proof.
  intros Hcmd Hrun Hfault Herr Hwidth.
  destruct (textwrap_fill_ok err_msg (terminal_width w) Hwidth) as [wrapped Hwrap].
  exists wrapped. split; [exact Hwrap|].
  assert (Hbody : forall (rest_of handler : cli unit),
            except_not_running
              (MaestralProxy config_name ;;
               do fatal <- check_for_fatal_errors config_name ;
               if fatal then ret tt else rest_of)
              handler w
            = (set_trace (trace w ++ ProxyAcquired config_name
                                  :: ProxyCall config_name GetFatalErrors
                                  :: fatal_error_block err_title wrapped) w,
               Ok tt)).
  { intros rest_of handler. unfold except_not_running, try_except.
    rewrite cbind_MaestralProxy by assumption.
    rewrite (check_for_fatal_errors_found config_name _ _ err_title err_msg wrapped rest)
      by assumption.
    unfold ret. cbn [trace set_trace]. rewrite <- app_assoc. reflexivity. }
  destruct cmd; try discriminate Hcmd; unfold run_strict.
  - apply Hbody.
  - apply Hbody.
  - apply Hbody.
  - unfold excluded_remove. cbv zeta. simpl in Hcmd.
    apply negb_true_iff in Hcmd. rewrite Hcmd.
    apply catch_ok. apply Hbody.
Qed.

Lemma fatal_error_stops_command_witness :
  let w := set_view revoked_view (world_with {["maestral" := Running]} []) in
  exists wrapped,
    textwrap_fill "Please link Maestral again." (terminal_width w) = Ok wrapped /\
    run_strict CmdResume "maestral" w
    = (set_trace (trace w ++ ProxyAcquired "maestral"
                          :: ProxyCall "maestral" GetFatalErrors
                          :: fatal_error_block "Dropbox access revoked" wrapped) w,
       Ok tt).
Proof.
  apply (fatal_error_stops_command CmdResume "maestral"
           (set_view revoked_view (world_with {["maestral" := Running]} []))
           "Dropbox access revoked" "Please link Maestral again." []).
  - reflexivity.
  - reflexivity.
  - reflexivity.
  - reflexivity.
  - reflexivity.
Defined.

(** ** The link dialog *)

Lemma link_dialog_loop_run (config_name : string) (rs : list Z) :
  forall (codes : list string) (fuel : nat) (w : world) (more : list Z)
         (rest : list string),
    length codes = S (length rs) -> (length codes <= fuel)%nat ->
    is_running (daemons w) config_name = true -> fault w = None ->
    Forall (fun r => r <> 0) rs ->
    link_results w = rs ++ 0 :: more ->
    prompts w = codes ++ rest ->
    link_dialog_loop fuel config_name w
    = (set_link_results more
         (set_prompts rest
            (set_trace (trace w ++ concat (zip_with (link_attempt config_name)
                                                    codes (rs ++ [0]))) w)),
       Ok tt).
Proof.
  induction rs as [|r rs IH]; intros codes fuel w more rest Hlen Hfuel Hrun Hfault
    Hnz Hres Hpr.
  - destruct codes as [|code [|? ?]]; try discriminate Hlen.
    destruct fuel as [|fuel]; [simpl in Hfuel; lia|].
    destruct w as [d tr eg ls f v lr cf pr cp tw tk]. simpl in *. subst f lr pr.
    cbn [link_dialog_loop].
    unfold prompt, link, proxy_call, echo, emit, ret, cbind, set_trace, set_prompts,
      set_link_results, link_attempt. simpl. rewrite Hrun. simpl.
    rewrite <- !app_assoc. reflexivity.
  - destruct codes as [|code codes]; [discriminate Hlen|].
    destruct fuel as [|fuel]; [simpl in Hfuel; lia|].
    inversion Hnz as [|? ? Hr Hnz']; subst.
    assert (Hr0 : (r =? 0) = false) by (apply Z.eqb_neq; assumption).
    set (w1 := set_link_results (rs ++ 0 :: more)
                 (set_prompts (codes ++ rest)
                    (set_trace (trace w ++ link_attempt config_name code r) w))).
    assert (Hstep : link_dialog_loop (S fuel) config_name w
                    = link_dialog_loop fuel config_name w1).
    { subst w1. destruct w as [d tr eg ls f v lr cf pr cp tw tk]. simpl in *.
      subst f lr pr.
      cbn [link_dialog_loop].
      unfold prompt, link, proxy_call, echo, emit, ret, cbind, set_trace, set_prompts,
        set_link_results, link_attempt. simpl. rewrite Hrun. simpl.
      rewrite Hr0.
      destruct (r =? 1); [|destruct (r =? 2)]; simpl;
        rewrite <- ?app_assoc; reflexivity. }
    rewrite Hstep.
    rewrite (IH codes fuel w1 more rest);
      [ | simpl in Hlen; lia | simpl in Hfuel; lia
        | subst w1; destruct w; assumption | subst w1; destruct w; assumption
        | assumption
        | subst w1; destruct w; reflexivity | subst w1; destruct w; reflexivity ].
    subst w1. destruct w as [d tr eg ls f v lr cf pr cp tw tk].
    unfold set_link_results, set_prompts, set_trace. simpl.
    rewrite <- !app_assoc. reflexivity.
Qed.

(** X11. The link dialog asks for the token again until [m.link] returns 0.
    With the daemon reachable, answers of the user for every round, and
    results of [m.link] that are not 0 and then 0, it prints the
    instructions, then runs one round for each result: a prompt, the call of
    [m.link] with the stripped answer, and the message for an invalid token
    after 1 or for a failed connection after 2, no message after another
    result. It returns after the round of the 0 and leaves the answers that
    were not needed. *)
Theorem link_dialog_retries (config_name : string) (w : world) (rs more : list Z)
    (codes rest : list string) :
  is_running (daemons w) config_name = true -> fault w = None ->
  Forall (fun r => r <> 0) rs ->
  link_results w = rs ++ 0 :: more ->
  prompts w = codes ++ rest -> length codes = S (length rs) ->
  link_dialog config_name w
  = (set_link_results more
       (set_prompts rest
          (set_trace (trace w ++ link_instructions config_name (v_auth_url (view w))
                              ++ concat (zip_with (link_attempt config_name)
                                                  codes (rs ++ [0]))) w)),
     Ok tt).
Proof.
  intros Hrun Hfault Hnz Hres Hpr Hlen.
  set (w1 := set_trace (trace w ++ link_instructions config_name (v_auth_url (view w))) w).
  assert (Hstart : link_dialog config_name w
                   = link_dialog_loop (S (length (prompts w1))) config_name w1).
  { subst w1. destruct w as [d tr eg ls f v lr cf pr cp tw tk]. simpl in *. subst f.
    unfold link_dialog, proxy_get, proxy_call, ask, echo, emit, cbind, set_trace,
      link_instructions. simpl. rewrite Hrun. simpl.
    rewrite <- !app_assoc. reflexivity. }
  rewrite Hstart.
  rewrite (link_dialog_loop_run config_name rs codes _ w1 more rest);
    [ | assumption
      | subst w1; destruct w; simpl in *; rewrite Hpr, length_app; lia
      | subst w1; destruct w; assumption | subst w1; destruct w; assumption
      | assumption
      | subst w1; destruct w; assumption | subst w1; destruct w; assumption ].
  subst w1. destruct w as [d tr eg ls f v lr cf pr cp tw tk].
  unfold set_link_results, set_prompts, set_trace. simpl.
  rewrite <- !app_assoc. reflexivity.
Qed.

Lemma link_dialog_retries_witness :
  let w := set_prompts ["wrong"; " right "]
             (set_link_results [1; 0] (world_with {["maestral" := Running]} [])) in
  link_dialog "maestral" w
  = (set_link_results []
       (set_prompts []
          (set_trace (trace w ++ link_instructions "maestral" (v_auth_url (view w))
                              ++ concat (zip_with (link_attempt "maestral")
                                                  ["wrong"; " right "] ([1] ++ [0]))) w)),
     Ok tt).
Proof.
  apply (link_dialog_retries "maestral"
           (set_prompts ["wrong"; " right "]
              (set_link_results [1; 0] (world_with {["maestral" := Running]} [])))
           [1] [] ["wrong"; " right "] []).
  - reflexivity.
  - reflexivity.
  - repeat constructor. discriminate.
  - reflexivity.
  - reflexivity.
  - reflexivity.
Defined.

(** ** The folders to exclude *)

Lemma ask_exclusions_run (entries : list (string * string * string)) :
  forall (w : world) (answers rest : list bool),
    confirms w = answers ++ rest ->
    length answers = length (List.filter is_folder entries) ->
    ask_exclusions entries w
    = (set_confirms rest
         (set_trace (trace w ++ map exclusion_question (List.filter is_folder entries)) w),
       Ok (map (fun p => p.1.2)
               (List.filter snd (zip (List.filter is_folder entries) answers)))).
Proof.
  induction entries as [|[[tag pd] pl] entries IH]; intros w answers rest Hc Hlen.
  - destruct answers; [|discriminate Hlen]. simpl in Hc.
    destruct w. simpl in *. subst. unfold ret, set_confirms, set_trace. simpl.
    rewrite app_nil_r. reflexivity.
  - assert (Hf : is_folder (tag, pd, pl) = String.eqb tag "FolderMetadata")
      by reflexivity.
    cbn [ask_exclusions List.filter] in Hlen |- *. rewrite !Hf in Hlen |- *. clear Hf.
    destruct (String.eqb tag "FolderMetadata") eqn:Etag.
    + destruct answers as [|yes answers]; [discriminate Hlen|].
      set (w1 := set_confirms (answers ++ rest)
                   (set_trace (trace w ++ [exclusion_question (tag, pd, pl)]) w)).
      assert (Hstep : forall B (k : bool -> cli B),
                cbind (confirm ("Exclude " ++ dq ++ pd ++ dq ++ " from sync?")) k w
                = k yes w1).
      { intros B k. subst w1. destruct w. simpl in *. subst.
        unfold confirm, emit, cbind, set_confirms, set_trace, exclusion_question.
        simpl. reflexivity. }
      rewrite Hstep. unfold cbind at 1.
      rewrite (IH w1 answers rest); [|subst w1; destruct w; reflexivity
                                     |simpl in Hlen; lia].
      unfold ret. subst w1. destruct w.
      unfold set_confirms, set_trace. simpl. rewrite <- !app_assoc. simpl.
      destruct yes; reflexivity.
    + apply IH; assumption.
Qed.

(** X12. The setup of [start] asks about the folders only: when the user
    wants to exclude folders, there is one question for every entry of the
    listing that is a folder, in the order of the listing, and none for a
    file; the items to exclude are the lower-case paths of the folders for
    which the answer was yes, in that order. *)
Theorem ask_exclusions_folders (entries : list (string * string * string))
    (w : world) (answers rest : list bool) :
  let folders := List.filter is_folder entries in
  confirms w = answers ++ rest -> length answers = length folders ->
  ask_exclusions entries w
  = (set_confirms rest (set_trace (trace w ++ map exclusion_question folders) w),
     Ok (map (fun p => p.1.2) (List.filter snd (zip folders answers)))).
Proof. intros folders. apply ask_exclusions_run. Qed.

Lemma ask_exclusions_folders_witness :
  let entries := [("FolderMetadata", "/Photos", "/photos");
                  ("FileMetadata", "/notes.txt", "/notes.txt");
                  ("FolderMetadata", "/Work", "/work")] in
  let w := set_confirms [true; false] (world_with ∅ []) in
  ask_exclusions entries w
  = (set_confirms []
       (set_trace (trace w ++ map exclusion_question (List.filter is_folder entries)) w),
     Ok (map (fun p => p.1.2)
             (List.filter snd (zip (List.filter is_folder entries) [true; false])))).
Proof.
  apply (ask_exclusions_folders
           [("FolderMetadata", "/Photos", "/photos");
            ("FileMetadata", "/notes.txt", "/notes.txt");
            ("FolderMetadata", "/Work", "/work")]
           (set_confirms [true; false] (world_with ∅ [])) [true; false] []).
  - reflexivity.
  - reflexivity.
Defined.

(** ** The table of the activity view *)

Lemma length_list_ascii_of_string (s : string) :
  length (list_ascii_of_string s) = String.length s.
Proof. induction s as [|c s IH]; simpl; [reflexivity|]. rewrite IH. reflexivity. Qed.

Lemma length_string_of_list_ascii (l : list ascii) :
  String.length (string_of_list_ascii l) = length l.
Proof. induction l as [|c l IH]; simpl; [reflexivity|]. rewrite IH. reflexivity. Qed.

Lemma length_ljust_string (s : string) (width : Z) :
  Z.of_nat (String.length s) <= width ->
  Z.of_nat (String.length (ljust_string s width)) = width.
Proof.
  intros H. unfold ljust_string. rewrite length_string_of_list_ascii.
  fold (len (ljust (list_ascii_of_string s) width)). rewrite len_ljust.
  unfold len. rewrite length_list_ascii_of_string. lia.
Qed.

Lemma fold_left_name_max_ge (names : list string) (x : Z) :
  x <= fold_left (fun n fn => Z.max (Z.of_nat (String.length fn)) n) names x.
Proof.
  revert x. induction names as [|fn names IH]; intros x; simpl; [lia|].
  specialize (IH (Z.max (Z.of_nat (String.length fn)) x)). lia.
Qed.

Lemma fold_left_name_max_elem (names : list string) (x : Z) (fn : string) :
  fn ∈ names ->
  Z.of_nat (String.length fn)
  <= fold_left (fun n fn => Z.max (Z.of_nat (String.length fn)) n) names x.
Proof.
  revert x. induction names as [|y names IH]; intros x Hin; [inversion Hin|].
  simpl. apply elem_of_cons in Hin as [->|Hin].
  - pose proof (fold_left_name_max_ge names (Z.max (Z.of_nat (String.length y)) x)).
    lia.
  - apply IH. assumption.
Qed.

Lemma zip_map_same {A B C} (f : A -> B) (g : A -> C) (l : list A) :
  zip (map f l) (map g l) = map (fun x => (f x, g x)) l.
Proof. induction l as [|x l IH]; simpl; [reflexivity|]. rewrite IH. reflexivity. Qed.

(** X13. The table of the activity view has its states in one column: there
    is a width, at least the 11 letters of the header of the downloads and
    at least the length of every file name shown, such that every row is the
    base name of its path filled up with spaces to two more than that width,
    followed by the state. The three lines of the head come first. *)
Theorem activity_states_in_one_column (t : tick) :
  exists col_len,
    11 <= col_len /\
    activity_lines t
    = take 3 (activity_lines t)
      ++ map (fun entry => (ljust_string (basename entry.1) (col_len + 2) ++ entry.2)%string)
             (activity_rows t) /\
    length (take 3 (activity_lines t)) = 3%nat /\
    forall entry,
      entry ∈ activity_rows t ->
      Z.of_nat (String.length (basename entry.1)) <= col_len /\
      Z.of_nat (String.length (ljust_string (basename entry.1) (col_len + 2)))
      = col_len + 2.
Proof.
  set (names := map (fun entry : string * string => basename entry.1) (activity_rows t)).
  set (col_len := fold_left (fun n fn => Z.max (Z.of_nat (String.length fn)) n) names 0).
  assert (Hbound : forall entry, entry ∈ activity_rows t ->
                                 Z.of_nat (String.length (basename entry.1)) <= col_len).
  { intros entry Hin. apply fold_left_name_max_elem.
    apply list_elem_of_fmap. exists entry. auto. }
  exists col_len. split; [|split; [|split]].
  - assert (Hin : ("DOWNLOADING", "STATUS") ∈ activity_rows t).
    { unfold activity_rows. apply list_elem_of_further. apply elem_of_app. right.
      apply list_elem_of_here. }
    specialize (Hbound _ Hin).
    change (Z.of_nat (String.length (basename ("DOWNLOADING", "STATUS").1))) with 11
      in Hbound. exact Hbound.
  - unfold activity_lines. cbv zeta. cbn [take app]. do 3 f_equal.
    fold (activity_rows t).
    rewrite zip_map_same, map_map. fold names. fold col_len. reflexivity.
  - reflexivity.
  - intros entry Hin. split; [apply Hbound; assumption|].
    apply length_ljust_string. specialize (Hbound entry Hin). lia.
Qed.

(** ** Errors of the sync engine and paths *)

(** X14. A command under [catch_maestral_errors] never ends with an error of
    the Maestral API or a connection error: the first becomes the error of
    the command with title and message, the second the error that Dropbox
    could not be reached. Everything else passes unchanged: a result,
    another exception, and what the command did before it stopped. Applying
    the decorator twice is the same as applying it once. *)
Theorem catch_maestral_errors_outcome {A} (func : cli A) (w : world) :
  let out := catch_maestral_errors func w in
  out.1 = (func w).1 /\
  (forall title message, out.2 <> Raise (MaestralApiError title message)) /\
  out.2 <> Raise ConnectionError /\
  out.2 = match (func w).2 with
          | Raise (MaestralApiError title message) =>
              Raise (ClickException (title ++ ": " ++ message))
          | Raise ConnectionError => Raise (ClickException "Could not connect to Dropbox.")
          | r => r
          end /\
  catch_maestral_errors (catch_maestral_errors func) w = out.
Proof.
  cbv zeta. unfold catch_maestral_errors, try_except, raise.
  destruct (func w) as [w' [a|e]]; cbn [fst snd].
  - repeat split; intros; discriminate.
  - destruct e; cbn [fst snd]; repeat split; intros; discriminate.
Qed.

Lemma with_leading_slash_root (dropbox_path : string) :
  with_leading_slash dropbox_path = "/" <-> dropbox_path = "" \/ dropbox_path = "/".
Proof.
  unfold with_leading_slash. split.
  - destruct dropbox_path as [|c s]; [auto|]. cbn [String.prefix].
    destruct (ascii_dec "/"%char c) as [<-|Hne].
    + destruct s; [auto|]. cbn [String.prefix]. intros H. discriminate H.
    + intros H. discriminate H.
  - intros [->| ->]; reflexivity.
Qed.

Lemma with_leading_slash_prefix (dropbox_path : string) :
  String.prefix "/" (with_leading_slash dropbox_path) = true.
Proof.
  unfold with_leading_slash.
  destruct (String.prefix "/" dropbox_path) eqn:E; [exact E|].
  cbn [String.append String.prefix].
  destruct (ascii_dec "/"%char "/"%char) as [_|Hne]; [|congruence].
  destruct dropbox_path; reflexivity.
Qed.

(** X15. The commands on Dropbox paths put a slash in front of a path that
    has none, so that the path they use always starts with a slash and a
    second normalisation changes nothing; the root is the empty path as well
    as the slash. For the root, [excluded_remove] only prints that the root
    is always included: it does not look for the daemon, running or not. *)
Theorem excluded_remove_root (dropbox_path config_name : string) (w : world) :
  String.prefix "/" (with_leading_slash dropbox_path) = true /\
  with_leading_slash (with_leading_slash dropbox_path) = with_leading_slash dropbox_path /\
  (with_leading_slash dropbox_path = "/" <-> dropbox_path = "" \/ dropbox_path = "/") /\
  (dropbox_path = "" \/ dropbox_path = "/" ->
   excluded_remove dropbox_path config_name w
   = (set_trace (trace w ++ [Echo (style_red "The root directory is always included.")
                                  true]) w,
      Ok tt)).
Proof.
  split; [apply with_leading_slash_prefix|]. split; [|split].
  - unfold with_leading_slash at 1. rewrite with_leading_slash_prefix. reflexivity.
  - apply with_leading_slash_root.
  - intros [->| ->]; reflexivity.
Qed.

(** ** The dialog for the Dropbox folder *)

Lemma lstrip_sep_slashes (s : pystr) :
  Forall (fun c => (code c =? 47)%N = true) s -> lstrip_sep s = [].
Proof. induction 1 as [|c s Hc _ IH]; simpl; [reflexivity|]. rewrite Hc. exact IH. Qed.

Lemma rstrip_sep_slashes (s : string) :
  Forall (fun c => (code c =? 47)%N = true) (list_ascii_of_string s) ->
  rstrip_sep s = "".
Proof.
  intros H. unfold rstrip_sep. rewrite lstrip_sep_slashes; [reflexivity|].
  apply Forall_forall. intros c Hc. rewrite Forall_forall in H. apply H.
  apply list_elem_of_In. apply list_elem_of_In in Hc. apply in_rev. assumption.
Qed.

Section FolderDialog.

Context {FS : Type} (ops : path_ops FS) (allow_merge : bool) (default : string).

Lemma select_dbx_path_loop_consent (fuel : nat) :
  forall st : dialog_state FS,
    Forall (fun c => c <> Replace) (d_choices st) ->
    Forall (fun b => b = false) (d_confirms st) ->
    let out := select_dbx_path_loop ops allow_merge default fuel st in
    d_fs out.1 = d_fs st /\ d_echoed out.1 = d_echoed st /\
    forall p,
      out.2 = Ok p ->
      (exists answer, answer ∈ d_paths st /\ p = chosen_location ops default answer) /\
      (path_exists ops (d_fs st) p = false \/
       (allow_merge = true /\ Merge ∈ d_choices st)).
Proof.
  induction fuel as [|fuel IH]; intros st Hch Hco; cbn [select_dbx_path_loop].
  - cbn [fst snd]. repeat split; intros; discriminate.
  - destruct st as [fs paths choices confirms echoed]. cbn [d_fs d_paths d_choices
      d_confirms d_echoed] in *.
    destruct paths as [|answer paths].
    + cbn [fst snd d_fs d_echoed]. repeat split; intros; discriminate.
    + cbv zeta. cbn [d_fs d_paths d_choices d_confirms d_echoed].
      destruct (path_exists ops fs (chosen_location ops default answer)) eqn:Eex.
      * unfold next_choice. cbn [d_fs d_paths d_choices d_confirms d_echoed].
        destruct allow_merge eqn:Eam.
        -- destruct choices as [|c choices].
           ++ cbn [fst snd d_fs d_echoed]. repeat split; intros; discriminate.
           ++ inversion Hch as [|? ? Hc Hch']; subst.
              destruct c; [congruence| |].
              ** cbn [fst snd d_fs d_echoed]. split; [reflexivity|].
                 split; [reflexivity|]. intros p [= <-]. split.
                 --- exists answer. split; [apply list_elem_of_here|reflexivity].
                 --- right. split; [reflexivity|]. apply list_elem_of_here.
              ** specialize (IH {| d_fs := fs; d_paths := paths; d_choices := choices;
                                   d_confirms := confirms; d_echoed := echoed |}
                               Hch' Hco).
                 cbv zeta in IH. cbn [d_fs d_paths d_choices d_confirms d_echoed] in IH.
                 destruct IH as (H1 & H2 & H3). split; [exact H1|]. split; [exact H2|].
                 intros p Hp. destruct (H3 p Hp) as [(a & Ha & Hpa) Hor]. split.
                 --- exists a. split; [apply list_elem_of_further; assumption|assumption].
                 --- destruct Hor as [Hor|[_ Hor]]; [left; assumption|].
                     right. split; [reflexivity|]. apply list_elem_of_further. assumption.
        -- destruct confirms as [|b confirms].
           ++ cbn [fst snd d_fs d_echoed]. repeat split; intros; discriminate.
           ++ inversion Hco as [|? ? Hb Hco']; subst.
              specialize (IH {| d_fs := fs; d_paths := paths; d_choices := choices;
                                d_confirms := confirms; d_echoed := echoed |}
                            Hch Hco').
              cbv zeta in IH. cbn [d_fs d_paths d_choices d_confirms d_echoed] in IH.
              destruct IH as (H1 & H2 & H3). split; [exact H1|]. split; [exact H2|].
              intros p Hp. destruct (H3 p Hp) as [(a & Ha & Hpa) Hor]. split.
              --- exists a. split; [apply list_elem_of_further; assumption|assumption].
              --- destruct Hor as [Hor|[Hor _]]; [left; assumption|discriminate Hor].
      * cbn [fst snd d_fs d_echoed]. split; [reflexivity|]. split; [reflexivity|].
        intros p [= <-]. split.
        -- exists answer. split; [apply list_elem_of_here|reflexivity].
        -- left. assumption.
Qed.

(** X16. The dialog for the Dropbox folder deletes nothing without being
    told to. When the user never chooses to replace a folder and never
    confirms a replacement, the dialog leaves the file system and its output
    as they are, whatever the operations on paths do; the path it returns
    comes from one of the answers to the prompt, and it is a path that does
    not exist, unless merging is allowed and the user chose to merge. An
    answer made of separators only stands for the default location. *)
Theorem select_dbx_path_dialog_consent (st : dialog_state FS) :
  Forall (fun c => c <> Replace) (d_choices st) ->
  Forall (fun b => b = false) (d_confirms st) ->
  let out := select_dbx_path_dialog_on ops allow_merge default st in
  d_fs out.1 = d_fs st /\ d_echoed out.1 = d_echoed st /\
  (forall p,
     out.2 = Ok p ->
     (exists answer, answer ∈ d_paths st /\ p = chosen_location ops default answer) /\
     (path_exists ops (d_fs st) p = false \/
      (allow_merge = true /\ Merge ∈ d_choices st))) /\
  (forall answer,
     answer <> "" ->
     Forall (fun c => (code c =? 47)%N = true) (list_ascii_of_string answer) ->
     chosen_location ops default answer = expanduser ops default).
Proof.
  intros Hch Hco out.
  destruct (select_dbx_path_loop_consent (S (length (d_paths st))) st Hch Hco)
    as (H1 & H2 & H3).
  split; [exact H1|]. split; [exact H2|]. split; [exact H3|].
  intros answer Hne Hsl. unfold chosen_location, or_default.
  destruct (String.eqb_spec answer "") as [->|_]; [congruence|].
  rewrite rstrip_sep_slashes by assumption. reflexivity.
Qed.

End FolderDialog.

Lemma select_dbx_path_dialog_consent_witness :
  let st := {| d_fs := ["/home/u/Dropbox"]; d_paths := [""; "/"; "/tmp/x//"];
               d_choices := []; d_confirms := [false; false]; d_echoed := [] |} in
  let out := select_dbx_path_dialog_on listed_paths false "/home/u/Dropbox" st in
  d_fs out.1 = d_fs st /\ d_echoed out.1 = d_echoed st /\
  (forall p,
     out.2 = Ok p ->
     (exists answer,
        answer ∈ d_paths st /\
        p = chosen_location listed_paths "/home/u/Dropbox" answer) /\
     (path_exists listed_paths (d_fs st) p = false \/
      (false = true /\ Merge ∈ d_choices st))) /\
  (forall answer,
     answer <> "" ->
     Forall (fun c => (code c =? 47)%N = true) (list_ascii_of_string answer) ->
     chosen_location listed_paths "/home/u/Dropbox" answer
     = expanduser listed_paths "/home/u/Dropbox").
Proof.
  apply (select_dbx_path_dialog_consent listed_paths false "/home/u/Dropbox"
           {| d_fs := ["/home/u/Dropbox"]; d_paths := [""; "/"; "/tmp/x//"];
              d_choices := []; d_confirms := [false; false]; d_echoed := [] |}).
  - constructor.
  - repeat constructor.
Defined.

(** ** The insertion of the headers, for any columns and headers *)











(** ** The alignment tags are looked at when a line is built *)

Lemma justify_unknown (align : Z) (s : pystr) (width : Z) :
  known_tag align = false -> justify align s width = Raise tag_error.
Proof.
  unfold known_tag, justify. intros H.
  apply orb_false_iff in H as [H HR]. apply orb_false_iff in H as [HL HC].
  rewrite HL, HR, HC. reflexivity.
Qed.

Lemma build_line_unknown (padding : Z) (i : nat) (row : list (list pystr))
    (col_widths alignment : list Z) (line : pystr) :
  length row = length alignment -> length col_widths = length alignment ->
  (exists a, a ∈ alignment /\ known_tag a = false) ->
  build_line padding i row col_widths alignment line = Raise tag_error.
Proof.
  revert row col_widths line.
  induction alignment as [|a al IH]; intros row ws line Hr Hw (b & Hb & Hk).
  - apply elem_of_nil in Hb. destruct Hb.
  - destruct row as [|cell row]; [discriminate Hr|].
    destruct ws as [|w ws]; [discriminate Hw|].
    cbn [build_line]. destruct (known_tag a) eqn:Ea.
    + destruct (justify_known a (nth i cell []) w Ea) as [j Hj]. rewrite Hj. cbn [bind].
      apply IH.
      * simpl in Hr. lia.
      * simpl in Hw. lia.
      * apply elem_of_cons in Hb as [->|Hb]; [congruence|]. exists b. auto.
    + rewrite (justify_unknown a _ w Ea). reflexivity.
Qed.

Lemma blank_or_filled (row : list (list pystr)) :
  Forall (fun cell => cell = []) row \/ exists cell, cell ∈ row /\ cell <> [].
Proof.
  induction row as [|c row [IH|(cell & Hin & Hne)]].
  - left. constructor.
  - destruct c as [|x c].
    + left. constructor; [reflexivity|assumption].
    + right. exists (x :: c). split; [apply elem_of_cons; left; reflexivity|discriminate].
  - right. exists cell. split; [apply elem_of_cons; right; assumption|assumption].
Qed.

(** A row whose cells all wrapped to nothing gives no line. *)
Lemma row_lines_blank (padding : Z) (col_widths alignment : list Z)
    (row : list (list pystr)) :
  row <> [] -> Forall (fun cell => cell = []) row ->
  row_lines padding col_widths alignment row = Ok [].
Proof.
  intros Hne Hall. unfold row_lines.
  destruct (py_max (map len row)) as [m|e] eqn:Em.
  - apply py_max_spec in Em as [Hin _].
    apply list_elem_of_fmap in Hin as (cell & -> & Hcell).
    rewrite Forall_forall in Hall. rewrite (Hall cell Hcell). reflexivity.
  - destruct row; [congruence|discriminate Em].
Qed.

(** A row with a cell that has a line meets every tag of the alignment. *)
Lemma row_lines_unknown (padding : Z) (col_widths alignment : list Z)
    (row : list (list pystr)) :
  length row = length alignment -> length col_widths = length alignment ->
  (exists cell, cell ∈ row /\ cell <> []) ->
  (exists a, a ∈ alignment /\ known_tag a = false) ->
  row_lines padding col_widths alignment row = Raise tag_error.
Proof.
  intros Hr Hw (cell & Hcell & Hne) Ha. unfold row_lines.
  destruct (py_max (map len row)) as [m|e] eqn:Em.
  - apply py_max_spec in Em as [_ Hmax]. cbn [bind].
    assert (Hm : 1 <= m).
    { transitivity (len cell).
      - destruct cell; [congruence|]. unfold len. simpl. lia.
      - apply Hmax. apply list_elem_of_fmap. exists cell. auto. }
    destruct (Z.to_nat m) as [|n] eqn:En; [lia|].
    cbn [seq mapM]. rewrite build_line_unknown; [reflexivity| | |assumption].
    + rewrite length_map. assumption.
    + assumption.
  - destruct row; [|discriminate Em]. apply elem_of_nil in Hcell. destruct Hcell.
Qed.

Lemma mapM_some_raise {A B} (f : A -> result B) (l : list A) (e : exn) :
  Forall (fun x => (exists y, f x = Ok y) \/ f x = Raise e) l ->
  (exists x, x ∈ l /\ f x = Raise e) ->
  mapM f l = Raise e.
Proof.
  induction l as [|x l IH]; intros Hall (z & Hz & Hfz).
  - apply elem_of_nil in Hz. destruct Hz.
  - apply Forall_cons in Hall as [[[y Hy]|Hx] Hall]; cbn [mapM].
    + rewrite Hy. cbn [bind].
      apply elem_of_cons in Hz as [->|Hz]; [congruence|].
      rewrite IH; [reflexivity|assumption|]. exists z. auto.
    + rewrite Hx. reflexivity.
Qed.

Lemma wrap_columns_length (columns : list (list pystr)) (col_widths : list Z)
    (wrapped : list (list (list pystr))) :
  length col_widths = length columns ->
  wrap_columns columns col_widths = Ok wrapped -> length wrapped = length columns.
Proof.
  revert col_widths wrapped.
  induction columns as [|col columns IH]; intros [|w ws] wrapped Hlen; simpl in *;
    try discriminate Hlen.
  - intros [= <-]. reflexivity.
  - destruct (mapM (fun cell => textwrap_wrap cell w) col); [|discriminate].
    cbn [bind]. destruct (wrap_columns columns ws) eqn:E; [|discriminate].
    cbn [bind]. intros [= <-]. simpl. f_equal. eapply IH; [|exact E]. lia.
Qed.

(** The layout raises the error of the alignment tag exactly when nothing
    failed before, a line is built and some tag is unknown. *)
Lemma render_table_tag_error (tw : Z) (columns : list (list pystr))
    (padding : Z) (alignment : alignment_arg) (wrap : bool) :
  render_table tw columns padding alignment wrap = Raise tag_error <->
  forallb (fun col => len col =? 0) columns = false /\
  exists al ws wrapped,
    resolve_alignment alignment (length columns) = Ok al /\
    column_widths tw padding wrap columns = Ok ws /\
    wrap_columns columns ws = Ok wrapped /\
    builds_a_line wrapped /\
    exists a, a ∈ al /\ known_tag a = false.
Proof.
  unfold render_table. destruct (forallb _ columns).
  { split; [discriminate|]. intros [H _]. discriminate H. }
  destruct (resolve_alignment alignment (length columns)) as [al|e] eqn:Ea.
  2:{ apply resolve_alignment_raise in Ea as [-> _]. cbn [bind].
      split; [discriminate|]. intros [_ (al & ws & wr & H & _)]. discriminate H. }
  cbn [bind].
  destruct (column_widths tw padding wrap columns) as [ws|e] eqn:Ew.
  2:{ apply column_widths_raise in Ew.
      pose proof (layout_error_not_own e Ew) as Hown. cbn [bind].
      split; [intros [= ->]; tauto|]. intros [_ (al' & ws & wr & _ & H & _)]. discriminate H. }
  cbn [bind].
  destruct (wrap_columns columns ws) as [wrapped|e] eqn:Ewr.
  2:{ pose proof (wrap_columns_raise _ _ _ Ewr) as Hl.
      pose proof (layout_error_not_own e Hl) as Hown. cbn [bind].
      split; [intros [= ->]; tauto|].
      intros [_ (al' & ws' & wr & _ & [= <-] & H & _)]. rewrite Ewr in H. discriminate H. }
  cbn [bind].
  pose proof (resolve_alignment_length _ _ _ Ea) as Hal.
  pose proof (column_widths_length _ _ _ _ _ Ew) as Hws.
  pose proof (wrap_columns_length _ _ _ Hws Ewr) as Hwr.
  pose proof (transpose_rows_length wrapped) as Hrows.
  split.
  - intros H. split; [reflexivity|]. exists al, ws, wrapped.
    repeat (split; [first [reflexivity|assumption]|]).
    destruct (mapM (row_lines padding ws al) (_transpose wrapped)) as [lines|e] eqn:El;
      [discriminate H|].
    cbn [bind] in H. injection H as ->.
    apply mapM_raise in El as (row & Hrow & Hl).
    split.
    + exists row. destruct (blank_or_filled row) as [Hb|(cell & Hc & Hne)].
      * destruct row as [|c row]; [discriminate Hl|].
        rewrite row_lines_blank in Hl by (assumption || discriminate). discriminate Hl.
      * exists cell. auto.
    + apply row_lines_raise in Hl as [Hl|[_ Ha]]; [|exact Ha].
      pose proof (layout_error_not_own _ Hl) as Hown. tauto.
  - intros [_ (al' & ws' & wr' & [= <-] & [= <-] & Hwr' & (row & cell & Hrow & Hc & Hne) & Ha)].
    rewrite Ewr in Hwr'. injection Hwr' as <-.
    rewrite Forall_forall in Hrows.
    rewrite (mapM_some_raise _ _ tag_error); [reflexivity| |].
    + apply Forall_forall. intros r Hr.
      destruct (blank_or_filled r) as [Hb|Hf].
      * left. exists []. apply row_lines_blank; [|assumption].
        intros ->. pose proof (Hrows _ Hr) as Hnil. pose proof (Hrows _ Hrow) as Hlr.
        destruct row; [apply elem_of_nil in Hc; destruct Hc|].
        simpl in Hnil, Hlr. lia.
      * right. apply row_lines_unknown; try assumption.
        -- rewrite (Hrows _ Hr). lia.
        -- lia.
    + exists row. split; [assumption|]. apply row_lines_unknown.
      * rewrite (Hrows _ Hrow). lia.
      * lia.
      * exists cell. auto.
      * assumption.
Qed.

(** C3, amended. Each of the four errors of [format_table] has its cause.
    The error for both inputs is raised exactly when [rows] and [columns]
    are both non-empty, the error for no input exactly when both are missing
    or empty. The error of the alignment count is raised exactly when the
    table has a cell, and the alignment is a non-empty list whose length is
    not the number of columns. The error of the alignment tag is raised
    exactly when some column has a tag other than the three known ones and
    the table yields a line, nothing having failed before: the columns are
    there and not all empty, the alignment has a tag for every column, and
    the widths and the wrapping of the cells went through. Any other
    error is [IndexError] for a missing header or an error of a builtin:
    [max] of an empty column, a width that is not positive, or a division by
    zero or an overflow in the widths. *)
Theorem format_table_caller_errors (tw : Z) (rows columns : option (list loc))
    (headers : option (list pystr)) (padding : Z) (alignment : alignment_arg)
    (wrap : bool) (σ : store) :
  let head := (table_columns rows columns headers σ).2 in
  let r := (format_table tw rows columns headers padding alignment wrap σ).2 in
  (r = Raise both_error <-> truthy rows = true /\ truthy columns = true) /\
  (r = Raise neither_error <-> truthy rows = false /\ truthy columns = false) /\
  (r = Raise count_error <->
   exists cols l, head = Ok cols /\ forallb (fun col => len col =? 0) cols = false /\
                  alignment = AlignList l /\ l <> [] /\ length l <> length cols) /\
  (r = Raise tag_error <->
   exists cols al ws wrapped,
     head = Ok cols /\ forallb (fun col => len col =? 0) cols = false /\
     resolve_alignment alignment (length cols) = Ok al /\
     column_widths tw padding wrap cols = Ok ws /\
     wrap_columns cols ws = Ok wrapped /\
     builds_a_line wrapped /\
     exists a, a ∈ al /\ known_tag a = false) /\
  (forall e, r = Raise e ->
             e = both_error \/ e = neither_error \/ e = count_error \/ e = tag_error \/
             e = IndexError \/ layout_error e).
Proof.
  intros head r. subst r. rewrite format_table_result. fold head.
  pose proof (table_columns_raise rows columns headers σ) as Hraise.
  pose proof (table_columns_ok rows columns headers σ) as Hok.
  fold head in Hraise, Hok.
  destruct head as [cols|e0]; cbn [bind].
  - clear Hraise. destruct (Hok cols eq_refl) as [Hand Hor]. clear Hok.
    pose proof (render_table_raise tw cols padding alignment wrap) as Hr.
    assert (Hown : forall e, render_table tw cols padding alignment wrap = Raise e ->
                             e <> both_error /\ e <> neither_error).
    { intros e He. destruct (Hr e He) as [_ [[-> _]|[[-> _]|Hl]]];
        [split; discriminate|split; discriminate|].
      apply layout_error_not_own in Hl. tauto. }
    split; [|split; [|split; [|split]]].
    + split.
      * intros H. apply Hown in H. tauto.
      * intros [H1 H2]. rewrite H1, H2 in Hand. discriminate.
    + split.
      * intros H. apply Hown in H. tauto.
      * intros [H1 H2]. rewrite H1, H2 in Hor. discriminate.
    + split.
      * intros H. destruct (Hr _ H) as [Hne [[_ (l & Hl)]|[[He _]|Hl]]].
        -- exists cols, l. tauto.
        -- discriminate He.
        -- apply layout_error_not_own in Hl. tauto.
      * intros (cols' & l & [= <-] & Hne & Hal & Hl & Hlen).
        unfold render_table. rewrite Hne.
        assert (Ha : resolve_alignment alignment (length cols) = Raise count_error).
        { apply resolve_alignment_raise. split; [reflexivity|]. exists l. tauto. }
        rewrite Ha. reflexivity.
    + split.
      * intros H. apply render_table_tag_error in H as [Hne (al & ws & wr & H)].
        exists cols, al, ws, wr. tauto.
      * intros (cols' & al & ws & wr & [= <-] & Hne & H).
        apply render_table_tag_error. split; [assumption|]. exists al, ws, wr. exact H.
    + intros e H. destruct (Hr _ H) as [_ [[-> _]|[[-> _]|Hl]]]; tauto.
  - clear Hok.
    destruct (Hraise e0 eq_refl) as [(-> & H1 & H2)|[(-> & H1 & H2)|(-> & H1 & H2)]].
    + split; [|split; [|split; [|split]]].
      * split; [tauto|reflexivity].
      * split; [discriminate|]. intros [H3 _]. congruence.
      * split; [discriminate|]. intros (cols & l & Hd & _). discriminate Hd.
      * split; [discriminate|]. intros (cols & al & ws & wr & Hd & _). discriminate Hd.
      * intros e [= <-]. tauto.
    + split; [|split; [|split; [|split]]].
      * split; [discriminate|]. intros [H3 _]. congruence.
      * split; [tauto|reflexivity].
      * split; [discriminate|]. intros (cols & l & Hd & _). discriminate Hd.
      * split; [discriminate|]. intros (cols & al & ws & wr & Hd & _). discriminate Hd.
      * intros e [= <-]. tauto.
    + split; [|split; [|split; [|split]]].
      * split; [discriminate|]. intros [H3 H4]. rewrite H3, H4 in H1. discriminate.
      * split; [discriminate|]. intros [H3 H4]. rewrite H3, H4 in H2. discriminate.
      * split; [discriminate|]. intros (cols & l & Hd & _). discriminate Hd.
      * split; [discriminate|]. intros (cols & al & ws & wr & Hd & _). discriminate Hd.
      * intros e [= <-]. tauto.
Qed.

(** The unknown tag 7 is refused as soon as the table has a line, also when
    it stands for a later column; the same tag passes for a table whose
    cells are blank. *)
Lemma format_table_unknown_tag_examples :
  let σ : store := {[ 1%positive := [str_of "a"]; 2%positive := [str_of "b"] ]} in
  let blank : store := {[ 1%positive := [str_of " "]; 2%positive := [str_of " "] ]} in
  (format_table 80 None (Some [1%positive; 2%positive]) None 2
                (AlignList [LEFT; 7]) true σ).2 = Raise tag_error /\
  (format_table 80 None (Some [1%positive; 2%positive]) None 2
                (AlignInt 7) false σ).2 = Raise tag_error /\
  (format_table 80 None (Some [1%positive; 2%positive]) None 2
                (AlignList [LEFT; 7]) false blank).2 = Ok [].
Proof. vm_compute. repeat split. Qed.

(** ** [start] and [restart] take the proxy with no handler *)

Section Undisturbed.
Variable config_name : string.

Lemma undisturbed_same {A} (m : cli A) :
  (forall w, (m w).2 <> Raise CommunicationError /\
             daemons (m w).1 = daemons w /\ fault (m w).1 = fault w) ->
  undisturbed config_name m.
Proof.
  intros H w _ Ht. destruct (H w) as (Hr & Hd & Hf).
  split; [exact Hr|]. split; [exact Hd|]. intros n. rewrite Hf. apply Ht.
Qed.

Lemma undisturbed_ret {A} (a : A) : undisturbed config_name (ret a).
Proof. apply undisturbed_same. intros w. repeat split. discriminate. Qed.

Lemma undisturbed_ask {A} (f : world -> A) : undisturbed config_name (ask f).
Proof. apply undisturbed_same. intros w. repeat split. discriminate. Qed.

Lemma undisturbed_abort {A} : undisturbed config_name (@raise A Abort).
Proof. apply undisturbed_same. intros w. repeat split. discriminate. Qed.

Lemma undisturbed_emit (e : event) : undisturbed config_name (emit e).
Proof. apply undisturbed_same. intros w. repeat split. discriminate. Qed.

Lemma undisturbed_echo (message : string) : undisturbed config_name (echo message).
Proof. apply undisturbed_emit. Qed.

Lemma undisturbed_cbind {A B} (m : cli A) (k : A -> cli B) :
  undisturbed config_name m -> (forall a, undisturbed config_name (k a)) ->
  undisturbed config_name (cbind m k).
Proof.
  intros Hm Hk w Hr Ht. unfold cbind.
  destruct (Hm w Hr Ht) as (Hres & Hd & Ht').
  destruct (m w) as [w' [a|e]]; cbn [fst snd] in *.
  - assert (Hr' : is_running (daemons w') config_name = true) by (rewrite Hd; exact Hr).
    destruct (Hk a w' Hr' Ht') as (Hres' & Hd' & Ht'').
    split; [exact Hres'|]. split; [congruence|exact Ht''].
  - split; [|split; [exact Hd|exact Ht']].
    intros H. apply Hres. injection H as ->. reflexivity.
Qed.

Lemma undisturbed_confirm (text : string) : undisturbed config_name (confirm text).
Proof.
  apply undisturbed_cbind; [apply undisturbed_emit|]. intros _.
  apply undisturbed_same. intros w.
  destruct (confirms w); repeat split; discriminate.
Qed.

Lemma undisturbed_prompt (text : string) : undisturbed config_name (prompt text).
Proof.
  apply undisturbed_cbind; [apply undisturbed_emit|]. intros _.
  apply undisturbed_same. intros w.
  destruct (prompts w); repeat split; discriminate.
Qed.

Lemma undisturbed_MaestralProxy : undisturbed config_name (MaestralProxy config_name).
Proof.
  intros w Hr Ht. unfold MaestralProxy. rewrite Hr.
  split; [discriminate|]. split; [reflexivity|exact Ht].
Qed.

(** A call through the proxy raises the pending fault, which is no
    communication error while the transport holds. *)
Lemma undisturbed_proxy_call (op : proxy_op) :
  undisturbed config_name (proxy_call config_name op).
Proof.
  intros w Hr Ht. unfold proxy_call. rewrite Hr.
  destruct (fault w) as [[[|n] e]|] eqn:Ef.
  - split; [|split; [reflexivity|intros n; discriminate]].
    intros H. injection H as ->. apply (Ht 0%nat). exact Ef.
  - split; [discriminate|]. split; [reflexivity|].
    intros k H. cbn in H. injection H as -> ->. apply (Ht (S k)). exact Ef.
  - split; [discriminate|]. split; [reflexivity|].
    intros k H. cbn in H. rewrite Ef in H. discriminate H.
Qed.

Lemma undisturbed_proxy_get {A} (op : proxy_op) (f : daemon_view -> A) :
  undisturbed config_name (proxy_get config_name op f).
Proof.
  apply undisturbed_cbind; [apply undisturbed_proxy_call|]. intros _.
  apply undisturbed_ask.
Qed.

Lemma undisturbed_link (auth_code : string) :
  undisturbed config_name (link config_name auth_code).
Proof.
  apply undisturbed_cbind; [apply undisturbed_proxy_call|]. intros _.
  apply undisturbed_same. intros w.
  destruct (link_results w); repeat split; discriminate.
Qed.

Lemma undisturbed_link_dialog_loop (fuel : nat) :
  undisturbed config_name (link_dialog_loop fuel config_name).
Proof.
  induction fuel as [|fuel IH]; cbn [link_dialog_loop]; [apply undisturbed_abort|].
  apply undisturbed_cbind; [apply undisturbed_prompt|]. intros auth_code.
  apply undisturbed_cbind; [apply undisturbed_link|]. intros res.
  apply undisturbed_cbind.
  { destruct (res =? 1); [apply undisturbed_echo|].
    destruct (res =? 2); [apply undisturbed_echo|apply undisturbed_ret]. }
  intros _. destruct (res =? 0); [apply undisturbed_ret|exact IH].
Qed.

Lemma undisturbed_link_dialog : undisturbed config_name (link_dialog config_name).
Proof.
  unfold link_dialog.
  apply undisturbed_cbind; [apply undisturbed_proxy_get|]. intros url.
  apply undisturbed_cbind; [apply undisturbed_echo|]. intros _.
  apply undisturbed_cbind; [apply undisturbed_echo|]. intros _.
  apply undisturbed_cbind; [apply undisturbed_echo|]. intros _.
  intros w. apply undisturbed_link_dialog_loop.
Qed.

Lemma undisturbed_ask_exclusions (entries : list (string * string * string)) :
  undisturbed config_name (ask_exclusions entries).
Proof.
  induction entries as [|[[tag pd] pl] entries IH]; cbn [ask_exclusions];
    [apply undisturbed_ret|].
  destruct (String.eqb tag "FolderMetadata"); [|exact IH].
  apply undisturbed_cbind; [apply undisturbed_confirm|]. intros yes.
  apply undisturbed_cbind; [exact IH|]. intros rest. apply undisturbed_ret.
Qed.

(** The set-up of [start] on a running daemon: the communication error can
    only come from the transport. *)
Lemma undisturbed_start_setup (foreground verbose : bool) :
  undisturbed config_name (start_setup foreground verbose config_name).
Proof.
  unfold start_setup, select_dbx_path_dialog.
  apply undisturbed_cbind; [apply undisturbed_MaestralProxy|]. intros _.
  apply undisturbed_cbind; [apply undisturbed_proxy_get|]. intros pending_link.
  apply undisturbed_cbind.
  { destruct pending_link; [apply undisturbed_link_dialog|apply undisturbed_ret]. }
  intros _.
  apply undisturbed_cbind; [apply undisturbed_proxy_get|]. intros pending_folder.
  apply undisturbed_cbind.
  { destruct pending_folder; [|apply undisturbed_ret].
    apply undisturbed_cbind.
    { apply undisturbed_cbind; [apply undisturbed_emit|]. intros _.
      apply undisturbed_ask. }
    intros path.
    apply undisturbed_cbind; [apply undisturbed_proxy_call|]. intros _.
    apply undisturbed_cbind; [apply undisturbed_confirm|]. intros q.
    destruct q; [|apply undisturbed_ret].
    apply undisturbed_cbind; [apply undisturbed_echo|]. intros _.
    apply undisturbed_cbind; [apply undisturbed_proxy_get|]. intros entries.
    apply undisturbed_cbind; [apply undisturbed_ask_exclusions|]. intros excluded.
    apply undisturbed_proxy_call. }
  intros _.
  apply undisturbed_cbind; [apply undisturbed_proxy_call|]. intros _.
  apply undisturbed_cbind; [apply undisturbed_proxy_call|]. intros _.
  destruct foreground; [apply undisturbed_emit|apply undisturbed_ret].
Qed.

End Undisturbed.

Lemma catch_keeps_communication_error {A} (m : cli A) (w : world) :
  (catch_maestral_errors m w).2 = Raise CommunicationError <->
  (m w).2 = Raise CommunicationError.
Proof.
  unfold catch_maestral_errors, try_except.
  destruct (m w) as [w' [a|e]]; [reflexivity|].
  destruct e; cbn; split; intros H; try discriminate H; exact H.
Qed.

(** What [start] does after its announcement and the launch. *)
Lemma start_after_launch (foreground verbose : bool) (config_name : string)
    (w : world) :
  let res := (start_maestral_daemon (launch_succeeds w) config_name (daemons w)).1 in
  let d := (start_maestral_daemon (launch_succeeds w) config_name (daemons w)).2 in
  let w1 := set_trace (trace w ++ [Echo "Starting Maestral..." false;
                                   if foreground then StartDaemonThread config_name res
                                   else StartDaemonProcess config_name res])
              (set_daemons d w) in
  start foreground verbose config_name w
  = catch_maestral_errors
      (match res with
       | Start.Ok =>
           echo (cr ++ "Starting Maestral...        " ++ OK) ;;
           start_setup foreground verbose config_name
       | Start.AlreadyRunning =>
           echo (cr ++ "Starting Maestral...        Already running.")
       | Start.Failed =>
           echo (cr ++ "Starting Maestral...        " ++ FAILED) ;;
           echo "Please check logs for more information."
       end) w1.
Proof.
  cbv zeta. unfold start, catch_maestral_errors, try_except, echo_no_nl.
  rewrite cbind_emit, cbind_call_start_daemon. cbv zeta.
  cbn [launch_succeeds daemons trace set_trace set_daemons].
  rewrite <- app_assoc. reflexivity.
Qed.

Lemma start_transport_holds (foreground verbose : bool) (config_name : string)
    (w : world) :
  transport_holds w ->
  (start foreground verbose config_name w).2 <> Raise CommunicationError.
Proof.
  intros Ht. rewrite start_after_launch. cbv zeta.
  rewrite catch_keeps_communication_error.
  unfold start_maestral_daemon.
  destruct (is_running (daemons w) config_name) eqn:Hr; cbn [fst snd].
  - discriminate.
  - destruct (launch_succeeds w); cbn [fst snd].
    + unfold echo. rewrite cbind_emit.
      apply undisturbed_start_setup.
      * cbn [daemons set_trace set_daemons]. unfold is_running.
        rewrite lookup_insert_eq. reflexivity.
      * exact Ht.
    + discriminate.
Qed.

Lemma start_launch_fails (foreground verbose : bool) (config_name : string)
    (w : world) :
  launch_succeeds w = false ->
  (start foreground verbose config_name w).2 = Ok tt.
Proof.
  intros Hl. rewrite start_after_launch. cbv zeta.
  unfold start_maestral_daemon. rewrite Hl.
  destruct (is_running (daemons w) config_name); reflexivity.
Qed.

(** The first call through the proxy raises the pending fault, and the
    set-up has no handler for it. *)
Lemma start_setup_fault (foreground verbose : bool) (config_name : string)
    (w : world) (e : exn) :
  is_running (daemons w) config_name = true -> fault w = Some (0%nat, e) ->
  (start_setup foreground verbose config_name w).2 = Raise e.
Proof.
  intros Hr Hf. unfold start_setup.
  unfold cbind at 1. unfold MaestralProxy. rewrite Hr.
  cbn [emit]. unfold cbind at 1. unfold proxy_get. unfold cbind at 1.
  unfold proxy_call. cbn [daemons set_trace fault]. rewrite Hr, Hf. reflexivity.
Qed.

Lemma start_severed (foreground verbose : bool) (config_name : string)
    (w : world) :
  is_running (daemons w) config_name = false -> launch_succeeds w = true ->
  fault w = Some (0%nat, CommunicationError) ->
  (start foreground verbose config_name w).2 = Raise CommunicationError.
Proof.
  intros Hr Hl Hf. rewrite start_after_launch. cbv zeta.
  rewrite catch_keeps_communication_error.
  unfold start_maestral_daemon. rewrite Hr, Hl. cbn [fst snd].
  unfold echo. rewrite cbind_emit.
  apply start_setup_fault.
  - cbn [daemons set_trace set_daemons]. unfold is_running.
    rewrite lookup_insert_eq. reflexivity.
  - exact Hf.
Qed.

(** [restart] is [start] from the world that the stop leaves: the daemon is
    not running there, and the rest of the world is as before. *)
Lemma restart_as_start (foreground verbose : bool) (config_name : string)
    (w : world) :
  exists w1,
    restart foreground verbose config_name w = start foreground verbose config_name w1 /\
    is_running (daemons w1) config_name = false /\
    launch_succeeds w1 = launch_succeeds w /\ fault w1 = fault w.
Proof.
  destruct (stop_feedback_returns config_name w) as (res & Hstop & _).
  eexists. split; [|split; [|split]].
  - unfold restart, cbind. rewrite Hstop. reflexivity.
  - cbn [daemons set_daemons]. apply stopped_not_running.
  - reflexivity.
  - reflexivity.
Qed.

(** C8, amended. The commands that take the proxy without fallback are
    ten. Eight of them do it under a handler for the communication error,
    which never escapes from them, whatever the world: against a daemon that
    is not running, [pause], [resume], [status], [activity], [rebuild_index]
    and [notify_snooze] print the not-running message and return,
    [file_status] prints [unwatched] and returns, and [excluded_remove]
    prints that the root is always included for the root and otherwise ends
    with the error of the command that the daemon must be running. [start]
    and [restart] have no handler: they take the proxy only once the launch
    has succeeded, so no communication error escapes from them while the
    transport holds, and they return normally when the launch fails; but
    when the daemon was not running, is launched, and the transport breaks
    at the first call through the proxy, the communication error escapes
    from them as it is. *)
Theorem strict_commands_not_running (cmd : proxy_command) (config_name : string)
    (w : world) :
  let out := run_proxy_command cmd config_name w in
  match cmd with
  | WithHandler cmd' =>
      out.2 <> Raise CommunicationError /\
      (is_running (daemons w) config_name = false ->
       out = match cmd' with
             | CmdFileStatus _ =>
                 (set_trace (trace w ++ [Echo "unwatched" true]) w, Ok tt)
             | CmdExcludedRemove dropbox_path =>
                 if String.eqb (with_leading_slash dropbox_path) "/" then
                   (set_trace
                      (trace w ++
                       [Echo (style_red "The root directory is always included.") true])
                      w, Ok tt)
                 else
                   (w, Raise (ClickException
                                "Maestral daemon must be running to download folders."))
             | _ =>
                 (set_trace (trace w ++ [Echo "Maestral daemon is not running." true]) w,
                  Ok tt)
             end)
  | CmdStart _ _ | CmdRestart _ _ =>
      (transport_holds w -> out.2 <> Raise CommunicationError) /\
      (launch_succeeds w = false -> out.2 = Ok tt) /\
      (is_running (daemons w) config_name = false -> launch_succeeds w = true ->
       fault w = Some (0%nat, CommunicationError) ->
       out.2 = Raise CommunicationError)
  end.
Proof.
  destruct cmd as [cmd|foreground verbose|foreground verbose]; cbv zeta;
    cbn [run_proxy_command].
  - apply handled_commands_not_running.
  - split; [|split].
    + apply start_transport_holds.
    + apply start_launch_fails.
    + apply start_severed.
  - destruct (restart_as_start foreground verbose config_name w)
      as (w1 & -> & Hr & Hl & Hf).
    split; [|split].
    + intros Ht. apply start_transport_holds. intros n. rewrite Hf. apply Ht.
    + intros H. apply start_launch_fails. congruence.
    + intros _ H1 H2. apply start_severed; congruence.
Qed.

Lemma strict_commands_not_running_witness :
  run_proxy_command (WithHandler CmdPause) "maestral" (world_with ∅ [])
  = (set_trace [Echo "Maestral daemon is not running." true] (world_with ∅ []), Ok tt) /\
  (run_proxy_command (CmdStart false false) "maestral" (world_with ∅ [])).2
  <> Raise CommunicationError /\
  (run_proxy_command (CmdRestart false false) "maestral" severed_world).2
  = Raise CommunicationError.
Proof.
  split; [|split].
  - apply (proj2 (strict_commands_not_running (WithHandler CmdPause) "maestral"
                    (world_with ∅ []))).
    reflexivity.
  - apply (proj1 (strict_commands_not_running (CmdStart false false) "maestral"
                    (world_with ∅ []))).
    intros n H. discriminate H.
  - apply (proj2 (proj2 (strict_commands_not_running (CmdRestart false false)
                           "maestral" severed_world))); reflexivity.
Defined.

(** [start] has no handler for the communication error: with no daemon
    running, a launch that succeeds and a transport that breaks at the first
    call through the proxy, the error reaches the user as it is, after the
    launch was reported. *)
Lemma start_communication_error_escapes :
  start false false "maestral" severed_world
  = (set_fault None
       (set_daemons {[ "maestral" := Running ]}
          (set_trace [Echo "Starting Maestral..." false;
                      StartDaemonProcess "maestral" Start.Ok;
                      Echo (cr ++ "Starting Maestral...        " ++ OK) true;
                      ProxyAcquired "maestral"] severed_world)),
     Raise CommunicationError).
Proof. vm_compute. reflexivity. Qed.
